(** * iHosts: parser, serializer, write guard and change-tracking store

    A shallow embedding of
    - [HostsParser]       (main/services/hostsParser.ts),
    - [HostsFileManager]  (main/services/hostsFileManager.ts, the write path),
    - [useHostsStore]     (renderer/store/useHostsStore.ts),
    together with the properties of the specification that concern them.

    JavaScript strings are modelled as lists of code units, restricted to
    the 8-bit ones ([ascii], read as Latin-1): the addresses, the host
    names and the markers [#], [.], [:] of the file format live there.
    String literals are written as usual and coerced to such lists. *)

From Stdlib Require Import Ascii String DecimalString DecimalNat.
From Stdlib Require Import NArith ZArith Bool Arith Lia List.
From Stdlib Require Import Permutation Sorted.
Import ListNotations.

Local Open Scope string_scope.
Local Open Scope nat_scope.
Local Open Scope list_scope.

(** ** Strings *)

Definition str := list ascii.

Coercion list_ascii_of_string : string >-> list.

Definition code (c : ascii) : N := N_of_ascii c.

Definition str_eqb (a b : str) : bool :=
  if list_eq_dec ascii_dec a b then true else false.

(** [WhiteSpace] and [LineTerminator] of ECMAScript among the 8-bit code
    units: TAB, LF, VT, FF, CR, SP and NBSP.  This is the set that both
    [String.prototype.trim] and the regular-expression class [\s] use. *)
Definition is_space (c : ascii) : bool :=
  let n := code c in
  ((9 <=? n) && (n <=? 13) || (n =? 32) || (n =? 160))%N.

(** [LineTerminator] alone: what the regular-expression dot refuses. *)
Definition is_line_terminator (c : ascii) : bool :=
  let n := code c in ((n =? 10) || (n =? 13))%N.

Definition is_digit (c : ascii) : bool :=
  let n := code c in ((48 <=? n) && (n <=? 57))%N.

Definition is_lower (c : ascii) : bool :=
  let n := code c in ((97 <=? n) && (n <=? 122))%N.

Definition is_upper (c : ascii) : bool :=
  let n := code c in ((65 <=? n) && (n <=? 90))%N.

Definition is_hex (c : ascii) : bool :=
  let n := code c in
  (is_digit c || (97 <=? n) && (n <=? 102) || (65 <=? n) && (n <=? 70))%N.

Definition chr_is (a : ascii) (c : ascii) : bool := Ascii.eqb a c.

(** [s.startsWith(p)] *)
Fixpoint startsWith (p s : str) : bool :=
  match p, s with
  | [], _ => true
  | _ :: _, [] => false
  | a :: p', b :: s' => Ascii.eqb a b && startsWith p' s'
  end.

(** [s.includes(p)] *)
Fixpoint includes (p s : str) : bool :=
  startsWith p s ||
  match s with
  | [] => false
  | _ :: s' => includes p s'
  end.

(** [s.substring(n)] *)
Definition substring_from (n : nat) (s : str) : str := skipn n s.

Fixpoint trimStart (s : str) : str :=
  match s with
  | c :: s' => if is_space c then trimStart s' else s
  | [] => []
  end.

Fixpoint trimEnd (s : str) : str :=
  match s with
  | [] => []
  | c :: s' =>
      match trimEnd s' with
      | [] => if is_space c then [] else [c]
      | t => c :: t
      end
  end.

(** [s.trim()] *)
Definition trim (s : str) : str := trimEnd (trimStart s).

(** [s.split(sep)] for a non-empty separator string: the separator is
    searched from left to right, occurrences do not overlap.  [skip] counts
    the code units of a separator occurrence still to be passed over, [cur]
    is the piece being collected, last code unit first. *)
Fixpoint split_go (sep : str) (skip : nat) (cur : str) (s : str) : list str :=
  match s with
  | [] => [rev cur]
  | c :: s' =>
      match skip with
      | S k => split_go sep k cur s'
      | O =>
          if startsWith sep s
          then rev cur :: split_go sep (pred (length sep)) [] s'
          else split_go sep 0 (c :: cur) s'
      end
  end.

Definition split (sep : str) (s : str) : list str := split_go sep 0 [] s.

(** [s.split(/\s+/)]: the pieces between the maximal runs of white space;
    a run at either end leaves an empty piece there, and the empty string
    gives one empty piece.  [in_run] tells that the previous code unit was
    white space (the run it belongs to has already closed a piece). *)
Fixpoint split_ws_go (in_run : bool) (cur : str) (s : str) : list str :=
  match s with
  | [] => [rev cur]
  | c :: s' =>
      if is_space c
      then if in_run then split_ws_go true cur s'
           else rev cur :: split_ws_go true [] s'
      else split_ws_go false (c :: cur) s'
  end.

Definition split_ws (s : str) : list str := split_ws_go false [] s.

(** [a.join(sep)] *)
Fixpoint join (sep : str) (l : list str) : str :=
  match l with
  | [] => []
  | [x] => x
  | x :: rest => x ++ sep ++ join sep rest
  end.

(** Truthiness of a string, as in [filter(Boolean)] and [if (s)]. *)
Definition truthy (s : str) : bool :=
  match s with [] => false | _ => true end.

(** ** Regular expressions

    The patterns of the program are kept as syntax and run by derivatives;
    [regex_test] is [RegExp.prototype.test] for a pattern anchored at both
    ends by [^] and [$]. *)

Inductive regex : Type :=
| Void
| Eps
| Chr (p : ascii -> bool)
| Cat (r1 r2 : regex)
| Alt (r1 r2 : regex)
| Star (r : regex).

(** [r?] *)
Definition Opt (r : regex) : regex := Alt r Eps.

(** [r{n}] *)
Fixpoint Times (n : nat) (r : regex) : regex :=
  match n with
  | O => Eps
  | S k => Cat r (Times k r)
  end.

(** [r{0,n}], greedy or not: membership is the same. *)
Fixpoint UpTo (n : nat) (r : regex) : regex :=
  match n with
  | O => Eps
  | S k => Opt (Cat r (UpTo k r))
  end.

(** [r{lo,hi}] *)
Definition Range (lo hi : nat) (r : regex) : regex :=
  Cat (Times lo r) (UpTo (hi - lo) r).

(** a literal string *)
Fixpoint Lit (s : str) : regex :=
  match s with
  | [] => Eps
  | c :: s' => Cat (Chr (chr_is c)) (Lit s')
  end.

Fixpoint nullable (r : regex) : bool :=
  match r with
  | Void => false
  | Eps => true
  | Chr _ => false
  | Cat r1 r2 => nullable r1 && nullable r2
  | Alt r1 r2 => nullable r1 || nullable r2
  | Star _ => true
  end.

Fixpoint deriv (c : ascii) (r : regex) : regex :=
  match r with
  | Void => Void
  | Eps => Void
  | Chr p => if p c then Eps else Void
  | Cat r1 r2 =>
      if nullable r1
      then Alt (Cat (deriv c r1) r2) (deriv c r2)
      else Cat (deriv c r1) r2
  | Alt r1 r2 => Alt (deriv c r1) (deriv c r2)
  | Star r1 => Cat (deriv c r1) (Star r1)
  end.

Fixpoint regex_test (r : regex) (s : str) : bool :=
  match s with
  | [] => nullable r
  | c :: s' => regex_test (deriv c r) s'
  end.

(** The language of a pattern, stated directly. *)
Inductive Matches : regex -> str -> Prop :=
| MEps : Matches Eps []
| MChr (p : ascii -> bool) c : p c = true -> Matches (Chr p) [c]
| MCat r1 r2 s1 s2 :
    Matches r1 s1 -> Matches r2 s2 -> Matches (Cat r1 r2) (s1 ++ s2)
| MAltL r1 r2 s : Matches r1 s -> Matches (Alt r1 r2) s
| MAltR r1 r2 s : Matches r2 s -> Matches (Alt r1 r2) s
| MStarNil r : Matches (Star r) []
| MStarCons r s1 s2 :
    Matches r s1 -> Matches (Star r) s2 -> Matches (Star r) (s1 ++ s2).

(** ** IP validation: [HostsParser.isValidIP] *)

(** [/^(\d{1,3}\.){3}\d{1,3}$/] *)
Definition ipv4Regex : regex :=
  Cat (Times 3 (Cat (Range 1 3 (Chr is_digit)) (Chr (chr_is "."))))
      (Range 1 3 (Chr is_digit)).

(** [/^([0-9a-fA-F]{1,4}:){7}[0-9a-fA-F]{1,4}$|^::1$|^::$/] *)
Definition ipv6Regex : regex :=
  Alt (Cat (Times 7 (Cat (Range 1 4 (Chr is_hex)) (Chr (chr_is ":"))))
           (Range 1 4 (Chr is_hex)))
      (Alt (Lit "::1") (Lit "::")).

(** The value of a run of decimal digits, most significant first. *)
Definition digit_val (c : ascii) : Z := Z.of_N (code c) - 48.

Definition decimal_value (s : str) : Z :=
  fold_left (fun acc c => 10 * acc + digit_val c)%Z s 0%Z.

(** [Number(s)] on the strings that reach it.  [isValidIP] applies it only
    to the pieces of a string that matched [ipv4Regex], which are runs of
    decimal digits; the empty string converts to [0]; anything else would be
    [NaN], here [None], and every comparison with it is false. *)
Definition Number (s : str) : option Z :=
  if forallb is_digit s then Some (decimal_value s) else None.

Definition in_byte_range (part : option Z) : bool :=
  match part with
  | Some n => ((0 <=? n) && (n <=? 255))%Z
  | None => false
  end.

Definition isValidIP (ip : str) : bool :=
  if regex_test ipv4Regex ip then
    forallb in_byte_range (map Number (split "." ip))
  else if regex_test ipv6Regex ip then true
  else if includes "::" ip then
    match split "::" ip with
    | [l; r] =>
        let left := filter truthy (split ":" l) in
        let right := filter truthy (split ":" r) in
        length left + length right <=? 8
    | _ => false
    end
  else false.

(** ** Entries: [HostEntry] of types/ipc.ts *)

Record HostEntry : Type := {
  id : str;
  ip : str;
  hostnames : list str;
  enabled : bool;
  comment : option str;   (* [comment?: string] *)
  group : option str      (* [group?: string]   *)
}.

Definition LF : ascii := "010"%char.

Definition DQUOTE : ascii := "034"%char.

(** The decimal text of a number, as a template literal inserts it. *)
Definition String_of_number (n : nat) : str :=
  list_ascii_of_string (NilEmpty.string_of_uint (Nat.to_uint n)).

(** ** The parser: [HostsParser.parse] and its helpers *)

(** [(.+)$]: the rest of the input, not empty and without line terminator. *)
Definition dot_plus_end (s : str) : bool :=
  truthy s && forallb (fun c => negb (is_line_terminator c)) s.

(** [\s*(.+)$] from the current position, the group as result.  The star
    is greedy: it first takes the white space in front of it, and gives a
    code unit back only when nothing matches further on. *)
Fixpoint ws_star_then_group (s : str) : option str :=
  match s with
  | [] => None
  | c :: s' =>
      if is_space c then
        match ws_star_then_group s' with
        | Some g => Some g
        | None => if dot_plus_end s then Some s else None
        end
      else if dot_plus_end s then Some s else None
  end.

(** [/#\s*(.+)$/.exec(s)], reduced to its first group: the leftmost [#]
    from which the pattern matches. *)
Fixpoint commentRegex_exec (s : str) : option str :=
  match s with
  | [] => None
  | c :: s' =>
      if chr_is "#" c then
        match ws_star_then_group s' with
        | Some g => Some g
        | None => commentRegex_exec s'
        end
      else commentRegex_exec s'
  end.

Definition parseEntryLine (line : str) (entryId : nat) : option HostEntry :=
  let parts := split_ws line in
  if length parts <? 2 then None
  else
    let ip := hd [] parts in
    let hostnames :=
      filter (fun h => truthy h && negb (startsWith "#" h)) (tl parts) in
    if negb (isValidIP ip) then None
    else
      let commentMatch := commentRegex_exec line in
      let comment := option_map trim commentMatch in
      Some {| id := "entry-" ++ String_of_number entryId;
              ip := ip;
              hostnames := hostnames;
              enabled := true;
              comment := comment;
              group := None |}.

Definition set_enabled (b : bool) (e : HostEntry) : HostEntry :=
  {| id := id e; ip := ip e; hostnames := hostnames e; enabled := b;
     comment := comment e; group := group e |}.

Definition set_comment (c : option str) (e : HostEntry) : HostEntry :=
  {| id := id e; ip := ip e; hostnames := hostnames e; enabled := enabled e;
     comment := c; group := group e |}.

(** Assignment through [entries.at(-1)]: the last entry of the array is
    the object that changes. *)
Fixpoint update_last (f : HostEntry -> HostEntry) (entries : list HostEntry)
  : list HostEntry :=
  match entries with
  | [] => []
  | [e] => [f e]
  | e :: rest => e :: update_last f rest
  end.

(** [handleCommentLine] changes [entries] in place; here it returns them. *)
Definition handleCommentLine (line : str) (entries : list HostEntry)
    (lineIndex : nat) (allLines : list str) : list HostEntry :=
  if (length entries =? 0) || (lineIndex =? 0) then entries
  else
    match option_map trim (nth_error allLines (lineIndex - 1)) with
    | Some prevLine =>
        if truthy prevLine && negb (startsWith "#" prevLine) then
          let comment := trim (substring_from 1 line) in
          if truthy comment
          then update_last (set_comment (Some comment)) entries
          else entries
        else entries
    | None => entries
    end.

(** The state of the loop of [parse]: the entries so far and the counter. *)
Record parse_state : Type := {
  ps_entries : list HostEntry;
  ps_entryId : nat
}.

(** One turn of the loop, for the line [raw] at index [i] of [lines]. *)
Definition parse_step (lines : list str) (i : nat) (raw : str)
    (st : parse_state) : parse_state :=
  let entries := ps_entries st in
  let entryId := ps_entryId st in
  let line := trim raw in
  if negb (truthy line) then st
  else if startsWith "#" line then
    let commentContent := trim (substring_from 1 line) in
    match parseEntryLine commentContent entryId with
    | Some disabledEntry =>
        {| ps_entries := entries ++ [set_enabled false disabledEntry];
           ps_entryId := S entryId |}
    | None =>
        {| ps_entries := handleCommentLine line entries i lines;
           ps_entryId := S entryId |}
    end
  else
    match parseEntryLine line entryId with
    | Some entry =>
        {| ps_entries := entries ++ [entry]; ps_entryId := S entryId |}
    | None => {| ps_entries := entries; ps_entryId := S entryId |}
    end.

Fixpoint parse_loop (lines : list str) (i : nat) (todo : list str)
    (st : parse_state) : parse_state :=
  match todo with
  | [] => st
  | raw :: todo' =>
      parse_loop lines (S i) todo' (parse_step lines i raw st)
  end.

(** [content.split("\n")], then the loop over the lines. *)
Definition parse_lines (lines : list str) : list HostEntry :=
  ps_entries
    (parse_loop lines 0 lines {| ps_entries := []; ps_entryId := 0 |}).

Definition parse (content : str) : list HostEntry :=
  parse_lines (split [LF] content).

(** ** The serializer: [HostsParser.formatEntry] and [HostsParser.stringify] *)

Definition truthy_opt (c : option str) : bool :=
  match c with
  | Some s => truthy s
  | None => false
  end.

Definition opt_text (c : option str) : str :=
  match c with
  | Some s => s
  | None => []
  end.

Definition formatEntry (entry : HostEntry) : list str :=
  let hostnameLine := ip entry ++ " " ++ join " " (hostnames entry) in
  if enabled entry then
    if truthy_opt (comment entry)
    then [hostnameLine ++ " # " ++ opt_text (comment entry)]
    else [hostnameLine]
  else
    ("# " ++ hostnameLine)
      :: (if truthy_opt (comment entry)
          then ["# " ++ opt_text (comment entry)]
          else []).

(** [stringify], for an array of entry objects (the only input its type
    admits; the guards for other values throw or skip).  [now] is the text
    of [new Date().toISOString()] at the time of the call. *)
Definition stringify (now : str) (entries : list HostEntry) : str :=
  let lines :=
    ["# Hosts file managed by iHosts" : str;
     "# Generated at " ++ now;
     []] ++ flat_map formatEntry entries in
  join [LF] lines ++ [LF].

(** ** Validation before saving *)

Definition is_alnum (c : ascii) : bool :=
  is_lower c || is_upper c || is_digit c.

Definition is_alnum_dash (c : ascii) : bool :=
  is_alnum c || chr_is "-" c.

(** [[a-z0-9]([a-z0-9-]{0,61}[a-z0-9])?] under the flag [i] *)
Definition labelRegex : regex :=
  Cat (Chr is_alnum)
      (Opt (Cat (UpTo 61 (Chr is_alnum_dash)) (Chr is_alnum))).

(** [/^[a-z0-9]([a-z0-9-]{0,61}[a-z0-9])?
      (\.[a-z0-9]([a-z0-9-]{0,61}[a-z0-9])?)*$/i], written on one line *)
Definition hostnameRegex : regex :=
  Cat labelRegex (Star (Cat (Chr (chr_is ".")) labelRegex)).

Definition isValidHostname (hostname : str) : bool :=
  if 253 <? length hostname then false
  else regex_test hostnameRegex hostname.

Record validation : Type := {
  valid : bool;
  errors : list str
}.

Definition validateEntry (entry : HostEntry) : validation :=
  let errors1 :=
    if negb (isValidIP (ip entry))
    then ["Invalid IP address: " ++ ip entry] else [] in
  let errors2 :=
    if length (hostnames entry) =? 0
    then ["At least one hostname is required" : str] else [] in
  let errors3 :=
    flat_map (fun hostname =>
                if negb (isValidHostname hostname)
                then ["Invalid hostname: " ++ hostname] else [])
             (hostnames entry) in
  let errors := errors1 ++ errors2 ++ errors3 in
  {| valid := length errors =? 0; errors := errors |}.

(** ** The write path: [HostsFileManager.writeHosts]

    The outside world (the dialog, the backup directory, the temporary file
    and the privileged copy onto /etc/hosts, the clock) is a state [World]
    that the collaborators transform; an action either returns a value or
    throws an error message. *)

Inductive outcome (A : Type) : Type :=
| Returned (a : A)
| Thrown (message : str).
Arguments Returned {A} a.
Arguments Thrown {A} message.

Section WriteHosts.

Variable World : Type.

Definition IO (A : Type) : Type := World -> outcome A * World.

Definition ret {A : Type} (a : A) : IO A := fun w => (Returned a, w).

Definition throw {A : Type} (message : str) : IO A :=
  fun w => (Thrown message, w).

Definition bind {A B : Type} (m : IO A) (k : A -> IO B) : IO B :=
  fun w =>
    match m w with
    | (Returned a, w') => k a w'
    | (Thrown message, w') => (Thrown message, w')
    end.

Notation "m ;; k" := (bind m (fun _ => k))
  (at level 61, right associativity).
Notation "x <- m ;; k" := (bind m (fun x => k))
  (at level 61, m at next level, right associativity).

(** The collaborators of [writeHosts]; [window] is whether a browser
    window was passed. *)
Variable requestPermission : bool -> IO unit.
Variable createBackupIfNeeded : IO unit.
Variable writeContentToHostsFile : str -> IO unit.
Variable toISOString_now : IO str.

(** The entries paired with their index in the array. *)
Fixpoint indexed_from {A : Type} (i : nat) (l : list A) : list (nat * A) :=
  match l with
  | [] => []
  | x :: rest => (i, x) :: indexed_from (S i) rest
  end.

(** The loop of [validateEntriesForWrite] from index [i] on: one message
    for each entry that [validateEntry] refuses. *)
Fixpoint validationErrors_from (i : nat) (entries : list HostEntry)
  : list str :=
  match entries with
  | [] => []
  | entry :: rest =>
      let validation := validateEntry entry in
      (if negb (valid validation)
       then ["Entry " ++ String_of_number (i + 1) ++ ": "
               ++ join ", " (errors validation)]
       else [])
        ++ validationErrors_from (S i) rest
  end.

(** [validateEntriesForWrite], for an array of entry objects. *)
Definition validateEntriesForWrite (entries : list HostEntry) : IO unit :=
  if length entries =? 0 then throw "Cannot save empty hosts file"
  else
    let validationErrors := validationErrors_from 0 entries in
    if 0 <? length validationErrors
    then throw ("Validation failed:" ++ [LF] ++ join [LF] validationErrors)
    else ret tt.

Definition writeHosts (entries : list HostEntry) (window : bool) : IO unit :=
  validateEntriesForWrite entries ;;
  requestPermission window ;;
  createBackupIfNeeded ;;
  now <- toISOString_now ;;
  let content := stringify now entries in
  writeContentToHostsFile content.

End WriteHosts.

(** ** The change-tracking store: [useHostsStore] *)

(** [JSON.stringify] of an array of strings. *)
Definition hex_digit (n : N) : ascii :=
  ascii_of_N (if (n <? 10)%N then 48 + n else 87 + n)%N.

Definition quote_unit (c : ascii) : str :=
  let n := code c in
  if (n =? 34)%N then "\" ++ [DQUOTE]
  else if (n =? 92)%N then "\\"
  else if (n =? 8)%N then "\b"
  else if (n =? 12)%N then "\f"
  else if (n =? 10)%N then "\n"
  else if (n =? 13)%N then "\r"
  else if (n =? 9)%N then "\t"
  else if (n <? 32)%N then
    "\u00" ++ [hex_digit (n / 16)%N; hex_digit (n mod 16)%N]
  else [c].

Definition QuoteJSONString (s : str) : str :=
  [DQUOTE] ++ flat_map quote_unit s ++ [DQUOTE].

Definition JSON_stringify (a : list str) : str :=
  "[" ++ join "," (map QuoteJSONString a) ++ "]".

(** [s.toLowerCase()] on the 8-bit code units: the letters A-Z and the
    accented capitals of Latin-1. *)
Definition lower_unit (c : ascii) : ascii :=
  let n := code c in
  if ((65 <=? n) && (n <=? 90)
      || (192 <=? n) && (n <=? 222) && negb (n =? 215))%N
  then ascii_of_N (n + 32) else c.

Definition toLowerCase (s : str) : str := map lower_unit s.

Inductive FilterStatus : Type :=
| StatusAll | StatusEnabled | StatusDisabled | StatusUnsaved.

Inductive SortBy : Type := SortIp | SortHostname | SortGroup | SortNone.

Inductive SortOrder : Type := Asc | Desc.

(** [Partial<HostEntry>]: a field is given or not; a given [comment] or
    [group] may itself be [undefined]. *)
Record PartialEntry : Type := {
  u_id : option str;
  u_ip : option str;
  u_hostnames : option (list str);
  u_enabled : option bool;
  u_comment : option (option str);
  u_group : option (option str)
}.

Definition or_else {A : Type} (o : option A) (d : A) : A :=
  match o with
  | Some a => a
  | None => d
  end.

(** [{ ...entry, ...updates }] *)
Definition spread (entry : HostEntry) (updates : PartialEntry) : HostEntry :=
  {| id := or_else (u_id updates) (id entry);
     ip := or_else (u_ip updates) (ip entry);
     hostnames := or_else (u_hostnames updates) (hostnames entry);
     enabled := or_else (u_enabled updates) (enabled entry);
     comment := or_else (u_comment updates) (comment entry);
     group := or_else (u_group updates) (group entry) |}.

(** The data of the store that its entry operations read and write (the
    flags of the user interface, [backups] and [error] are left out). *)
Record HostsStore : Type := {
  entries : list HostEntry;
  originalEntries : list HostEntry;
  filteredEntries : list HostEntry;
  searchQuery : str;
  filterStatus : FilterStatus;
  sortBy : SortBy;
  sortOrder : SortOrder
}.

Definition opt_eqb (a b : option str) : bool :=
  match a, b with
  | Some x, Some y => str_eqb x y
  | None, None => true
  | _, _ => false
  end.

Section Store.

(** [a.localeCompare(b)]: negative, zero or positive.  The collation is
    the host's; the store is defined for any. *)
Variable localeCompare : str -> str -> Z.

(** [Array.prototype.sort(compare)], which is stable: an element goes in
    front of the first one it does not have to follow. *)
Fixpoint sort_insert {A : Type} (compare : A -> A -> Z) (x : A) (l : list A)
  : list A :=
  match l with
  | [] => [x]
  | y :: rest =>
      if (compare x y <=? 0)%Z then x :: l
      else y :: sort_insert compare x rest
  end.

Definition sort {A : Type} (compare : A -> A -> Z) (l : list A) : list A :=
  fold_right (sort_insert compare) [] l.

Definition isEntryUnsaved (st : HostsStore) (entry : HostEntry) : bool :=
  match find (fun e => str_eqb (id e) (id entry)) (originalEntries st) with
  | None => true
  | Some originalEntry =>
      let sortedHostnames := sort localeCompare (hostnames entry) in
      let sortedOriginalHostnames :=
        sort localeCompare (hostnames originalEntry) in
      negb (str_eqb (ip entry) (ip originalEntry))
      || negb (str_eqb (JSON_stringify sortedHostnames)
                       (JSON_stringify sortedOriginalHostnames))
      || negb (Bool.eqb (enabled entry) (enabled originalEntry))
      || negb (opt_eqb (comment entry) (comment originalEntry))
      || negb (opt_eqb (group entry) (group originalEntry))
  end.

Definition set_filteredEntries (f : list HostEntry) (st : HostsStore)
  : HostsStore :=
  {| entries := entries st; originalEntries := originalEntries st;
     filteredEntries := f; searchQuery := searchQuery st;
     filterStatus := filterStatus st; sortBy := sortBy st;
     sortOrder := sortOrder st |}.

Definition set_entries (l : list HostEntry) (st : HostsStore) : HostsStore :=
  {| entries := l; originalEntries := originalEntries st;
     filteredEntries := filteredEntries st; searchQuery := searchQuery st;
     filterStatus := filterStatus st; sortBy := sortBy st;
     sortOrder := sortOrder st |}.

Definition set_originalEntries (l : list HostEntry) (st : HostsStore)
  : HostsStore :=
  {| entries := entries st; originalEntries := l;
     filteredEntries := filteredEntries st; searchQuery := searchQuery st;
     filterStatus := filterStatus st; sortBy := sortBy st;
     sortOrder := sortOrder st |}.

Definition opt_includes (query : str) (field : option str) : bool :=
  match field with
  | Some s => includes query (toLowerCase s)
  | None => false
  end.

Definition entry_compare (by_ : SortBy) (order : SortOrder)
    (a b : HostEntry) : Z :=
  let comparison :=
    match by_ with
    | SortIp => localeCompare (ip a) (ip b)
    | SortHostname =>
        localeCompare (hd [] (hostnames a)) (hd [] (hostnames b))
    | SortGroup => localeCompare (opt_text (group a)) (opt_text (group b))
    | SortNone => 0%Z
    end in
  match order with
  | Asc => comparison
  | Desc => (- comparison)%Z
  end.

Definition applyFilters (st : HostsStore) : HostsStore :=
  let filtered := entries st in
  let filtered :=
    if truthy (searchQuery st) then
      let query := toLowerCase (searchQuery st) in
      filter (fun entry =>
                includes query (toLowerCase (ip entry))
                || existsb (fun h => includes query (toLowerCase h))
                           (hostnames entry)
                || opt_includes query (comment entry)
                || opt_includes query (group entry))
             filtered
    else filtered in
  let filtered :=
    match filterStatus st with
    | StatusEnabled => filter (fun entry => enabled entry) filtered
    | StatusDisabled => filter (fun entry => negb (enabled entry)) filtered
    | StatusUnsaved => filter (fun entry => isEntryUnsaved st entry) filtered
    | StatusAll => filtered
    end in
  let filtered :=
    match sortBy st with
    | SortNone => filtered
    | by_ => sort (entry_compare by_ (sortOrder st)) filtered
    end in
  set_filteredEntries filtered st.

Definition setEntries (l : list HostEntry) (st : HostsStore) : HostsStore :=
  applyFilters (set_originalEntries l (set_entries l st)).

Definition markAsSaved (st : HostsStore) : HostsStore :=
  applyFilters (set_originalEntries (entries st) st).

Definition discardChanges (st : HostsStore) : HostsStore :=
  applyFilters (set_entries (originalEntries st) st).

(** [addEntry]; [newId] is the id made from the clock and a random
    number. *)
Definition addEntry (entryData : HostEntry) (newId : str) (st : HostsStore)
  : HostsStore :=
  let newEntry :=
    {| id := newId; ip := ip entryData; hostnames := hostnames entryData;
       enabled := enabled entryData; comment := comment entryData;
       group := group entryData |} in
  applyFilters (set_entries (entries st ++ [newEntry]) st).

Definition updateEntry (id0 : str) (updates : PartialEntry) (st : HostsStore)
  : HostsStore :=
  let entries' :=
    map (fun entry =>
           if str_eqb (id entry) id0 then spread entry updates else entry)
        (entries st) in
  applyFilters (set_entries entries' st).

Definition deleteEntry (id0 : str) (st : HostsStore) : HostsStore :=
  let entries' :=
    filter (fun entry => negb (str_eqb (id entry) id0)) (entries st) in
  applyFilters (set_entries entries' st).

Definition toggleEntry (id0 : str) (st : HostsStore) : HostsStore :=
  let entries' :=
    map (fun entry =>
           if str_eqb (id entry) id0
           then set_enabled (negb (enabled entry)) entry else entry)
        (entries st) in
  applyFilters (set_entries entries' st).

Definition setSearchQuery (query : str) (st : HostsStore) : HostsStore :=
  applyFilters
    {| entries := entries st; originalEntries := originalEntries st;
       filteredEntries := filteredEntries st; searchQuery := query;
       filterStatus := filterStatus st; sortBy := sortBy st;
       sortOrder := sortOrder st |}.

Definition setFilterStatus (status : FilterStatus) (st : HostsStore)
  : HostsStore :=
  applyFilters
    {| entries := entries st; originalEntries := originalEntries st;
       filteredEntries := filteredEntries st; searchQuery := searchQuery st;
       filterStatus := status; sortBy := sortBy st;
       sortOrder := sortOrder st |}.

Definition setSortBy (by_ : SortBy) (st : HostsStore) : HostsStore :=
  applyFilters
    {| entries := entries st; originalEntries := originalEntries st;
       filteredEntries := filteredEntries st; searchQuery := searchQuery st;
       filterStatus := filterStatus st; sortBy := by_;
       sortOrder := sortOrder st |}.

Definition setSortOrder (order : SortOrder) (st : HostsStore) : HostsStore :=
  applyFilters
    {| entries := entries st; originalEntries := originalEntries st;
       filteredEntries := filteredEntries st; searchQuery := searchQuery st;
       filterStatus := filterStatus st; sortBy := sortBy st;
       sortOrder := order |}.

End Store.


(** ** The entry editor: [EntryEditor] of renderer/components/EntryItem.tsx

    The four text fields of the editor, as [useState] initialises them
    from the entry, and what [handleSave] passes to [onSave] (nothing
    when it shows the error toast instead). *)

Record EditorState : Type := {
  ed_ip : str;
  ed_hostnames : str;
  ed_comment : str;
  ed_group : str
}.

Definition openEditor (entry : HostEntry) : EditorState :=
  {| ed_ip := ip entry;
     ed_hostnames := join " " (hostnames entry);
     ed_comment := opt_text (comment entry);   (* [entry.comment] or empty *)
     ed_group := opt_text (group entry) |}.

(** [text || undefined] *)
Definition or_undefined (text : str) : option str :=
  if truthy text then Some text else None.

Definition handleSave (s : EditorState) : option PartialEntry :=
  let hostnameList := filter truthy (map trim (split_ws (ed_hostnames s))) in
  if negb (truthy (ed_ip s)) || (length hostnameList =? 0) then None
  else
    Some {| u_id := None;
            u_ip := Some (ed_ip s);
            u_hostnames := Some hostnameList;
            u_enabled := None;
            u_comment := Some (or_undefined (ed_comment s));
            u_group := Some (or_undefined (ed_group s)) |}.

(** The [onSave] of [EntryItem]: [updateEntry(entry.id, updates)]. *)
Definition saveEdit (localeCompare : str -> str -> Z) (entry : HostEntry)
    (s : EditorState) (st : HostsStore) : HostsStore :=
  match handleSave s with
  | Some updates => updateEntry localeCompare (id entry) updates st
  | None => st
  end.

(** ** The file manager and its handlers over a log of calls

    [HostsFileManager] (main/services/hostsFileManager.ts) and the
    handlers "hosts:read" and "hosts:write" (main/ipc/handlers.ts) reach
    the outside world through a few calls only; so do the functions of
    the renderer that use them, which in addition show toasts.  The
    world is the log of the calls made so far, oldest first; what a call
    answers is given by an environment, a function of the log at the time
    of the call, so that any behaviour of the file system, of the dialogs
    and of the clock is covered.  Errors are thrown as [Error] objects
    and are kept as their message.  Console output is left out. *)

Inductive ToastType : Type :=
  ToastSuccess | ToastError | ToastInfo | ToastWarning.

Inductive call : Type :=
| ReadFile (path : str)              (* fs.readFile(path, "utf-8") *)
| Exec (command : str)               (* execAsync(command) *)
| Stat (path : str)                  (* fs.stat(path) *)
| WriteFile (path content : str)     (* fs.writeFile(path, content, "utf-8") *)
| Chmod (path : str)                 (* fs.chmod(path, 0o755) *)
| Unlink (path : str)                (* fs.unlink(path) *)
| ShowMessageBox                     (* dialog.showMessageBox(window, ...) *)
| CreateBackup (entries : list HostEntry)
                                     (* BackupManager.createBackup(entries) *)
| DateNow                            (* Date.now() *)
| NewDate                            (* new Date().toISOString() *)
| GetAllWindows                      (* BrowserWindow.getAllWindows() *)
| ShowToast (message : str) (type : ToastType) (duration : option N).
                                     (* showToast(message, type, duration) *)

Definition HOSTS_FILE_PATH : str := "/etc/hosts".

(** [try { m } catch (error) { handler(error.message) }] *)
Definition try_catch {World A : Type} (m : IO World A)
    (handler : str -> IO World A) : IO World A :=
  fun w =>
    match m w with
    | (Returned a, w') => (Returned a, w')
    | (Thrown message, w') => handler message w'
    end.

(** [try { m } finally { cleanup }]: the outcome of [m] stands unless the
    cleanup throws. *)
Definition try_finally {World A : Type} (m : IO World A)
    (cleanup : IO World unit) : IO World A :=
  fun w =>
    match m w with
    | (r, w') =>
        match cleanup w' with
        | (Returned _, w'') => (r, w'')
        | (Thrown message, w'') => (Thrown message, w'')
        end
    end.

(** [s.replaceAll("'", String.raw`'\''`)] *)
Definition escape_quotes (s : str) : str :=
  flat_map (fun c => if chr_is "'" c then ("'\''" : str) else [c]) s.

Record IPCResponse (T : Type) : Type := {
  success : bool;
  data : option T;
  error : option str
}.
Arguments success {T} _.
Arguments data {T} _.
Arguments error {T} _.

Section FileManager.

(** The type of [stats.mtimeMs], and [path.join]. *)
Variable number : Type.
Variable path_join : str -> str -> str.

Record Environment : Type := {
  fs_readFile : list call -> str -> outcome str;
  execAsync : list call -> str -> outcome (str * str);   (* stdout, stderr *)
  fs_stat : list call -> str -> outcome number;          (* mtimeMs *)
  fs_writeFile : list call -> str -> str -> outcome unit;
  fs_chmod : list call -> str -> outcome unit;
  fs_unlink : list call -> str -> outcome unit;
  dialog_showMessageBox : list call -> outcome nat;      (* result.response *)
  BackupManager_createBackup : list call -> list HostEntry -> outcome unit;
  Date_now : list call -> nat;
  Date_toISOString : list call -> str;
  os_tmpdir : list call -> str;
  getAllWindows_length : list call -> nat
}.

Record HostsFileData : Type := {
  data_entries : list HostEntry;
  rawLines : list str;
  lastModified : number
}.

Variable env : Environment.

Local Notation "m ;; k" := (bind (list call) m (fun _ => k))
  (at level 61, right associativity).
Local Notation "x <- m ;; k" := (bind (list call) m (fun x => k))
  (at level 61, m at next level, right associativity).

(** A call: the environment answers from the log so far, and the call is
    added to the log. *)
Definition perform {A : Type} (c : call) (answer : list call -> outcome A)
  : IO (list call) A :=
  fun log => (answer log, log ++ [c]).

(** [os.tmpdir()] is not logged. *)
Definition tmpdir : IO (list call) str :=
  fun log => (Returned (os_tmpdir env log), log).

Definition readHosts : IO (list call) HostsFileData :=
  try_catch
    (content <-
       try_catch
         (perform (ReadFile HOSTS_FILE_PATH)
            (fun log => fs_readFile env log HOSTS_FILE_PATH))
         (fun _ =>
            out <- perform (Exec ("cat " ++ HOSTS_FILE_PATH))
                     (fun log => execAsync env log ("cat " ++ HOSTS_FILE_PATH)) ;;
            ret (list call) (fst out)) ;;
     let entries := parse content in
     mtimeMs <- perform (Stat HOSTS_FILE_PATH)
                  (fun log => fs_stat env log HOSTS_FILE_PATH) ;;
     ret (list call)
       {| data_entries := entries;
          rawLines := split [LF] content;
          lastModified := mtimeMs |})
    (fun message => throw (list call) ("Failed to read hosts file: " ++ message)).

(** The [catch] of [execWithAdmin]. *)
Definition classify (errorMessage : str) : str :=
  if includes "User canceled" errorMessage
     || includes "canceled" errorMessage
     || includes "User cancelled" errorMessage
     || includes "128" errorMessage
  then "Permission denied: User canceled the password prompt"
  else if includes "password" errorMessage
          || includes "authentication" errorMessage
          || includes "Authentication failed" errorMessage
  then "Authentication failed: Please check your password and try again"
  else "Command failed: " ++ errorMessage.

Definition unlink_quietly (path : str) : IO (list call) unit :=
  try_catch (perform (Unlink path) (fun log => fs_unlink env log path))
    (fun _ => ret (list call) tt).

Definition osascript_command (scriptPath : str) : str :=
  let appleScript :=
    "do shell script " ++ [DQUOTE] ++ scriptPath ++ [DQUOTE]
      ++ " with administrator privileges" in
  "osascript -e '" ++ escape_quotes appleScript ++ "'".

Definition script_text (command : str) : str :=
  "#!/bin/bash" ++ [LF] ++ command ++ [LF].

Definition execWithAdmin (command : str) : IO (list call) str :=
  dir <- tmpdir ;;
  now <- perform DateNow (fun log => Returned (Date_now env log)) ;;
  let scriptPath :=
    path_join dir ("hosts-admin-" ++ String_of_number now ++ ".sh") in
  try_finally
    (try_catch
       (perform (WriteFile scriptPath (script_text command))
          (fun log => fs_writeFile env log scriptPath (script_text command)) ;;
        perform (Chmod scriptPath) (fun log => fs_chmod env log scriptPath) ;;
        out <- perform (Exec (osascript_command scriptPath))
                 (fun log => execAsync env log (osascript_command scriptPath)) ;;
        ret (list call) (fst out))
       (fun errorMessage => throw (list call) (classify errorMessage)))
    (unlink_quietly scriptPath).

Definition requestPermission (window : bool) : IO (list call) unit :=
  if negb window then ret (list call) tt
  else
    response <- perform ShowMessageBox (dialog_showMessageBox env) ;;
    if response =? 0 then throw (list call) "Permission denied: User canceled"
    else ret (list call) tt.

Definition createBackupIfNeeded : IO (list call) unit :=
  try_catch
    (currentData <- readHosts ;;
     if 0 <? length (data_entries currentData)
     then perform (CreateBackup (data_entries currentData))
            (fun log =>
               BackupManager_createBackup env log (data_entries currentData))
     else ret (list call) tt)
    (fun _ => ret (list call) tt).

Definition copy_command (tempPath : str) : str :=
  "cp " ++ [DQUOTE] ++ tempPath ++ [DQUOTE] ++ " "
    ++ [DQUOTE] ++ HOSTS_FILE_PATH ++ [DQUOTE].

Definition writeContentToHostsFile (content : str) : IO (list call) unit :=
  dir <- tmpdir ;;
  now <- perform DateNow (fun log => Returned (Date_now env log)) ;;
  let tempPath := path_join dir ("hosts-" ++ String_of_number now ++ ".tmp") in
  try_catch
    (perform (WriteFile tempPath content)
       (fun log => fs_writeFile env log tempPath content) ;;
     execWithAdmin (copy_command tempPath) ;;
     unlink_quietly tempPath)
    (fun error => unlink_quietly tempPath ;; throw (list call) error).

(** [HostsFileManager.writeHosts] with its own collaborators. *)
Definition writeHostsFile (entries : list HostEntry) (window : bool)
  : IO (list call) unit :=
  writeHosts (list call) requestPermission createBackupIfNeeded
    writeContentToHostsFile
    (perform NewDate (fun log => Returned (Date_toISOString env log)))
    entries window.

(** [getMainWindow() !== null] *)
Definition getMainWindow : IO (list call) bool :=
  n <- perform GetAllWindows
         (fun log => Returned (getAllWindows_length env log)) ;;
  ret (list call) (0 <? n).

(** The handler of "hosts:read". *)
Definition hosts_read : IO (list call) (IPCResponse HostsFileData) :=
  try_catch
    (d <- readHosts ;;
     ret (list call) {| success := true; data := Some d; error := None |})
    (fun message =>
       ret (list call)
         {| success := false; data := None; error := Some message |}).

(** The handler of "hosts:write", for an array of entry objects. *)
Definition hosts_write (entries : list HostEntry)
  : IO (list call) (IPCResponse unit) :=
  try_catch
    (if length entries =? 0
     then ret (list call)
            {| success := false; data := None;
               error := Some ("Cannot save empty hosts file" : str) |}
     else
       window <- getMainWindow ;;
       writeHostsFile entries window ;;
       ret (list call) {| success := true; data := None; error := None |})
    (fun message =>
       ret (list call)
         {| success := false; data := None; error := Some message |}).

End FileManager.

Arguments fs_readFile {number} _ _ _.
Arguments execAsync {number} _ _ _.
Arguments fs_stat {number} _ _ _.
Arguments fs_writeFile {number} _ _ _ _.
Arguments fs_chmod {number} _ _ _.
Arguments fs_unlink {number} _ _ _.
Arguments dialog_showMessageBox {number} _ _.
Arguments BackupManager_createBackup {number} _ _ _.
Arguments Date_now {number} _ _.
Arguments Date_toISOString {number} _ _.
Arguments os_tmpdir {number} _ _.
Arguments getAllWindows_length {number} _ _.
Arguments data_entries {number} _.
Arguments rawLines {number} _.
Arguments lastModified {number} _.
Arguments tmpdir {number} env _.
Arguments readHosts {number} env _.
Arguments unlink_quietly {number} env path _.
Arguments execWithAdmin {number} path_join env command _.
Arguments requestPermission {number} env window _.
Arguments createBackupIfNeeded {number} env _.
Arguments writeContentToHostsFile {number} path_join env content _.
Arguments writeHostsFile {number} path_join env entries window _.
Arguments getMainWindow {number} env _.
Arguments hosts_read {number} env _.
Arguments hosts_write {number} path_join env entries _.

(** ** The renderer's side: preload.ts, [Header.writeHosts], [App.loadHosts] *)

(** What [electronAPI.writeHosts] makes of an entry before it is sent:
    [String] of a string, or of the empty string in its place, is the
    string itself; an empty comment or group becomes [undefined]. *)
Definition serializeEntry (entry : HostEntry) : HostEntry :=
  {| id := id entry;
     ip := ip entry;
     hostnames := hostnames entry;
     enabled := enabled entry;
     comment := if truthy_opt (comment entry) then comment entry else None;
     group := if truthy_opt (group entry) then group entry else None |}.

Section Renderer.

Variable number : Type.
Variable path_join : str -> str -> str.
Variable env : Environment number.
Variable localeCompare : str -> str -> Z.

Local Notation "m ;; k" := (bind (list call) m (fun _ => k))
  (at level 61, right associativity).
Local Notation "x <- m ;; k" := (bind (list call) m (fun x => k))
  (at level 61, m at next level, right associativity).

(** [ipcRenderer.invoke] runs the handler of the channel. *)
Definition electronAPI_readHosts
  : IO (list call) (IPCResponse (HostsFileData number)) :=
  hosts_read env.

Definition electronAPI_writeHosts (entries : list HostEntry)
  : IO (list call) (IPCResponse unit) :=
  let serializableEntries := map serializeEntry entries in
  hosts_write path_join env serializableEntries.

Definition showToast (message : str) (type : ToastType)
    (duration : option N) : IO (list call) unit :=
  perform (ShowToast message type duration) (fun _ => Returned tt).

(** The template text of [response.error]. *)
Definition error_text (error : option str) : str :=
  match error with
  | Some message => message
  | None => "undefined"
  end.

(** [writeHosts] of the header, run on the store [st]; the store is not
    touched by anything else while the write is under way.  It returns
    the store it leaves. *)
Definition Header_writeHosts (st : HostsStore) : IO (list call) HostsStore :=
  let entries := entries st in
  if length entries =? 0
  then showToast "No entries to save" ToastWarning None ;; ret (list call) st
  else
    let validEntries := filter (fun entry => truthy (ip entry)) entries in
    (if negb (length validEntries =? length entries)
     then showToast
            (String_of_number (length entries - length validEntries)
               ++ " invalid entries will be skipped")
            ToastWarning (Some 4000%N)
     else ret (list call) tt) ;;
    try_catch
      (showToast "Saving to /etc/hosts..." ToastInfo (Some 2000%N) ;;
       response <- electronAPI_writeHosts validEntries ;;
       if success response
       then
         let st' := markAsSaved localeCompare st in
         showToast "Successfully saved to /etc/hosts" ToastSuccess None ;;
         ret (list call) st'
       else
         showToast ("Failed to save: " ++ error_text (error response))
           ToastError (Some 5000%N) ;;
         ret (list call) st)
      (fun message =>
         showToast ("Error: " ++ message) ToastError (Some 5000%N) ;;
         ret (list call) st).

(** [loadHosts] of [App], run on the store [st]: the store it leaves and
    the text of its [error] field ([isLoading] is false at the end in
    any case). *)
Definition App_loadHosts (st : HostsStore)
  : IO (list call) (HostsStore * option str) :=
  try_catch
    (response <- electronAPI_readHosts ;;
     match success response, data response with
     | true, Some d =>
         ret (list call) (setEntries localeCompare (data_entries d) st, None)
     | _, _ =>
         ret (list call)
           (st, Some (if truthy (opt_text (error response))
                      then opt_text (error response)
                      else "Failed to load hosts file" : str))
     end)
    (fun message => ret (list call) (st, Some message)).

End Renderer.

Arguments electronAPI_readHosts {number} env _.
Arguments electronAPI_writeHosts {number} path_join env entries _.
Arguments Header_writeHosts {number} path_join env localeCompare st _.
Arguments App_loadHosts {number} env localeCompare st _.

(** ** Notions used to state the properties *)

(** *** Addresses *)

(** [n] groups of [lo] to [hi] code units of the class [p], separated by
    the code unit [sep], and nothing else. *)
Definition groups_form (p : ascii -> bool) (lo hi : nat) (sep : ascii)
    (n : nat) (s : str) : Prop :=
  exists groups : list str,
    length groups = n /\
    Forall (fun g => lo <= length g <= hi /\ forallb p g = true) groups /\
    s = join [sep] groups.

(** A group of one to three decimal digits, and a group whose value is a
    byte. *)
Definition decimal_group (g : str) : Prop :=
  1 <= length g <= 3 /\ forallb is_digit g = true.

Definition byte_valued (g : str) : Prop :=
  (0 <= decimal_value g <= 255)%Z.

(** A decimal group whatever its length; and exactly four of them
    separated by dots, each with a numeric value from 0 to 255, and
    nothing else: the wording that does not bound the digits of a group. *)
Definition digit_run (g : str) : Prop :=
  g <> [] /\ forallb is_digit g = true.

Definition dotted_decimal_as_claimed (s : str) : Prop :=
  exists groups : list str,
    length groups = 4 /\ Forall digit_run groups /\
    Forall byte_valued groups /\ s = join "." groups.

(** A group of one to four hexadecimal digits; and the compressed form
    with such groups on both sides of one marker [::], at most eight in
    all. *)
Definition hex_group (g : str) : Prop :=
  1 <= length g <= 4 /\ forallb is_hex g = true.

Definition compressed_hex_form (s : str) : Prop :=
  exists L R : list str,
    Forall hex_group L /\ Forall hex_group R /\
    length L + length R <= 8 /\
    s = join ":" L ++ "::" ++ join ":" R.

Definition ipv6_specified_shape (s : str) : Prop :=
  groups_form is_hex 1 4 ":" 8 s \/ s = "::1" \/ s = "::" \/
  compressed_hex_form s.

(** The compressed form as the code takes it: the pieces around [::] are
    cut at the colons, the empty ones dropped, the rest counted. *)
Definition segments (part : str) : list str :=
  filter truthy (split ":" part).

Definition compressed_lenient_form (s : str) : Prop :=
  exists l r : str,
    split "::" s = [l; r] /\ length (segments l) + length (segments r) <= 8.

(** *** Lines and entries *)

(** A line as the entry decoder receives it: trimmed, and a single line
    (no line terminator inside). *)
Definition pre_trimmed (line : str) : Prop := trim line = line.

Definition single_line (line : str) : Prop :=
  forallb (fun c => negb (is_line_terminator c)) line = true.

(** The text after the first [#] of a line, and the comment it makes:
    trimmed, and absent when nothing is left. *)
Fixpoint after_hash (s : str) : option str :=
  match s with
  | [] => None
  | c :: s' => if chr_is "#" c then Some s' else after_hash s'
  end.

Definition trailing_comment (line : str) : option str :=
  match after_hash line with
  | Some rest => if truthy (trim rest) then Some (trim rest) else None
  | None => None
  end.

(** The identifier that [parse] makes of the counter value [k]. *)
Definition entry_id_of (k : nat) : str := "entry-" ++ String_of_number k.

(** The lines of a text that are not blank: those on which [parse] tries
    to decode an entry. *)
Definition nonblank_lines (lines : list str) : nat :=
  length (filter (fun raw => truthy (trim raw)) lines).

(** The text that [parse] tries to decode on a non-blank line: the line
    trimmed, and without its comment marker when it begins with one. *)
Definition tried_text (raw : str) : str :=
  let line := trim raw in
  if startsWith "#" line then trim (substring_from 1 line) else line.

(** A text gives an entry when it has at least two pieces between white
    space and the first of them is an address. *)
Definition decodes (text : str) : bool :=
  (2 <=? length (split_ws text)) && isValidIP (hd [] (split_ws text)).

(** The address on a line that decodes: the first piece of its text. *)
Definition line_address (raw : str) : str :=
  hd [] (split_ws (tried_text raw)).

(** What the loop keeps true: the identifiers carry counter values that
    increase strictly and stay below the counter. *)
Definition numbered (st : parse_state) : Prop :=
  exists ks : list nat,
    map id (ps_entries st) = map entry_id_of ks /\
    StronglySorted lt ks /\
    Forall (fun k => k < ps_entryId st) ks.

(** The lines of the document that [stringify] writes: the header, then
    the lines of the entries, then the empty piece after the last line
    feed. *)
Definition document_lines (now : str) (entries : list HostEntry)
  : list str :=
  ["# Hosts file managed by iHosts" : str; "# Generated at " ++ now; []]
    ++ flat_map formatEntry entries ++ [[]].

(** Two lists of host names that hold the same names. *)
Definition same_names (a b : list str) : Prop :=
  forall h : str, In h a <-> In h b.

(** *** The write guard *)

(** What makes an entry unfit for writing: its address fails the
    validator, or it has no host name, or one of its host names fails the
    host-name syntax. *)
Definition invalid_entry (e : HostEntry) : Prop :=
  isValidIP (ip e) = false \/ hostnames e = [] \/
  Exists (fun h => isValidHostname h = false) (hostnames e).

Definition invalid_entryb (e : HostEntry) : bool :=
  negb (isValidIP (ip e))
  || match hostnames e with [] => true | _ => false end
  || existsb (fun h => negb (isValidHostname h)) (hostnames e).

(** The reasons given for an entry, and the line of the failure message
    that reports the entry at index [i] (counted from one). *)
Definition entry_reasons (e : HostEntry) : list str :=
  (if isValidIP (ip e) then [] else ["Invalid IP address: " ++ ip e])
  ++ match hostnames e with
     | [] => ["At least one hostname is required" : str]
     | _ => []
     end
  ++ map (fun h => "Invalid hostname: " ++ h)
         (filter (fun h => negb (isValidHostname h)) (hostnames e)).

Definition entry_report (p : nat * HostEntry) : str :=
  "Entry " ++ String_of_number (fst p + 1) ++ ": "
    ++ join ", " (entry_reasons (snd p)).

Definition offending (entries : list HostEntry) : list (nat * HostEntry) :=
  filter (fun p => invalid_entryb (snd p)) (indexed_from 0 entries).

(** *** Comparison and quoting *)

(** [a] may stand in front of [b] under a comparison function. *)
Definition before {A : Type} (compare : A -> A -> Z) (a b : A) : Prop :=
  (compare a b <= 0)%Z.

(** A comparison under which the strings are totally ordered: any two
    compare one way or the other, the comparison is transitive, and only
    equal strings compare both ways. *)
Definition total_collation (compare : str -> str -> Z) : Prop :=
  (forall a b, compare a b <= 0 \/ compare b a <= 0)%Z /\
  (forall a b c, compare a b <= 0 -> compare b c <= 0 -> compare a c <= 0)%Z /\
  (forall a b, compare a b <= 0 -> compare b a <= 0 -> a = b)%Z.



(** Reading one quoted code unit back, for the injectivity of
    [JSON.stringify]. *)
Definition hex_val (c : ascii) : N :=
  let n := code c in if (n <? 58)%N then (n - 48)%N else (n - 87)%N.

Definition unquote_unit (s : str) : option (ascii * str) :=
  match s with
  | [] => None
  | c :: rest =>
      if negb (Ascii.eqb c "\") then Some (c, rest)
      else
        match rest with
        | [] => None
        | e :: rest' =>
            if Ascii.eqb e "u" then
              match rest' with
              | _ :: _ :: h :: l :: rest'' =>
                  Some (ascii_of_N (16 * hex_val h + hex_val l), rest'')
              | _ => None
              end
            else if Ascii.eqb e "b" then Some ("008"%char, rest')
            else if Ascii.eqb e "f" then Some ("012"%char, rest')
            else if Ascii.eqb e "n" then Some ("010"%char, rest')
            else if Ascii.eqb e "r" then Some ("013"%char, rest')
            else if Ascii.eqb e "t" then Some ("009"%char, rest')
            else Some (e, rest')
        end
  end.

(** ** Sample data *)

Definition devEntry (on : bool) : HostEntry :=
  {| id := "1"; ip := "10.0.0.5";
     hostnames := ["a.test" : str; "b.test" : str];
     enabled := on; comment := Some ("dev" : str); group := None |}.

(** The entry that comes back for [devEntry true]. *)
Definition devEntry_reparsed : HostEntry :=
  {| id := "entry-2"; ip := "10.0.0.5";
     hostnames := ["a.test" : str; "b.test" : str; "dev" : str];
     enabled := true; comment := Some ("dev" : str); group := None |}.

(** The entry that comes back for [devEntry false]. *)
Definition devEntry_disabled_reparsed (k : nat) : HostEntry :=
  {| id := entry_id_of k; ip := "10.0.0.5";
     hostnames := ["a.test" : str; "b.test" : str];
     enabled := false; comment := None; group := None |}.

Definition sampleEntry (id0 ip0 : str) (names : list str) : HostEntry :=
  {| id := id0; ip := ip0; hostnames := names; enabled := true;
     comment := None; group := None |}.

Definition sampleStore (working saved : list HostEntry) : HostsStore :=
  {| entries := working; originalEntries := saved;
     filteredEntries := working; searchQuery := [];
     filterStatus := StatusAll; sortBy := SortNone; sortOrder := Asc |}.

(** A world that only counts the actions performed on it. *)
Definition tick {A : Type} (a : A) : IO nat A := fun w => (Returned a, S w).

(** Comparison of strings by code units, a stand-in for a collation. *)
Fixpoint codeunit_compare (a b : str) : Z :=
  match a, b with
  | [], [] => 0
  | [], _ :: _ => -1
  | _ :: _, [] => 1
  | x :: a', y :: b' =>
      match N.compare (code x) (code y) with
      | Lt => -1
      | Gt => 1
      | Eq => codeunit_compare a' b'
      end
  end%Z.

(** A comparison under which all strings tie. *)
Definition tie_compare (a b : str) : Z := 0%Z.




(** *** Host names *)

(** A label of a host name: one to 63 letters, digits or hyphens, the
    first and the last not a hyphen. *)
Definition valid_label (l : str) : Prop :=
  1 <= length l <= 63 /\ forallb is_alnum_dash l = true /\
  is_alnum (hd " "%char l) = true /\ is_alnum (last l " "%char) = true.

(** *** Tokens *)

(** A piece of text without white space, not empty; and text without
    the comment marker. *)
Definition token (t : str) : Prop :=
  t <> [] /\ forallb (fun c => negb (is_space c)) t = true.

Definition hash_free (t : str) : Prop :=
  forallb (fun c => negb (chr_is "#" c)) t = true.

(** *** Entries that are written and read back *)

(** An entry that [stringify] writes on one line from which [parse] can
    take it again: a valid address and at least one host name, all of them
    tokens without the comment marker, and no comment. *)
Definition plain_entry (e : HostEntry) : Prop :=
  isValidIP (ip e) = true /\ token (ip e) /\ hash_free (ip e) /\
  hostnames e <> [] /\
  Forall (fun h => token h /\ hash_free h) (hostnames e) /\
  truthy_opt (comment e) = false.

(** What [parse] makes of a plain entry read at counter value [k]: the
    same address, host names and enabled flag, a new id, and neither
    comment nor group. *)
Definition reread (k : nat) (e : HostEntry) : HostEntry :=
  {| id := entry_id_of k; ip := ip e; hostnames := hostnames e;
     enabled := enabled e; comment := None; group := None |}.

Fixpoint reread_from (k : nat) (l : list HostEntry) : list HostEntry :=
  match l with
  | [] => []
  | e :: rest => reread k e :: reread_from (S k) rest
  end.

(** What every entry that [parse] returns satisfies: an address that the
    validator accepts, host names that are tokens and do not begin with
    the comment marker, no group, and a comment that, when present, is
    not empty. *)
Definition parsed_entry (e : HostEntry) : Prop :=
  isValidIP (ip e) = true /\
  Forall (fun h => token h /\ startsWith "#" h = false) (hostnames e) /\
  group e = None /\
  comment e <> Some [].

(** *** The store *)

(** A store whose working list is the saved one, and whose entries have
    distinct ids. *)
Definition in_sync (st : HostsStore) : Prop :=
  originalEntries st = entries st /\ NoDup (map id (entries st)).

(** No entry of the working list counts as unsaved, and the projection
    for the status "unsaved" shows nothing. *)
Definition nothing_flagged (localeCompare : str -> str -> Z)
    (st : HostsStore) : Prop :=
  Forall (fun e => isEntryUnsaved localeCompare st e = false) (entries st)
  /\ filteredEntries (setFilterStatus localeCompare StatusUnsaved st) = [].

(** A comparison whose sign turns with its arguments and that is
    transitive: what [Array.prototype.sort] asks of a comparison function. *)
Definition consistent_collation (compare : str -> str -> Z) : Prop :=
  (forall a b, compare a b <= 0 <-> compare b a >= 0)%Z /\
  (forall a b c, compare a b <= 0 -> compare b c <= 0 -> compare a c <= 0)%Z.

(** The key that [applyFilters] sorts by, and the order it asks for. *)
Definition sort_key (by_ : SortBy) (e : HostEntry) : str :=
  match by_ with
  | SortIp => ip e
  | SortHostname => hd [] (hostnames e)
  | SortGroup => opt_text (group e)
  | SortNone => []
  end.

Definition in_order (compare : str -> str -> Z) (by_ : SortBy)
    (order : SortOrder) (a b : HostEntry) : Prop :=
  match order with
  | Asc => (compare (sort_key by_ a) (sort_key by_ b) <= 0)%Z
  | Desc => (compare (sort_key by_ a) (sort_key by_ b) >= 0)%Z
  end.

(** *** The file manager *)

(** What an action adds to the log: only calls that are [allowed]. *)
Definition footprint {A : Type} (allowed : call -> Prop)
    (m : IO (list call) A) : Prop :=
  forall log, exists new, snd (m log) = log ++ new /\ Forall allowed new.

(** The calls that read the hosts file. *)
Definition reads_hosts (c : call) : Prop :=
  c = ReadFile "/etc/hosts" \/ c = Exec "cat /etc/hosts"
  \/ c = Stat "/etc/hosts".

(** The calls of the backup step: reading the hosts file, and handing a
    non-empty list of entries as the parser returns them to the backup
    manager. *)
Definition backs_up (c : call) : Prop :=
  reads_hosts c
  \/ exists es, c = CreateBackup es /\ es <> [] /\ Forall parsed_entry es.

(** The names of the two temporary files. *)
Definition temp_path (path_join : str -> str -> str) (p : str) : Prop :=
  exists dir n, p = path_join dir ("hosts-" ++ String_of_number n ++ ".tmp").

Definition script_path (path_join : str -> str -> str) (p : str) : Prop :=
  exists dir n,
    p = path_join dir ("hosts-admin-" ++ String_of_number n ++ ".sh").

(** The calls that writing [entries] may make: the dialog, the backup
    step, the clock, the temporary file with the serialized entries, the
    script that copies it onto the hosts file, and the command that runs
    that script with administrator privileges. *)
Definition writes_hosts (path_join : str -> str -> str)
    (entries : list HostEntry) (c : call) : Prop :=
  match c with
  | ReadFile p | Stat p => p = "/etc/hosts"
  | Exec command =>
      command = "cat /etc/hosts"
      \/ exists sp, script_path path_join sp /\ command = osascript_command sp
  | WriteFile p content =>
      (temp_path path_join p /\ exists now, content = stringify now entries)
      \/ (script_path path_join p
          /\ exists t, temp_path path_join t
                       /\ content = script_text (copy_command t))
  | Chmod p => script_path path_join p
  | Unlink p => temp_path path_join p \/ script_path path_join p
  | CreateBackup es => es <> []
  | ShowMessageBox | DateNow | NewDate => True
  | GetAllWindows | ShowToast _ _ _ => False
  end.

(** The three messages of [execWithAdmin]. *)
Definition canceled_message : str :=
  "Permission denied: User canceled the password prompt".

Definition authentication_message : str :=
  "Authentication failed: Please check your password and try again".

(** An environment in which every call succeeds: the hosts file holds one
    line, the dialog is answered with the button [response], the clock
    shows the length of the log. *)
Definition calm (response : nat) : Environment nat :=
  {| fs_readFile := fun _ _ => Returned ("127.0.0.1 localhost" : str);
     execAsync := fun _ _ => Returned ([], []);
     fs_stat := fun _ _ => Returned 0;
     fs_writeFile := fun _ _ _ => Returned tt;
     fs_chmod := fun _ _ => Returned tt;
     fs_unlink := fun _ _ => Returned tt;
     dialog_showMessageBox := fun _ => Returned response;
     BackupManager_createBackup := fun _ _ => Returned tt;
     Date_now := fun log => length log;
     Date_toISOString := fun _ => ("2024-01-01T00:00:00.000Z" : str);
     os_tmpdir := fun _ => ("/tmp" : str);
     getAllWindows_length := fun _ => 1 |}.

Definition posix_join (dir name : str) : str := dir ++ "/" ++ name.

(** * Properties *)

(** ** Strings *)

Lemma str_eqb_eq (a b : str) : str_eqb a b = true <-> a = b.
Proof.
  unfold str_eqb. destruct (list_eq_dec ascii_dec a b); split; congruence.
Qed.

Lemma str_eqb_refl (a : str) : str_eqb a a = true.
Proof. now apply str_eqb_eq. Qed.

Lemma str_eqb_neq (a b : str) : str_eqb a b = false <-> a <> b.
Proof.
  unfold str_eqb. destruct (list_eq_dec ascii_dec a b); split; congruence.
Qed.

Lemma not_In_by_eqb (x : ascii) (s : str) :
  forallb (fun c => negb (Ascii.eqb x c)) s = true -> ~ In x s.
Proof.
  intros H Hin. rewrite forallb_forall in H. apply H in Hin.
  rewrite Ascii.eqb_refl in Hin. discriminate.
Qed.

(** ** The testable examples of the specification that are plain runs *)

Example isValidIP_examples :
  isValidIP "127.0.0.1" = true /\ isValidIP "256.0.0.1" = false /\
  isValidIP "::1" = true /\ isValidIP "2001:db8::1" = true /\
  isValidIP "not-an-ip" = false.
Proof. repeat split. Qed.

Example parse_lenient_drop : parse ("not valid line" ++ [LF]) = [].
Proof. reflexivity. Qed.

Example isValidHostname_examples :
  isValidHostname "my-host.example.com" = true /\
  isValidHostname "bad_name" = false /\
  isValidHostname "-lead.example" = false.
Proof. repeat split. Qed.

Example sort_by_ip :
  map ip
    (filteredEntries
       (setSortBy codeunit_compare SortIp
          (sampleStore [sampleEntry "a" "3.3.3.3" ["c" : str];
                        sampleEntry "b" "1.1.1.1" ["a" : str];
                        sampleEntry "c" "2.2.2.2" ["b" : str]] [])))
  = ["1.1.1.1" : str; "2.2.2.2" : str; "3.3.3.3" : str].
Proof. reflexivity. Qed.

(** ** Regular expressions: the derivative matcher decides the language *)

Lemma Matches_Chr_inv (p : ascii -> bool) (s : str) :
  Matches (Chr p) s <-> exists c, s = [c] /\ p c = true.
Proof.
  split.
  - intros H. inversion H; subst. eauto.
  - intros (c & -> & Hp). now constructor.
Qed.

Lemma Matches_Cat_inv (r1 r2 : regex) (s : str) :
  Matches (Cat r1 r2) s <->
  exists s1 s2, s = s1 ++ s2 /\ Matches r1 s1 /\ Matches r2 s2.
Proof.
  split.
  - intros H. inversion H; subst. eauto.
  - intros (s1 & s2 & -> & H1 & H2). now constructor.
Qed.

Lemma Matches_Alt_inv (r1 r2 : regex) (s : str) :
  Matches (Alt r1 r2) s <-> Matches r1 s \/ Matches r2 s.
Proof.
  split.
  - intros H. inversion H; subst; tauto.
  - intros [H | H]; [apply MAltL | apply MAltR]; assumption.
Qed.

Lemma Matches_Eps_inv (s : str) : Matches Eps s <-> s = [].
Proof.
  split.
  - intros H. now inversion H.
  - intros ->. constructor.
Qed.

Lemma Matches_Void_inv (s : str) : ~ Matches Void s.
Proof. intros H. inversion H. Qed.

Lemma Matches_Star_inv (r : regex) (s : str) :
  Matches (Star r) s ->
  s = [] \/ exists s1 s2, s = s1 ++ s2 /\ Matches r s1 /\ Matches (Star r) s2.
Proof. intros H. inversion H; subst; eauto 6. Qed.

Lemma nullable_Matches (r : regex) : nullable r = true <-> Matches r [].
Proof.
  induction r as [| | p | r1 IH1 r2 IH2 | r1 IH1 r2 IH2 | r1 IH1]; simpl.
  - split; [discriminate | intros H; now apply Matches_Void_inv in H].
  - split; [constructor | reflexivity].
  - split; [discriminate |].
    intros H. apply Matches_Chr_inv in H as (c & H & _). discriminate.
  - rewrite andb_true_iff, Matches_Cat_inv, IH1, IH2. split.
    + intros [H1 H2]. exists [], []. auto.
    + intros (s1 & s2 & Heq & H1 & H2). symmetry in Heq.
      apply app_eq_nil in Heq as [-> ->]. auto.
  - now rewrite orb_true_iff, Matches_Alt_inv, IH1, IH2.
  - split; [constructor | reflexivity].
Qed.

Lemma Matches_deriv (r : regex) (cs : str) :
  Matches r cs -> forall c s, cs = c :: s -> Matches (deriv c r) s.
Proof.
  induction 1 as [| p c0 Hp | r1 r2 s1 s2 H1 IH1 H2 IH2 | r1 r2 s0 H0 IH
                 | r1 r2 s0 H0 IH | r0 | r0 s1 s2 H1 IH1 H2 IH2];
    intros c s Heq; simpl.
  - discriminate.
  - injection Heq as -> <-. rewrite Hp. constructor.
  - destruct s1 as [| c1 s1'].
    + simpl in Heq. apply nullable_Matches in H1. rewrite H1.
      apply MAltR. now apply IH2.
    + simpl in Heq. injection Heq as -> <-.
      destruct (nullable r1);
        [apply MAltL |]; constructor; auto.
  - apply MAltL. now apply IH.
  - apply MAltR. now apply IH.
  - discriminate.
  - destruct s1 as [| c1 s1'].
    + simpl in Heq. now apply IH2.
    + simpl in Heq. injection Heq as -> <-. constructor; auto.
Qed.

Lemma deriv_Matches (r : regex) :
  forall c s, Matches (deriv c r) s -> Matches r (c :: s).
Proof.
  induction r as [| | p | r1 IH1 r2 IH2 | r1 IH1 r2 IH2 | r1 IH1];
    simpl; intros c s H.
  - now apply Matches_Void_inv in H.
  - now apply Matches_Void_inv in H.
  - destruct (p c) eqn:Hp.
    + apply Matches_Eps_inv in H as ->. now constructor.
    + now apply Matches_Void_inv in H.
  - assert (Hcat : forall t, Matches (Cat (deriv c r1) r2) t ->
                             Matches (Cat r1 r2) (c :: t)).
    { intros t Ht. apply Matches_Cat_inv in Ht as (s1 & s2 & -> & Ha & Hb).
      change (c :: s1 ++ s2) with ((c :: s1) ++ s2). constructor; auto. }
    destruct (nullable r1) eqn:Hn; [| now apply Hcat].
    apply Matches_Alt_inv in H as [H | H]; [now apply Hcat |].
    change (c :: s) with ([] ++ c :: s). constructor; auto.
    now apply nullable_Matches.
  - apply Matches_Alt_inv in H as [H | H];
      [apply MAltL | apply MAltR]; auto.
  - apply Matches_Cat_inv in H as (s1 & s2 & -> & Ha & Hb).
    change (c :: s1 ++ s2) with ((c :: s1) ++ s2). constructor; auto.
Qed.

Theorem regex_test_Matches (r : regex) (s : str) :
  regex_test r s = true <-> Matches r s.
Proof.
  revert r. induction s as [| c s IH]; intros r; simpl.
  - apply nullable_Matches.
  - rewrite IH. split.
    + apply deriv_Matches.
    + intros H. now apply Matches_deriv with (cs := c :: s).
Qed.

(** The derived forms. *)

Lemma Matches_Lit (l s : str) : Matches (Lit l) s <-> s = l.
Proof.
  revert s. induction l as [| c l IH]; intros s; simpl.
  - apply Matches_Eps_inv.
  - rewrite Matches_Cat_inv. split.
    + intros (s1 & s2 & -> & H1 & H2).
      apply Matches_Chr_inv in H1 as (c' & -> & Hc).
      apply IH in H2 as ->. unfold chr_is in Hc.
      apply Ascii.eqb_eq in Hc as ->. reflexivity.
    + intros ->. exists [c], l. repeat split.
      * constructor. apply Ascii.eqb_refl.
      * now apply IH.
Qed.

(** [p{n}] and [p{0,n}] and [p{lo,hi}] for a class [p] of code units. *)
Lemma Matches_Times_Chr (p : ascii -> bool) (n : nat) (s : str) :
  Matches (Times n (Chr p)) s <-> length s = n /\ forallb p s = true.
Proof.
  revert s. induction n as [| n IH]; intros s; simpl.
  - rewrite Matches_Eps_inv. split.
    + intros ->. auto.
    + intros [H _]. now apply length_zero_iff_nil.
  - rewrite Matches_Cat_inv. split.
    + intros (s1 & s2 & -> & H1 & H2).
      apply Matches_Chr_inv in H1 as (c & -> & Hc).
      apply IH in H2 as [<- H2]. simpl. now rewrite Hc.
    + intros [Hl Hs]. destruct s as [| c s]; [discriminate |].
      simpl in *. apply andb_true_iff in Hs as [Hc Hs].
      exists [c], s. repeat split.
      * now constructor.
      * apply IH. split; [lia | assumption].
Qed.

Lemma Matches_UpTo_Chr (p : ascii -> bool) (n : nat) (s : str) :
  Matches (UpTo n (Chr p)) s <-> length s <= n /\ forallb p s = true.
Proof.
  revert s. induction n as [| n IH]; intros s; simpl.
  - rewrite Matches_Eps_inv. split.
    + intros ->. auto.
    + intros [H _]. apply length_zero_iff_nil. lia.
  - unfold Opt. rewrite Matches_Alt_inv, Matches_Cat_inv, Matches_Eps_inv.
    split.
    + intros [(s1 & s2 & -> & H1 & H2) | ->]; [| simpl; split; [lia | auto]].
      apply Matches_Chr_inv in H1 as (c & -> & Hc).
      apply IH in H2 as [Hl H2]. simpl. rewrite Hc. split; [lia | auto].
    + intros [Hl Hs]. destruct s as [| c s]; [now right | left].
      simpl in *. apply andb_true_iff in Hs as [Hc Hs].
      exists [c], s. repeat split.
      * now constructor.
      * apply IH. split; [lia | assumption].
Qed.

Lemma forallb_app_iff {A : Type} (p : A -> bool) (a b : list A) :
  forallb p (a ++ b) = true <-> forallb p a = true /\ forallb p b = true.
Proof. rewrite forallb_app. apply andb_true_iff. Qed.

Lemma Matches_Range_Chr (p : ascii -> bool) (lo hi : nat) (s : str) :
  lo <= hi ->
  Matches (Range lo hi (Chr p)) s <->
  lo <= length s <= hi /\ forallb p s = true.
Proof.
  intros Hle. unfold Range. rewrite Matches_Cat_inv. split.
  - intros (s1 & s2 & -> & H1 & H2).
    apply Matches_Times_Chr in H1 as [H1 H1'].
    apply Matches_UpTo_Chr in H2 as [H2 H2'].
    rewrite length_app, forallb_app_iff. repeat split; auto; lia.
  - intros [Hl Hs].
    exists (firstn lo s), (skipn lo s).
    rewrite <- (firstn_skipn lo s) in Hs.
    apply forallb_app_iff in Hs as [Ha Hb].
    repeat split.
    + symmetry. apply firstn_skipn.
    + apply Matches_Times_Chr. split; auto. apply firstn_length_le. lia.
    + apply Matches_UpTo_Chr. split; auto. rewrite length_skipn. lia.
Qed.

(** ** Splitting and joining *)

Lemma startsWith_hd (a : ascii) (p s : str) :
  startsWith (a :: p) s = true -> exists s', s = a :: s'.
Proof.
  destruct s as [| b s]; simpl; [discriminate |].
  intros H. apply andb_true_iff in H as [H _].
  apply Ascii.eqb_eq in H as ->. eauto.
Qed.

Lemma includes_In (a : ascii) (p s : str) :
  includes (a :: p) s = true -> In a s.
Proof.
  induction s as [| c s IH].
  - simpl. discriminate.
  - intros H. change (includes (a :: p) (c :: s))
      with (startsWith (a :: p) (c :: s) || includes (a :: p) s) in H.
    apply orb_true_iff in H as [H | H].
    + apply startsWith_hd in H as (s' & H). injection H as -> _. now left.
    + right. auto.
Qed.

Lemma includes_cons (p : str) (c : ascii) (s : str) :
  includes p (c :: s) = startsWith p (c :: s) || includes p s.
Proof. reflexivity. Qed.

(** Without an occurrence of the separator there is one piece. *)
Lemma split_go_without (sep : str) (s cur : str) :
  includes sep s = false -> split_go sep 0 cur s = [rev cur ++ s].
Proof.
  revert cur. induction s as [| c s IH]; intros cur H.
  - simpl. now rewrite app_nil_r.
  - rewrite includes_cons in H. apply orb_false_iff in H as [H1 H2].
    cbn [split_go]. rewrite H1, IH by assumption.
    simpl. now rewrite <- app_assoc.
Qed.

Lemma split_without (sep s : str) :
  includes sep s = false -> split sep s = [s].
Proof. intros H. unfold split. now rewrite split_go_without. Qed.

Lemma split_two_includes (sep s l r : str) :
  split sep s = [l; r] -> includes sep s = true.
Proof.
  intros H. destruct (includes sep s) eqn:E; [reflexivity |].
  rewrite split_without in H by assumption. discriminate.
Qed.

(** A separator of one code unit. *)
Lemma split_go_unit_last (c : ascii) (g cur : str) :
  ~ In c g -> split_go [c] 0 cur g = [rev cur ++ g].
Proof.
  revert cur. induction g as [| x g IH]; intros cur Hn.
  - simpl. now rewrite app_nil_r.
  - cbn [split_go startsWith].
    destruct (Ascii.eqb c x) eqn:E.
    + apply Ascii.eqb_eq in E. subst. exfalso. apply Hn. now left.
    + cbn [andb]. rewrite IH.
      * simpl. now rewrite <- app_assoc.
      * intros Hin. apply Hn. now right.
Qed.

Lemma split_go_unit_sep (c : ascii) (g cur rest : str) :
  ~ In c g ->
  split_go [c] 0 cur (g ++ c :: rest)
  = (rev cur ++ g) :: split_go [c] 0 [] rest.
Proof.
  revert cur. induction g as [| x g IH]; intros cur Hn.
  - cbn [app split_go startsWith]. rewrite Ascii.eqb_refl. cbn [andb].
    now rewrite app_nil_r.
  - cbn [app split_go startsWith].
    destruct (Ascii.eqb c x) eqn:E.
    + apply Ascii.eqb_eq in E. subst. exfalso. apply Hn. now left.
    + cbn [andb]. rewrite IH.
      * simpl. now rewrite <- app_assoc.
      * intros Hin. apply Hn. now right.
Qed.

Lemma join_cons (sep x : str) (y : str) (rest : list str) :
  join sep (x :: y :: rest) = x ++ sep ++ join sep (y :: rest).
Proof. reflexivity. Qed.

Lemma split_join_unit (c : ascii) (groups : list str) :
  groups <> [] ->
  Forall (fun g => ~ In c g) groups ->
  split [c] (join [c] groups) = groups.
Proof.
  intros Hne Hall. unfold split.
  induction groups as [| g rest IH]; [congruence |].
  destruct rest as [| g' rest].
  - simpl. rewrite split_go_unit_last; [reflexivity |].
    now inversion Hall.
  - rewrite join_cons. cbn [app].
    inversion Hall as [| ? ? Hg Hrest]; subst.
    rewrite split_go_unit_sep by assumption.
    rewrite IH by (congruence || assumption). reflexivity.
Qed.

Lemma In_join (x : ascii) (sep : str) (groups : list str) :
  In x (join sep groups) -> In x sep \/ exists g, In g groups /\ In x g.
Proof.
  induction groups as [| g rest IH]; [intros [] |].
  destruct rest as [| g' rest].
  - simpl. intros H. right. exists g. auto.
  - rewrite join_cons. intros H.
    apply in_app_or in H as [H | H]; [right; exists g; simpl; auto |].
    apply in_app_or in H as [H | H]; [now left |].
    apply IH in H as [H | (h & Hh & Hx)]; [now left |].
    right. exists h. split; [now right | assumption].
Qed.

Lemma join_two_has_sep (c : ascii) (g g' : str) (rest : list str) :
  In c (join [c] (g :: g' :: rest)).
Proof.
  rewrite join_cons. apply in_or_app. right. now left.
Qed.

(** ** The two patterns of [isValidIP] *)

Lemma Matches_group_sep (p : ascii -> bool) (lo hi : nat) (c : ascii)
    (s : str) :
  lo <= hi ->
  Matches (Cat (Range lo hi (Chr p)) (Chr (chr_is c))) s <->
  exists g, (lo <= length g <= hi /\ forallb p g = true) /\ s = g ++ [c].
Proof.
  intros Hle. rewrite Matches_Cat_inv. split.
  - intros (s1 & s2 & -> & H1 & H2).
    apply Matches_Range_Chr in H1; [| assumption].
    apply Matches_Chr_inv in H2 as (c' & -> & Hc).
    apply Ascii.eqb_eq in Hc as <-. eauto.
  - intros (g & Hg & ->). exists g, [c]. repeat split.
    + now apply Matches_Range_Chr.
    + constructor. apply Ascii.eqb_refl.
Qed.

Lemma join_snoc (c : ascii) (groups : list str) (g : str) :
  flat_map (fun x => x ++ [c]) groups ++ g = join [c] (groups ++ [g]).
Proof.
  induction groups as [| x rest IH]; [reflexivity |].
  cbn [flat_map app]. rewrite <- app_assoc, IH.
  destruct rest; cbn [app]; rewrite join_cons, <- app_assoc; reflexivity.
Qed.

Lemma Matches_groups_sep (p : ascii -> bool) (lo hi : nat) (c : ascii)
    (n : nat) (s : str) :
  lo <= hi ->
  Matches (Times n (Cat (Range lo hi (Chr p)) (Chr (chr_is c)))) s <->
  exists groups : list str,
    length groups = n /\
    Forall (fun g => lo <= length g <= hi /\ forallb p g = true) groups /\
    s = flat_map (fun x => x ++ [c]) groups.
Proof.
  intros Hle. revert s. induction n as [| n IH]; intros s.
  - cbn [Times]. rewrite Matches_Eps_inv. split.
    + intros ->. exists []. auto.
    + intros (groups & Hl & _ & ->).
      apply length_zero_iff_nil in Hl. now subst.
  - cbn [Times]. rewrite Matches_Cat_inv. split.
    + intros (s1 & s2 & -> & H1 & H2).
      apply Matches_group_sep in H1 as (g & Hg & ->); [| assumption].
      apply IH in H2 as (groups & Hl & Hall & ->).
      exists (g :: groups). simpl. repeat split; auto.
    + intros (groups & Hl & Hall & ->).
      destruct groups as [| g groups]; [discriminate |].
      inversion Hall; subst.
      exists (g ++ [c]), (flat_map (fun x => x ++ [c]) groups).
      repeat split.
      * apply Matches_group_sep; eauto.
      * apply IH. exists groups. simpl in Hl. repeat split; auto.
Qed.

Lemma Matches_groups_form (p : ascii -> bool) (lo hi : nat) (c : ascii)
    (n : nat) (s : str) :
  lo <= hi ->
  Matches (Cat (Times n (Cat (Range lo hi (Chr p)) (Chr (chr_is c))))
               (Range lo hi (Chr p))) s <->
  groups_form p lo hi c (S n) s.
Proof.
  intros Hle. rewrite Matches_Cat_inv. unfold groups_form. split.
  - intros (s1 & s2 & -> & H1 & H2).
    apply Matches_groups_sep in H1 as (groups & Hl & Hall & ->);
      [| assumption].
    apply Matches_Range_Chr in H2; [| assumption].
    exists (groups ++ [s2]). rewrite length_app, join_snoc. simpl.
    split; [lia | split; [| reflexivity]].
    apply Forall_app. auto.
  - intros (groups & Hl & Hall & ->).
    destruct (exists_last (l := groups)) as (front & g & ->).
    { intros ->. discriminate. }
    rewrite length_app in Hl. simpl in Hl.
    apply Forall_app in Hall as [Hfront Hg]. inversion Hg; subst.
    exists (flat_map (fun x => x ++ [c]) front), g. repeat split.
    + symmetry. apply join_snoc.
    + apply Matches_groups_sep; [assumption |].
      exists front. repeat split; [lia | assumption].
    + now apply Matches_Range_Chr.
Qed.

Lemma ipv4Regex_spec (s : str) :
  regex_test ipv4Regex s = true <-> groups_form is_digit 1 3 "." 4 s.
Proof.
  rewrite regex_test_Matches. unfold ipv4Regex.
  apply Matches_groups_form. lia.
Qed.

Lemma ipv6Regex_spec (s : str) :
  regex_test ipv6Regex s = true <->
  groups_form is_hex 1 4 ":" 8 s \/ s = "::1" \/ s = "::".
Proof.
  rewrite regex_test_Matches. unfold ipv6Regex.
  rewrite !Matches_Alt_inv, !Matches_Lit, Matches_groups_form by lia.
  reflexivity.
Qed.

(** ** [isValidIP] *)

Lemma digits_without (x : ascii) (g : str) :
  is_digit x = false -> forallb is_digit g = true -> ~ In x g.
Proof.
  intros Hx Hg Hin. rewrite forallb_forall in Hg.
  apply Hg in Hin. congruence.
Qed.

Lemma digit_val_range (c : ascii) :
  is_digit c = true -> (0 <= digit_val c <= 9)%Z.
Proof.
  unfold is_digit, digit_val. cbv zeta. intros H.
  apply andb_true_iff in H as [H1 H2].
  apply N.leb_le in H1. apply N.leb_le in H2. lia.
Qed.

Lemma decimal_value_fold_nonneg (g : str) (acc : Z) :
  forallb is_digit g = true -> (0 <= acc)%Z ->
  (0 <= fold_left (fun a c => 10 * a + digit_val c) g acc)%Z.
Proof.
  revert acc. induction g as [| c g IH]; intros acc Hg Hacc;
    cbn [fold_left].
  - assumption.
  - cbn [forallb] in Hg. apply andb_true_iff in Hg as [Hc Hg].
    apply IH; [assumption |]. apply digit_val_range in Hc. lia.
Qed.

Lemma decimal_value_nonneg (g : str) :
  forallb is_digit g = true -> (0 <= decimal_value g)%Z.
Proof. intros H. apply decimal_value_fold_nonneg; [assumption | lia]. Qed.

Lemma in_byte_range_Number (g : str) :
  forallb is_digit g = true ->
  in_byte_range (Number g) = (decimal_value g <=? 255)%Z.
Proof.
  intros H. unfold Number. rewrite H. simpl.
  apply decimal_value_nonneg in H.
  apply Z.leb_le in H. now rewrite H.
Qed.

Lemma ipv4Regex_without_colon (s : str) :
  regex_test ipv4Regex s = true -> ~ In ":"%char s.
Proof.
  intros H Hin. apply ipv4Regex_spec in H as (groups & _ & Hall & ->).
  apply In_join in Hin as [Hin | (g & Hg & Hin)].
  - destruct Hin as [Hin | []]. discriminate.
  - rewrite Forall_forall in Hall. apply Hall in Hg as [_ Hg].
    revert Hin. now apply digits_without.
Qed.

Lemma ipv6Regex_has_colon (s : str) :
  regex_test ipv6Regex s = true -> In ":"%char s.
Proof.
  intros H. apply ipv6Regex_spec in H as [(groups & Hl & _ & ->) | [-> | ->]].
  - destruct groups as [| g [| g' rest]]; try discriminate.
    apply join_two_has_sep.
  - now left.
  - now left.
Qed.

(** The branch of the dotted-decimal pattern. *)
Lemma isValidIP_dotted (groups : list str) :
  length groups = 4 ->
  Forall decimal_group groups ->
  isValidIP (join "." groups)
  = forallb (fun g => (decimal_value g <=? 255)%Z) groups.
Proof.
  intros Hl Hall. unfold isValidIP.
  assert (Hre : regex_test ipv4Regex (join "." groups) = true).
  { apply ipv4Regex_spec. exists groups. auto. }
  rewrite Hre. change (list_ascii_of_string ".") with ["."%char].
  rewrite split_join_unit.
  - clear Hl Hre. induction Hall as [| g rest [_ Hg] _ IH]; [reflexivity |].
    cbn [map forallb]. now rewrite IH, in_byte_range_Number.
  - intros ->. discriminate.
  - eapply Forall_impl; [| exact Hall].
    intros g [_ Hg]. now apply digits_without.
Qed.

(** Without a colon only the dotted-decimal branch can accept. *)
Lemma isValidIP_without_colon (s : str) :
  ~ In ":"%char s ->
  isValidIP s = true ->
  exists groups : list str,
    length groups = 4 /\ Forall decimal_group groups /\
    Forall byte_valued groups /\ s = join "." groups.
Proof.
  intros Hn H.
  destruct (regex_test ipv4Regex s) eqn:E4.
  - apply ipv4Regex_spec in E4 as (groups & Hl & Hall & ->).
    rewrite isValidIP_dotted in H by assumption.
    exists groups. repeat split; auto.
    rewrite forallb_forall in H. apply Forall_forall. intros g Hg.
    rewrite Forall_forall in Hall. destruct (Hall g Hg) as [_ Hd].
    split; [now apply decimal_value_nonneg |].
    apply Z.leb_le. now apply H.
  - unfold isValidIP in H. rewrite E4 in H.
    destruct (regex_test ipv6Regex s) eqn:E6.
    + apply ipv6Regex_has_colon in E6. contradiction.
    + destruct (includes "::" s) eqn:Ei; [| discriminate].
      apply includes_In in Ei. contradiction.
Qed.

(** With a colon the dotted-decimal branch is out, and the two others
    decide. *)
Lemma isValidIP_with_colon (s : str) :
  In ":"%char s ->
  isValidIP s = true <->
  groups_form is_hex 1 4 ":" 8 s \/ s = "::1" \/ s = "::" \/
  compressed_lenient_form s.
Proof.
  intros Hin. unfold isValidIP.
  destruct (regex_test ipv4Regex s) eqn:E4.
  { apply ipv4Regex_without_colon in E4. contradiction. }
  destruct (regex_test ipv6Regex s) eqn:E6.
  { apply ipv6Regex_spec in E6. tauto. }
  assert (N6 : ~ (groups_form is_hex 1 4 ":" 8 s \/ s = "::1" \/ s = "::")).
  { intros H. apply ipv6Regex_spec in H. congruence. }
  unfold compressed_lenient_form, segments. split.
  - intros H. do 3 right.
    destruct (includes "::" s); [| discriminate].
    destruct (split "::" s) as [| l [| r [| x rest]]]; try discriminate.
    exists l, r. split; [reflexivity |]. now apply Nat.leb_le.
  - intros [H | [H | [H | (l & r & Hs & Hc)]]]; try tauto.
    rewrite (split_two_includes _ _ _ _ Hs), Hs. now apply Nat.leb_le.
Qed.

Lemma join_starts (sep g : str) (rest : list str) :
  exists t, join sep (g :: rest) = g ++ t.
Proof.
  destruct rest as [| g' rest].
  - exists []. simpl. now rewrite app_nil_r.
  - rewrite join_cons. eauto.
Qed.

(** The marker [::] and strings built from groups without colon. *)

Lemma includes_skip (p : str) (x : ascii) (g X : str) :
  ~ In x g -> includes (x :: p) (g ++ X) = includes (x :: p) X.
Proof.
  intros Hn. induction g as [| c g IH]; [reflexivity |].
  cbn [app]. rewrite includes_cons. cbn [startsWith].
  destruct (Ascii.eqb x c) eqn:E.
  - apply Ascii.eqb_eq in E. subst. exfalso. apply Hn. now left.
  - cbn [andb orb]. apply IH. intros H. apply Hn. now right.
Qed.

Lemma includes_app_l (p a b : str) :
  includes p (a ++ b) = false -> includes p a = false.
Proof.
  assert (Hs : forall q x y, startsWith q x = true ->
                             startsWith q (x ++ y) = true).
  { induction q as [| c q IHq]; intros x y H; [reflexivity |].
    destruct x as [| d x]; [discriminate |]. cbn [app startsWith] in *.
    apply andb_true_iff in H as [H1 H2]. rewrite H1. cbn [andb]. auto. }
  induction a as [| c a IH]; intros H.
  - destruct p as [| d p]; [| reflexivity].
    destruct b; cbn in H; discriminate.
  - cbn [app] in H. rewrite includes_cons in *.
    apply orb_false_iff in H as [H1 H2]. apply orb_false_iff. split; auto.
    destruct (startsWith p (c :: a)) eqn:E; [| reflexivity].
    apply (Hs _ _ b) in E. cbn [app] in E. congruence.
Qed.

Lemma hex_without_colon (g : str) :
  forallb is_hex g = true -> ~ In ":"%char g.
Proof.
  intros Hg Hin. rewrite forallb_forall in Hg. apply Hg in Hin. discriminate.
Qed.

Lemma join_hex_marker_free (L : list str) :
  Forall hex_group L -> includes "::" (join ":" L ++ ":") = false.
Proof.
  induction 1 as [| g rest [Hlen Hg] Hrest IH]; [reflexivity |].
  destruct rest as [| g' rest].
  - cbn [join]. change (list_ascii_of_string "::") with (":"%char :: ":").
    rewrite includes_skip by now apply hex_without_colon. reflexivity.
  - rewrite join_cons, <- !app_assoc.
    change (list_ascii_of_string "::") with (":"%char :: ":") in *.
    rewrite includes_skip by now apply hex_without_colon.
    change (list_ascii_of_string ":") with [":"%char].
    cbn [app]. rewrite includes_cons. apply orb_false_iff. split.
    + destruct (join_starts [":"%char] g' rest) as (t & ->).
      inversion Hrest as [| ? ? [Hl' Hg'] _]; subst.
      destruct g' as [| c g']; [simpl in Hl'; lia |].
      cbn [app startsWith]. rewrite Ascii.eqb_refl. cbn [andb].
      cbn [forallb] in Hg'. apply andb_true_iff in Hg' as [Hc _].
      destruct (Ascii.eqb ":" c) eqn:E; [| reflexivity].
      apply Ascii.eqb_eq in E. subst. discriminate.
    + exact IH.
Qed.

Lemma split_marker (l r : str) :
  includes "::" (l ++ ":") = false ->
  includes "::" r = false ->
  split "::" (l ++ "::" ++ r) = [l; r].
Proof.
  intros Hl Hr. unfold split.
  assert (G : forall cur,
    split_go "::" 0 cur (l ++ "::" ++ r) = [rev cur ++ l; r]).
  { induction l as [| c l IH]; intros cur.
    - cbn. rewrite app_nil_r. f_equal.
      now rewrite split_go_without.
    - cbn [app] in *. rewrite includes_cons in Hl.
      apply orb_false_iff in Hl as [H1 H2].
      cbn [split_go].
      replace (startsWith "::" (c :: l ++ "::" ++ r)) with false.
      + rewrite IH by assumption. simpl. now rewrite <- app_assoc.
      + symmetry. cbn [list_ascii_of_string startsWith] in *.
        destruct (Ascii.eqb ":" c); [| reflexivity]. cbn [andb] in *.
        destruct l as [| d l]; cbn [app] in *.
        * rewrite Ascii.eqb_refl in H1. discriminate.
        * destruct (Ascii.eqb ":" d); [discriminate | reflexivity]. }
  apply (G []).
Qed.

Lemma segments_join_hex (L : list str) :
  Forall hex_group L -> segments (join ":" L) = L.
Proof.
  intros Hall. unfold segments. destruct L as [| g rest]; [reflexivity |].
  change (list_ascii_of_string ":") with [":"%char].
  rewrite split_join_unit.
  - apply forallb_filter_id. apply forallb_forall. intros x Hx.
    rewrite Forall_forall in Hall. destruct (Hall x Hx) as [Hl _].
    destruct x; [simpl in Hl; lia | reflexivity].
  - discriminate.
  - eapply Forall_impl; [| exact Hall].
    intros x [_ Hx]. now apply hex_without_colon.
Qed.

Lemma compressed_hex_is_lenient (s : str) :
  compressed_hex_form s -> compressed_lenient_form s.
Proof.
  intros (L & R & HL & HR & Hlen & ->).
  exists (join ":" L), (join ":" R). split.
  - apply split_marker.
    + now apply join_hex_marker_free.
    + eapply includes_app_l. now apply join_hex_marker_free.
  - now rewrite !segments_join_hex.
Qed.

Lemma hex_groups_start (s : str) (g : str) (t : str) (c : ascii) :
  hex_group g -> g ++ t = c :: s -> is_hex c = true.
Proof.
  intros [Hl Hg] Heq. destruct g as [| d g]; [simpl in Hl; lia |].
  cbn [app] in Heq. injection Heq as -> _.
  cbn [forallb] in Hg. now apply andb_true_iff in Hg as [Hc _].
Qed.

(** C4, as stated, fails: "0000.0.0.0" is four dot-separated decimal
    groups, each of value 0, and is refused, because the pattern admits
    at most three digits in a group. *)
Lemma isValidIP_rejects_long_group :
  dotted_decimal_as_claimed "0000.0.0.0" /\ isValidIP "0000.0.0.0" = false.
Proof.
  split; [| reflexivity].
  exists ["0000" : str; "0" : str; "0" : str; "0" : str].
  split; [reflexivity | split; [| split; [| reflexivity]]].
  - repeat constructor; discriminate.
  - repeat constructor; cbn; lia.
Qed.

(** C4, amended.  A string without colon is accepted exactly when it
    consists of four groups of one to three decimal digits, each of a
    value from 0 to 255, separated by single dots, and of nothing else:
    no content before or after, no further group.  So "127.0.0.1" is
    accepted and "256.0.0.1" is not. *)
Theorem isValidIP_dotted_decimal :
  (forall s : str,
      ~ In ":"%char s ->
      isValidIP s = true <->
      exists groups : list str,
        length groups = 4 /\ Forall decimal_group groups /\
        Forall byte_valued groups /\ s = join "." groups)
  /\ isValidIP "127.0.0.1" = true
  /\ isValidIP "256.0.0.1" = false.
Proof.
  split; [| split; reflexivity].
  intros s Hs. split.
  - now apply isValidIP_without_colon.
  - intros (groups & Hl & Hall & Hb & ->).
    rewrite isValidIP_dotted by assumption.
    apply forallb_forall. intros g Hg. apply Z.leb_le.
    rewrite Forall_forall in Hb. now apply Hb.
Qed.

Lemma isValidIP_dotted_decimal_witness :
  isValidIP "192.168.1.300" = true <->
  exists groups : list str,
    length groups = 4 /\ Forall decimal_group groups /\
    Forall byte_valued groups /\ ("192.168.1.300" : str) = join "." groups.
Proof.
  apply (proj1 isValidIP_dotted_decimal "192.168.1.300").
  now apply not_In_by_eqb.
Defined.

(** C5, as the specification words it, fails: a compressed form is
    accepted whose pieces are not hexadecimal groups. *)
Lemma isValidIP_accepts_unspecified_shape :
  In ":"%char ("xyz::abc" : str) /\
  isValidIP "xyz::abc" = true /\
  ~ ipv6_specified_shape "xyz::abc".
Proof.
  split; [cbn; tauto | split; [reflexivity |]].
  assert (Hx : is_hex "x" = false) by reflexivity.
  intros [(groups & Hl & Hall & Heq) | [Heq | [Heq | Hc]]];
    try discriminate.
  - destruct groups as [| g rest]; [discriminate |].
    destruct (join_starts [":"%char] g rest) as (t & Ht).
    change (list_ascii_of_string ":") with [":"%char] in Heq.
    rewrite Ht in Heq. inversion Hall as [| ? ? Hg _]; subst.
    symmetry in Heq.
    apply (hex_groups_start "yz::abc" _ _ _ Hg) in Heq. congruence.
  - destruct Hc as (L & R & HL & _ & _ & Heq).
    destruct L as [| g rest]; [discriminate |].
    destruct (join_starts ":" g rest) as (t & Ht).
    rewrite Ht, <- app_assoc in Heq. inversion HL as [| ? ? Hg _]; subst.
    symmetry in Heq.
    apply (hex_groups_start "yz::abc" _ _ _ Hg) in Heq. congruence.
Qed.

(** C5, amended.  A literal with a colon is accepted exactly when it is
    eight groups of one to four hexadecimal digits separated by colons, or
    "::1" or "::", or a string that [split("::")] cuts into exactly two
    pieces whose non-empty colon-separated segments, of whatever
    characters, are at most eight in all; the compressed forms with
    hexadecimal groups are among the latter. *)
Theorem isValidIP_colon_literal :
  (forall s : str,
      In ":"%char s ->
      isValidIP s = true <->
      groups_form is_hex 1 4 ":" 8 s \/ s = "::1" \/ s = "::" \/
      compressed_lenient_form s)
  /\ (forall s : str, compressed_hex_form s -> compressed_lenient_form s).
Proof.
  split.
  - exact isValidIP_with_colon.
  - exact compressed_hex_is_lenient.
Qed.

Lemma isValidIP_colon_literal_witness :
  isValidIP "2001:db8::1" = true <->
  groups_form is_hex 1 4 ":" 8 "2001:db8::1" \/
  ("2001:db8::1" : str) = "::1" \/ ("2001:db8::1" : str) = "::" \/
  compressed_lenient_form "2001:db8::1".
Proof.
  apply (proj1 isValidIP_colon_literal). cbn. tauto.
Defined.

(** C10.  When a string contains "::", [split("::")] gives exactly two
    pieces and their non-empty colon-separated segments are at most eight
    in all, [isValidIP] answers true, whatever the segments are made of
    (and whether or not the fuller patterns matched before); so
    "xyz::abc" is accepted although "xyz" holds no hexadecimal digit. *)
Theorem isValidIP_compressed_unchecked :
  (forall s l r : str,
      includes "::" s = true ->
      split "::" s = [l; r] ->
      length (filter truthy (split ":" l))
        + length (filter truthy (split ":" r)) <= 8 ->
      isValidIP s = true)
  /\ isValidIP "xyz::abc" = true
  /\ existsb is_hex "xyz" = false.
Proof.
  split; [| split; reflexivity].
  intros s l r Hi Hs Hc.
  apply isValidIP_with_colon.
  - change (list_ascii_of_string "::") with (":"%char :: ":") in Hi.
    now apply includes_In in Hi.
  - do 3 right. exists l, r. auto.
Qed.

Lemma isValidIP_compressed_unchecked_witness :
  isValidIP "host::name!" = true.
Proof.
  apply (proj1 isValidIP_compressed_unchecked "host::name!" "host" "name!");
    [reflexivity | reflexivity | cbn; lia].
Defined.

(** ** The store: operations on an unknown id *)

Lemma entries_applyFilters (localeCompare : str -> str -> Z)
    (st : HostsStore) :
  entries (applyFilters localeCompare st) = entries st.
Proof. reflexivity. Qed.

Lemma map_unless_id {A : Type} (test : A -> bool) (f : A -> A) (l : list A) :
  (forall x, In x l -> test x = false) ->
  map (fun x => if test x then f x else x) l = l.
Proof.
  intros H. induction l as [| x l IH]; [reflexivity |].
  cbn [map]. rewrite H by now left.
  f_equal. apply IH. intros y Hy. apply H. now right.
Qed.

(** C9.  For an id that no entry of the working list carries,
    [updateEntry] and [toggleEntry] return a store whose working list is
    the one before, entry by entry (and whose saved list is untouched);
    both are total, there is no failure they could raise. *)
Theorem update_toggle_unknown_id (localeCompare : str -> str -> Z)
    (st : HostsStore) (id0 : str) (updates : PartialEntry) :
  (forall e, In e (entries st) -> id e <> id0) ->
  entries (updateEntry localeCompare id0 updates st) = entries st
  /\ entries (toggleEntry localeCompare id0 st) = entries st
  /\ originalEntries (updateEntry localeCompare id0 updates st)
     = originalEntries st
  /\ originalEntries (toggleEntry localeCompare id0 st)
     = originalEntries st.
Proof.
  intros H.
  assert (Hf : forall e, In e (entries st) -> str_eqb (id e) id0 = false).
  { intros e He. apply str_eqb_neq. auto. }
  unfold updateEntry, toggleEntry. rewrite !entries_applyFilters.
  cbn [entries set_entries].
  rewrite (map_unless_id (fun e => str_eqb (id e) id0)
                         (fun e => spread e updates)) by exact Hf.
  rewrite (map_unless_id (fun e => str_eqb (id e) id0)
                         (fun e => set_enabled (negb (enabled e)) e))
    by exact Hf.
  repeat split.
Qed.

(** ** The write path *)

Lemma validateEntry_errors (e : HostEntry) :
  errors (validateEntry e) = entry_reasons e.
Proof.
  unfold validateEntry, entry_reasons. cbn [errors].
  destruct (isValidIP (ip e)); cbn [negb]; f_equal; f_equal.
  1, 3: destruct (hostnames e); reflexivity.
  all: induction (hostnames e) as [| h rest IH]; [reflexivity |];
    cbn [flat_map filter map];
    destruct (isValidHostname h); cbn [negb app map]; now rewrite IH.
Qed.

Lemma entry_reasons_none (e : HostEntry) :
  (length (entry_reasons e) =? 0) = negb (invalid_entryb e).
Proof.
  unfold entry_reasons, invalid_entryb.
  destruct (isValidIP (ip e)); [| reflexivity]. cbn [negb orb app].
  destruct (hostnames e) as [| h0 rest0] eqn:Eh; [reflexivity |].
  cbn [app orb]. rewrite <- Eh. clear Eh.
  induction (hostnames e) as [| h rest IH]; [reflexivity |].
  cbn [filter existsb]. destruct (isValidHostname h); cbn [negb orb map].
  - exact IH.
  - reflexivity.
Qed.

Lemma validateEntry_valid (e : HostEntry) :
  valid (validateEntry e) = negb (invalid_entryb e).
Proof.
  rewrite <- entry_reasons_none, <- validateEntry_errors. reflexivity.
Qed.

Lemma invalid_entryb_spec (e : HostEntry) :
  invalid_entryb e = true <-> invalid_entry e.
Proof.
  unfold invalid_entryb, invalid_entry.
  rewrite !orb_true_iff, negb_true_iff, existsb_exists, Exists_exists.
  split.
  - intros [[H | H] | (h & Hin & H)]; auto.
    + right. left. destruct (hostnames e); [reflexivity | discriminate].
    + right. right. exists h. split; [assumption |].
      now apply negb_true_iff.
  - intros [H | [H | (h & Hin & H)]]; auto.
    + left. right. now rewrite H.
    + right. exists h. split; [assumption |]. now apply negb_true_iff.
Qed.

Lemma validationErrors_from_spec (i : nat) (l : list HostEntry) :
  validationErrors_from i l
  = map entry_report
        (filter (fun p => invalid_entryb (snd p)) (indexed_from i l)).
Proof.
  revert i. induction l as [| e rest IH]; intros i; [reflexivity |].
  cbn [validationErrors_from indexed_from filter snd].
  rewrite validateEntry_valid, validateEntry_errors, negb_involutive, IH.
  destruct (invalid_entryb e); reflexivity.
Qed.

Lemma offending_nonempty (i : nat) (l : list HostEntry) :
  Exists invalid_entry l ->
  filter (fun p => invalid_entryb (snd p)) (indexed_from i l) <> [].
Proof.
  intros H. revert i. induction H as [e rest He | e rest _ IH]; intros i;
    cbn [indexed_from filter snd].
  - apply invalid_entryb_spec in He. rewrite He. discriminate.
  - destruct (invalid_entryb e); [discriminate | apply IH].
Qed.

Lemma offending_complete (i : nat) (l : list HostEntry) (n : nat)
    (e : HostEntry) :
  nth_error l n = Some e -> invalid_entry e ->
  In (i + n, e)
     (filter (fun p => invalid_entryb (snd p)) (indexed_from i l)).
Proof.
  revert i n. induction l as [| x rest IH]; intros i n Hn He.
  - destruct n; discriminate.
  - apply filter_In. split.
    + clear He. revert i n Hn.
      induction (x :: rest) as [| y l' IHl]; intros i n Hn.
      * destruct n; discriminate.
      * destruct n as [| n]; cbn [nth_error indexed_from] in *.
        -- injection Hn as ->. left. f_equal. lia.
        -- right. replace (i + S n) with (S i + n) by lia. now apply IHl.
    + now apply invalid_entryb_spec.
Qed.

(** C7.  Whatever the collaborators do, [writeHosts] throws on the empty
    list and leaves the world as it found it; and on a list with an
    entry that is invalid (address refused, no host name, or a host name
    refused) it throws one failure whose message lists, in order, a line
    for each offending entry with its position and all its reasons, again
    with the world untouched: no dialog, no backup, no write.  Every
    invalid entry is among the ones listed. *)
Theorem writeHosts_rejects (World : Type)
    (requestPermission : bool -> IO World unit)
    (createBackupIfNeeded : IO World unit)
    (writeContentToHostsFile : str -> IO World unit)
    (toISOString_now : IO World str)
    (window : bool) (w : World) :
  writeHosts World requestPermission createBackupIfNeeded
             writeContentToHostsFile toISOString_now [] window w
  = (Thrown "Cannot save empty hosts file", w)
  /\ (forall entries : list HostEntry,
        Exists invalid_entry entries ->
        writeHosts World requestPermission createBackupIfNeeded
                   writeContentToHostsFile toISOString_now entries window w
        = (Thrown ("Validation failed:" ++ [LF]
                     ++ join [LF] (map entry_report (offending entries))),
           w)
        /\ forall n e, nth_error entries n = Some e -> invalid_entry e ->
                       In (n, e) (offending entries)).
Proof.
  split; [reflexivity |].
  intros l Hex. split.
  - unfold writeHosts, bind, validateEntriesForWrite.
    destruct l as [| e rest]; [inversion Hex |].
    cbn [length Nat.eqb]. rewrite validationErrors_from_spec.
    fold (offending (e :: rest)).
    pose proof (offending_nonempty 0 _ Hex) as Hne.
    fold (offending (e :: rest)) in Hne.
    destruct (offending (e :: rest)) as [| p ps]; [congruence |].
    reflexivity.
  - intros n e Hn He. apply (offending_complete 0 _ _ _ Hn He).
Qed.

Lemma update_toggle_unknown_id_witness :
  entries (updateEntry codeunit_compare "entry-9"
             {| u_id := None; u_ip := Some ("10.0.0.9" : str);
                u_hostnames := None; u_enabled := None;
                u_comment := None; u_group := None |}
             (sampleStore [devEntry true] [devEntry true]))
  = [devEntry true].
Proof.
  refine (proj1 (update_toggle_unknown_id codeunit_compare
                   (sampleStore [devEntry true] [devEntry true])
                   "entry-9" _ _)).
  intros e [<- | []]. discriminate.
Defined.

Lemma writeHosts_rejects_witness :
  writeHosts nat (fun _ => tick tt) (tick tt) (fun _ => tick tt)
             (tick ("2026-01-01T00:00:00.000Z" : str))
             [sampleEntry "entry-0" "127.0.0.1" ["localhost" : str];
              sampleEntry "entry-1" "999.1.1.1" ["bad_name" : str];
              sampleEntry "entry-2" "10.0.0.1" []]
             true 0
  = (Thrown ("Validation failed:" ++ [LF]
       ++ "Entry 2: Invalid IP address: 999.1.1.1, Invalid hostname: bad_name"
       ++ [LF] ++ "Entry 3: At least one hostname is required"), 0).
Proof.
  apply (proj2 (writeHosts_rejects nat (fun _ => tick tt) (tick tt)
                  (fun _ => tick tt)
                  (tick ("2026-01-01T00:00:00.000Z" : str)) true 0)).
  apply Exists_cons_tl. apply Exists_cons_hd. left. reflexivity.
Defined.

(** ** The identifiers that [parse] assigns *)

Lemma parseEntryLine_id (line : str) (k : nat) (e : HostEntry) :
  parseEntryLine line k = Some e -> id e = entry_id_of k.
Proof.
  unfold parseEntryLine.
  destruct (length (split_ws line) <? 2); [discriminate |].
  destruct (negb (isValidIP (hd [] (split_ws line)))); [discriminate |].
  intros H. injection H as <-. reflexivity.
Qed.

Lemma update_last_ids (c : option str) (l : list HostEntry) :
  map id (update_last (set_comment c) l) = map id l.
Proof.
  induction l as [| e [| e' rest] IH]; [reflexivity | reflexivity |].
  change (update_last (set_comment c) (e :: e' :: rest))
    with (e :: update_last (set_comment c) (e' :: rest)).
  cbn [map] in *. now rewrite IH.
Qed.

Lemma handleCommentLine_ids (line : str) (l : list HostEntry) (i : nat)
    (lines : list str) :
  map id (handleCommentLine line l i lines) = map id l.
Proof.
  unfold handleCommentLine.
  destruct ((length l =? 0) || (i =? 0)); [reflexivity |].
  destruct (option_map trim (nth_error lines (i - 1))) as [p |];
    [| reflexivity].
  destruct (truthy p && negb (startsWith "#" p)); [| reflexivity].
  destruct (truthy (trim (substring_from 1 line))); [| reflexivity].
  apply update_last_ids.
Qed.

Lemma StronglySorted_snoc (ks : list nat) (n : nat) :
  StronglySorted lt ks -> Forall (fun k => k < n) ks ->
  StronglySorted lt (ks ++ [n]).
Proof.
  induction 1 as [| k rest Hs IH Hk]; intros Hall; cbn [app].
  - repeat constructor.
  - inversion Hall; subst. constructor; [auto |].
    apply Forall_app. split; [assumption | repeat constructor; assumption].
Qed.

Lemma numbered_push (st : parse_state) (e : HostEntry) :
  numbered st -> id e = entry_id_of (ps_entryId st) ->
  numbered {| ps_entries := ps_entries st ++ [e];
              ps_entryId := S (ps_entryId st) |}.
Proof.
  intros (ks & Hids & Hs & Hb) He. exists (ks ++ [ps_entryId st]).
  cbn [ps_entries ps_entryId]. repeat split.
  - rewrite !map_app, Hids. cbn [map]. now rewrite He.
  - now apply StronglySorted_snoc.
  - apply Forall_app. split.
    + eapply Forall_impl; [| exact Hb]. intros k Hk. simpl in Hk. lia.
    + repeat constructor.
Qed.

Lemma numbered_keep (st : parse_state) (l : list HostEntry) :
  numbered st -> map id l = map id (ps_entries st) ->
  numbered {| ps_entries := l; ps_entryId := S (ps_entryId st) |}.
Proof.
  intros (ks & Hids & Hs & Hb) Hl. exists ks.
  cbn [ps_entries ps_entryId]. repeat split.
  - congruence.
  - assumption.
  - eapply Forall_impl; [| exact Hb]. intros k Hk. simpl in Hk. lia.
Qed.

Lemma parse_step_numbered (lines : list str) (i : nat) (raw : str)
    (st : parse_state) :
  numbered st -> numbered (parse_step lines i raw st).
Proof.
  intros Hst. unfold parse_step.
  destruct (negb (truthy (trim raw))); [assumption |].
  destruct (startsWith "#" (trim raw)).
  - destruct (parseEntryLine _ _) as [e |] eqn:E.
    + apply numbered_push; [assumption |].
      apply parseEntryLine_id in E. exact E.
    + apply numbered_keep; [assumption |]. apply handleCommentLine_ids.
  - destruct (parseEntryLine _ _) as [e |] eqn:E.
    + apply numbered_push; [assumption |].
      now apply parseEntryLine_id in E.
    + now apply numbered_keep.
Qed.

Lemma parse_step_counter (lines : list str) (i : nat) (raw : str)
    (st : parse_state) :
  ps_entryId (parse_step lines i raw st)
  = ps_entryId st + (if truthy (trim raw) then 1 else 0).
Proof.
  unfold parse_step. destruct (truthy (trim raw)); cbn [negb]; [| lia].
  destruct (startsWith "#" (trim raw));
    destruct (parseEntryLine _ _); cbn [ps_entryId]; lia.
Qed.

Lemma parse_loop_numbered (lines todo : list str) (i : nat)
    (st : parse_state) :
  numbered st -> numbered (parse_loop lines i todo st).
Proof.
  revert i st. induction todo as [| raw todo IH]; intros i st H.
  - exact H.
  - cbn [parse_loop]. apply IH. now apply parse_step_numbered.
Qed.

Lemma parse_loop_counter (lines todo : list str) (i : nat)
    (st : parse_state) :
  ps_entryId (parse_loop lines i todo st)
  = ps_entryId st + nonblank_lines todo.
Proof.
  revert i st. induction todo as [| raw todo IH]; intros i st.
  - cbn. lia.
  - cbn [parse_loop]. rewrite IH, parse_step_counter.
    unfold nonblank_lines. cbn [filter].
    destruct (truthy (trim raw)); cbn [length]; lia.
Qed.

Lemma sorted_range_length (ks : list nat) :
  StronglySorted lt ks ->
  forall lo hi, Forall (fun k => lo <= k < hi) ks -> length ks <= hi - lo.
Proof.
  induction 1 as [| k rest Hs IH Hk]; intros lo hi Hall; cbn [length].
  - lia.
  - inversion Hall as [| ? ? Hk0 Hrest]; subst.
    assert (length rest <= hi - S k); [| lia].
    apply IH. rewrite Forall_forall in *. intros x Hx.
    specialize (Hk x Hx). specialize (Hrest x Hx). lia.
Qed.

Lemma sorted_full_range (ks : list nat) :
  StronglySorted lt ks ->
  forall lo, Forall (fun k => lo <= k < lo + length ks) ks ->
             ks = seq lo (length ks).
Proof.
  induction 1 as [| k rest Hs IH Hk]; intros lo Hall; [reflexivity |].
  cbn [length seq] in *.
  inversion Hall as [| ? ? Hk0 Hrest]; subst.
  assert (Hlen : length rest <= lo + S (length rest) - S k).
  { apply sorted_range_length; [assumption |].
    rewrite Forall_forall in *. intros x Hx.
    specialize (Hk x Hx). specialize (Hrest x Hx). lia. }
  assert (k = lo) as -> by lia.
  f_equal. apply IH. rewrite Forall_forall in *. intros x Hx.
  specialize (Hk x Hx). specialize (Hrest x Hx). lia.
Qed.

Lemma parse_lines_numbered (lines : list str) :
  exists ks : list nat,
    map id (parse_lines lines) = map entry_id_of ks /\
    StronglySorted lt ks /\
    Forall (fun k => k < nonblank_lines lines) ks.
Proof.
  unfold parse_lines.
  pose (st0 := {| ps_entries := []; ps_entryId := 0 |}).
  assert (H0 : numbered st0).
  { exists []. repeat constructor. }
  destruct (parse_loop_numbered lines lines 0 st0 H0)
    as (ks & Hids & Hs & Hb).
  rewrite parse_loop_counter in Hb. exists ks. auto.
Qed.

Lemma String_of_number_inj (n m : nat) :
  String_of_number n = String_of_number m -> n = m.
Proof.
  unfold String_of_number. intros H.
  apply (f_equal string_of_list_ascii) in H.
  rewrite !string_of_list_ascii_of_string in H.
  apply (f_equal NilEmpty.uint_of_string) in H.
  rewrite !NilEmpty.usu in H. injection H as H.
  now apply Unsigned.to_uint_inj.
Qed.

Lemma entry_id_of_inj (n m : nat) : entry_id_of n = entry_id_of m -> n = m.
Proof.
  unfold entry_id_of. intros H. apply app_inv_head in H.
  now apply String_of_number_inj.
Qed.

Lemma StronglySorted_lt_NoDup (ks : list nat) :
  StronglySorted lt ks -> NoDup ks.
Proof.
  induction 1 as [| k rest Hs IH Hk]; constructor; [| assumption].
  intros Hin. rewrite Forall_forall in Hk. apply Hk in Hin. lia.
Qed.

Lemma NoDup_map_injective {A B : Type} (f : A -> B) (l : list A) :
  (forall x y, f x = f y -> x = y) -> NoDup l -> NoDup (map f l).
Proof.
  intros Hf. induction 1 as [| x l Hx _ IH]; cbn [map]; constructor;
    [| assumption].
  intros Hin. apply in_map_iff in Hin as (y & Hy & Hin).
  apply Hf in Hy. now subst.
Qed.

(** C8, as stated, fails: a line that is tried and dropped uses up a
    counter value, so the first entry produced need not be number 0. *)
Lemma parse_ids_have_gaps :
  let text : str := "not valid line" ++ [LF] ++ "127.0.0.1 localhost" in
  map id (parse text) = [entry_id_of 1] /\
  map id (parse text) <> map entry_id_of (seq 0 (length (parse text))).
Proof.
  cbv zeta. split; [reflexivity |]. vm_compute. discriminate.
Qed.

Lemma parseEntryLine_decodes (text : str) (k : nat) :
  match parseEntryLine text k with
  | Some e =>
      decodes text = true /\ id e = entry_id_of k
      /\ ip e = hd [] (split_ws text)
  | None => decodes text = false
  end.
Proof.
  unfold parseEntryLine, decodes.
  rewrite (Nat.ltb_antisym 2 (length (split_ws text))).
  destruct (2 <=? length (split_ws text)); cbn [negb andb]; [| reflexivity].
  destruct (isValidIP (hd [] (split_ws text))); cbn [negb];
    [| reflexivity].
  cbn [id ip]. now repeat split.
Qed.

Lemma update_last_keys (c : option str) (l : list HostEntry) :
  map (fun e => (id e, ip e)) (update_last (set_comment c) l)
  = map (fun e => (id e, ip e)) l.
Proof.
  induction l as [| e [| e' rest] IH]; [reflexivity | reflexivity |].
  change (update_last (set_comment c) (e :: e' :: rest))
    with (e :: update_last (set_comment c) (e' :: rest)).
  cbn [map] in *. now rewrite IH.
Qed.

Lemma handleCommentLine_keys (line : str) (l : list HostEntry) (i : nat)
    (lines : list str) :
  map (fun e => (id e, ip e)) (handleCommentLine line l i lines)
  = map (fun e => (id e, ip e)) l.
Proof.
  unfold handleCommentLine.
  destruct ((length l =? 0) || (i =? 0)); [reflexivity |].
  destruct (option_map trim (nth_error lines (i - 1))) as [p |];
    [| reflexivity].
  destruct (truthy p && negb (startsWith "#" p)); [| reflexivity].
  destruct (truthy (trim (substring_from 1 line))); [| reflexivity].
  apply update_last_keys.
Qed.

Lemma parse_step_keys (lines : list str) (i : nat) (raw : str)
    (st : parse_state) :
  map (fun e => (id e, ip e)) (ps_entries (parse_step lines i raw st))
  = map (fun e => (id e, ip e)) (ps_entries st)
      ++ (if truthy (trim raw) && decodes (tried_text raw)
          then [(entry_id_of (ps_entryId st), line_address raw)] else []).
Proof.
  unfold line_address, parse_step, tried_text.
  destruct (truthy (trim raw)); cbn [negb andb];
    [| now rewrite app_nil_r].
  destruct (startsWith "#" (trim raw)).
  - pose proof (parseEntryLine_decodes
                  (trim (substring_from 1 (trim raw))) (ps_entryId st)) as H.
    destruct (parseEntryLine (trim (substring_from 1 (trim raw)))
                (ps_entryId st)) as [e |].
    + destruct H as (-> & He & Hip). cbn [ps_entries].
      rewrite map_app. cbn [map set_enabled id ip]. now rewrite He, Hip.
    + rewrite H. cbn [ps_entries].
      now rewrite handleCommentLine_keys, app_nil_r.
  - pose proof (parseEntryLine_decodes (trim raw) (ps_entryId st)) as H.
    destruct (parseEntryLine (trim raw) (ps_entryId st)) as [e |].
    + destruct H as (-> & He & Hip). cbn [ps_entries].
      rewrite map_app. cbn [map]. now rewrite He, Hip.
    + rewrite H. cbn [ps_entries]. now rewrite app_nil_r.
Qed.

Lemma parse_loop_keys (lines todo : list str) (i : nat) (st : parse_state) :
  map (fun e => (id e, ip e)) (ps_entries (parse_loop lines i todo st))
  = map (fun e => (id e, ip e)) (ps_entries st)
      ++ map (fun p => (entry_id_of (fst p), line_address (snd p)))
           (filter (fun p => decodes (tried_text (snd p)))
              (indexed_from (ps_entryId st)
                 (filter (fun raw => truthy (trim raw)) todo))).
Proof.
  revert i st. induction todo as [| raw todo IH]; intros i st.
  - cbn. now rewrite app_nil_r.
  - cbn [parse_loop]. rewrite IH, parse_step_keys, parse_step_counter.
    cbn [filter]. destruct (truthy (trim raw)); cbn [andb].
    + cbn [indexed_from filter snd fst].
      replace (ps_entryId st + 1) with (S (ps_entryId st)) by lia.
      destruct (decodes (tried_text raw)); cbn [map fst snd];
        now rewrite <- app_assoc.
    + rewrite Nat.add_0_r. now rewrite app_nil_r.
Qed.

Lemma In_indexed_from {A : Type} (l : list A) (i k : nat) (x : A) :
  In (k, x) (indexed_from i l) <-> i <= k /\ nth_error l (k - i) = Some x.
Proof.
  revert i. induction l as [| y l IH]; intros i; cbn [indexed_from In].
  - split; [tauto |]. intros [_ H]. now destruct (k - i).
  - rewrite IH. split.
    + intros [H | [Hle H]].
      * injection H as <- <-. rewrite Nat.sub_diag. split; [lia | reflexivity].
      * split; [lia |]. replace (k - i) with (S (k - S i)) by lia. exact H.
    + intros [Hle H]. destruct (k - i) as [| n] eqn:E.
      * left. injection H as <-. f_equal. lia.
      * right. split; [lia |]. replace (k - S i) with n by lia. exact H.
Qed.

(** C8, amended.  The identifier of an entry that [parse] returns is
    "entry-k" where k is the place of the entry's line among the
    non-blank lines of the text, counted from 0: every non-blank line
    uses up a number, whether it gives an entry or not.  In output order
    the entries are those of the non-blank lines that decode, each with
    the number of its line (and the address that stands on it).  So the
    k-th non-blank line has its number among the identifiers exactly when
    it decodes to an entry, and a line that is tried and dropped leaves a
    gap there.  The numbers increase strictly in output order and stay
    below the number of non-blank lines, no identifier occurs twice, and
    when every non-blank line gives an entry the numbers are 0, 1, 2, ...
    without gap. *)
Theorem parse_ids_numbering (text : str) :
  let tried := filter (fun raw => truthy (trim raw)) (split [LF] text) in
  map (fun e => (id e, ip e)) (parse text)
  = map (fun p => (entry_id_of (fst p), line_address (snd p)))
      (filter (fun p => decodes (tried_text (snd p))) (indexed_from 0 tried))
  /\ (forall k raw,
        nth_error tried k = Some raw ->
        (In (entry_id_of k) (map id (parse text))
         <-> decodes (tried_text raw) = true))
  /\ (exists ks : list nat,
        map id (parse text) = map entry_id_of ks /\
        StronglySorted lt ks /\
        Forall (fun k => k < nonblank_lines (split [LF] text)) ks)
  /\ NoDup (map id (parse text))
  /\ (length (parse text) = nonblank_lines (split [LF] text) ->
      map id (parse text) = map entry_id_of (seq 0 (length (parse text)))).
Proof.
  intros tried.
  assert (Ekeys : map (fun e => (id e, ip e)) (parse text)
                  = map (fun p => (entry_id_of (fst p), line_address (snd p)))
                      (filter (fun p => decodes (tried_text (snd p)))
                         (indexed_from 0 tried))).
  { unfold parse, parse_lines. rewrite parse_loop_keys. reflexivity. }
  assert (Eids : map id (parse text)
                 = map (fun p => entry_id_of (fst p))
                     (filter (fun p => decodes (tried_text (snd p)))
                        (indexed_from 0 tried))).
  { apply (f_equal (map fst)) in Ekeys. rewrite !map_map in Ekeys.
    exact Ekeys. }
  split; [exact Ekeys |]. split.
  { intros k raw Hk. rewrite Eids, in_map_iff. split.
    - intros ([k' raw'] & Hid & Hin). cbn [fst] in Hid.
      apply entry_id_of_inj in Hid. subst k'.
      apply filter_In in Hin as [Hin Hdec]. cbn [snd] in Hdec.
      apply In_indexed_from in Hin as [_ Hin].
      rewrite Nat.sub_0_r, Hk in Hin. injection Hin as <-. exact Hdec.
    - intros Hdec. exists (k, raw). split; [reflexivity |].
      apply filter_In. split; [| exact Hdec].
      apply In_indexed_from. split; [lia |]. now rewrite Nat.sub_0_r. }
  unfold parse.
  destruct (parse_lines_numbered (split [LF] text)) as (ks & Hids & Hs & Hb).
  split; [eauto |]. split.
  { rewrite Hids. apply NoDup_map_injective.
    - apply entry_id_of_inj.
    - now apply StronglySorted_lt_NoDup. }
  intros Hlen. rewrite Hids. f_equal.
  assert (Hl : length ks = length (parse_lines (split [LF] text))).
  { rewrite <- (length_map entry_id_of), <- Hids. apply length_map. }
  rewrite <- Hl. apply sorted_full_range; [assumption |].
  eapply Forall_impl; [| exact Hb]. intros k Hk. simpl in Hk. lia.
Qed.

Lemma parse_ids_numbering_witness :
  map id (parse ("127.0.0.1 localhost" ++ [LF] ++ [LF]
                   ++ "# 10.0.0.5 a.test" ++ [LF]))
  = map entry_id_of (seq 0 2).
Proof.
  apply (proj2 (proj2 (proj2 (proj2
           (parse_ids_numbering
              ("127.0.0.1 localhost" ++ [LF] ++ [LF]
                 ++ "# 10.0.0.5 a.test" ++ [LF])))))).
  reflexivity.
Defined.

(** ** [JSON.stringify] tells arrays of strings apart *)

Lemma unquote_quote_unit (c : ascii) (x : str) :
  unquote_unit (quote_unit c ++ x) = Some (c, x).
Proof.
  destruct c as [[] [] [] [] [] [] [] []]; reflexivity.
Qed.

Lemma quote_unit_head (c : ascii) :
  exists a t, quote_unit c = a :: t /\ a <> DQUOTE.
Proof.
  destruct c as [[] [] [] [] [] [] [] []];
    (eexists; eexists; split; [reflexivity | discriminate]).
Qed.

Lemma quote_unit_prefix_free (c c' : ascii) (x y : str) :
  quote_unit c ++ x = quote_unit c' ++ y -> c = c' /\ x = y.
Proof.
  intros H. apply (f_equal unquote_unit) in H.
  rewrite !unquote_quote_unit in H. injection H as -> ->. auto.
Qed.

Lemma quoted_body_inj (s s' x y : str) :
  flat_map quote_unit s ++ DQUOTE :: x
  = flat_map quote_unit s' ++ DQUOTE :: y ->
  s = s' /\ x = y.
Proof.
  revert s'. induction s as [| c s IH]; intros [| c' s'] H;
    cbn [flat_map app] in H.
  - injection H as ->. auto.
  - destruct (quote_unit_head c') as (a & t & E & Ha).
    rewrite E in H. cbn [app] in H. injection H as H _. congruence.
  - destruct (quote_unit_head c) as (a & t & E & Ha).
    rewrite E in H. cbn [app] in H. injection H as H _. congruence.
  - rewrite <- !app_assoc in H.
    apply quote_unit_prefix_free in H as [-> H].
    apply IH in H as [-> ->]. auto.
Qed.

Lemma QuoteJSONString_inj (s s' x y : str) :
  QuoteJSONString s ++ x = QuoteJSONString s' ++ y -> s = s' /\ x = y.
Proof.
  unfold QuoteJSONString. cbn [app]. rewrite <- !app_assoc. cbn [app].
  intros H. injection H as H. now apply quoted_body_inj.
Qed.

Lemma QuoteJSONString_head (s : str) :
  exists t, QuoteJSONString s = DQUOTE :: t.
Proof. unfold QuoteJSONString. cbn [app]. eauto. Qed.

Lemma joined_quotes_inj (a b : list str) (x y : str) :
  join "," (map QuoteJSONString a) ++ "]" ++ x
  = join "," (map QuoteJSONString b) ++ "]" ++ y ->
  a = b.
Proof.
  revert b. induction a as [| s a IH]; intros [| s' b] H.
  - reflexivity.
  - cbn [map] in H.
    destruct (join_starts "," (QuoteJSONString s') (map QuoteJSONString b))
      as (t & Ht).
    destruct (QuoteJSONString_head s') as (u & Hu).
    rewrite Ht, Hu in H. discriminate.
  - cbn [map] in H.
    destruct (join_starts "," (QuoteJSONString s) (map QuoteJSONString a))
      as (t & Ht).
    destruct (QuoteJSONString_head s) as (u & Hu).
    rewrite Ht, Hu in H. discriminate.
  - cbn [map] in H.
    destruct a as [| s2 a]; destruct b as [| s2' b]; cbn [map] in *.
    + cbn [join] in H. apply QuoteJSONString_inj in H as [-> _]. reflexivity.
    + rewrite join_cons in H. cbn [join] in H. rewrite <- !app_assoc in H.
      apply QuoteJSONString_inj in H as [_ H]. discriminate.
    + rewrite join_cons in H. cbn [join] in H. rewrite <- !app_assoc in H.
      apply QuoteJSONString_inj in H as [_ H]. discriminate.
    + rewrite !join_cons, <- !app_assoc in H.
      apply QuoteJSONString_inj in H as [-> H].
      injection H as H. f_equal. apply IH. exact H.
Qed.

Theorem JSON_stringify_inj (a b : list str) :
  JSON_stringify a = JSON_stringify b -> a = b.
Proof.
  unfold JSON_stringify. intros H. cbn [list_ascii_of_string app] in H.
  injection H as H.
  apply (joined_quotes_inj a b [] []).
  cbn [list_ascii_of_string app]. exact H.
Qed.

(** ** Sorting with a comparison function *)

Section Sorting.

Variable A : Type.
Variable compare : A -> A -> Z.

Lemma sort_insert_Permutation (x : A) (l : list A) :
  Permutation (sort_insert compare x l) (x :: l).
Proof.
  induction l as [| y l IH]; cbn [sort_insert]; [reflexivity |].
  destruct (compare x y <=? 0)%Z; [reflexivity |].
  rewrite IH. apply perm_swap.
Qed.

Lemma sort_Permutation (l : list A) : Permutation (sort compare l) l.
Proof.
  induction l as [| x l IH]; [reflexivity |].
  unfold sort in *. cbn [fold_right].
  rewrite sort_insert_Permutation. now constructor.
Qed.

Hypothesis total : forall a b, before compare a b \/ before compare b a.
Hypothesis trans :
  forall a b c,
    before compare a b -> before compare b c -> before compare a c.

Lemma sort_insert_sorted (x : A) (l : list A) :
  StronglySorted (before compare) l ->
  StronglySorted (before compare) (sort_insert compare x l).
Proof.
  induction 1 as [| y l Hs IH Hy]; cbn [sort_insert].
  - repeat constructor.
  - destruct (compare x y <=? 0)%Z eqn:E.
    + apply Z.leb_le in E. constructor; [now constructor |].
      constructor; [exact E |].
      eapply Forall_impl; [| exact Hy]. intros z Hz. now apply trans with y.
    + apply Z.leb_gt in E. constructor; [exact IH |].
      assert (Hyx : before compare y x).
      { destruct (total x y) as [H | H]; [unfold before in H; lia | exact H]. }
      eapply Permutation_Forall.
      * symmetry. apply sort_insert_Permutation.
      * now constructor.
Qed.

Lemma sort_sorted (l : list A) :
  StronglySorted (before compare) (sort compare l).
Proof.
  induction l as [| x l IH]; [constructor |].
  unfold sort in *. cbn [fold_right]. now apply sort_insert_sorted.
Qed.



Hypothesis antisym :
  forall a b, before compare a b -> before compare b a -> a = b.

Lemma sorted_Permutation_eq (l l' : list A) :
  StronglySorted (before compare) l -> StronglySorted (before compare) l' ->
  Permutation l l' -> l = l'.
Proof.
  intros Hl. revert l'.
  induction Hl as [| x l Hs IH Hx]; intros l' Hl' Hp.
  - now apply Permutation_nil in Hp.
  - destruct Hl' as [| y l' Hs' Hy].
    + symmetry in Hp. now apply Permutation_nil in Hp.
    + assert (x = y) as ->.
      { assert (Hxin : In x (y :: l')).
        { apply (Permutation_in _ Hp). now left. }
        assert (Hyin : In y (x :: l)).
        { apply (Permutation_in _ (Permutation_sym Hp)). now left. }
        destruct Hxin as [-> | Hxin]; [reflexivity |].
        destruct Hyin as [-> | Hyin]; [reflexivity |].
        rewrite Forall_forall in Hx, Hy. apply antisym; auto. }
      f_equal. apply IH; [assumption |].
      now apply Permutation_cons_inv in Hp.
Qed.

Lemma sort_Permutation_eq (l l' : list A) :
  Permutation l l' -> sort compare l = sort compare l'.
Proof.
  intros Hp. apply sorted_Permutation_eq; try apply sort_sorted.
  rewrite !sort_Permutation. exact Hp.
Qed.

End Sorting.

(** The comparison by code units is a total order. *)

Lemma code_inj (x y : ascii) : code x = code y -> x = y.
Proof.
  unfold code. intros H.
  rewrite <- (ascii_N_embedding x), <- (ascii_N_embedding y). now rewrite H.
Qed.

Lemma codeunit_compare_total : total_collation codeunit_compare.
Proof.
  repeat split.
  - induction a as [| x a IH]; intros [| y b]; cbn [codeunit_compare];
      try lia.
    rewrite (N.compare_antisym (code x) (code y)).
    destruct (code x ?= code y)%N; cbn [CompOpp]; try lia. apply IH.
  - induction a as [| x a IH]; intros [| y b] [| z c];
      cbn [codeunit_compare]; try lia.
    destruct (code x ?= code y)%N eqn:E1;
      destruct (code y ?= code z)%N eqn:E2; try lia.
    + apply N.compare_eq in E1. rewrite E1, E2. apply IH.
    + apply N.compare_eq in E1. rewrite E1, E2. lia.
    + apply N.compare_eq in E2. rewrite <- E2, E1. lia.
    + assert ((code x ?= code z)%N = Lt) as ->; [| lia].
      change (code x < code z)%N.
      change (code x < code y)%N in E1. change (code y < code z)%N in E2.
      lia.
  - induction a as [| x a IH]; intros [| y b]; cbn [codeunit_compare];
      try lia; [reflexivity |].
    rewrite (N.compare_antisym (code x) (code y)).
    destruct (code x ?= code y)%N eqn:E; cbn [CompOpp]; try lia.
    intros H1 H2. apply N.compare_eq in E. apply code_inj in E as ->.
    f_equal. now apply IH.
Qed.

(** ** Unsaved entries *)

Lemma opt_eqb_eq (a b : option str) : opt_eqb a b = true <-> a = b.
Proof.
  destruct a as [x |], b as [y |]; cbn [opt_eqb];
    try (split; congruence).
  rewrite str_eqb_eq. split; congruence.
Qed.

Lemma negb_true_neq (b : bool) (P : Prop) :
  (b = true <-> P) -> (negb b = true <-> ~ P).
Proof.
  intros H. destruct b; cbn [negb]; split; intros H'.
  - discriminate.
  - exfalso. apply H'. now apply H.
  - intros HP. apply H in HP. discriminate.
  - reflexivity.
Qed.

Lemma sorted_JSON_differ (localeCompare : str -> str -> Z) (a b : list str) :
  negb (str_eqb (JSON_stringify (sort localeCompare a))
                (JSON_stringify (sort localeCompare b))) = true
  <-> sort localeCompare a <> sort localeCompare b.
Proof.
  apply negb_true_neq. rewrite str_eqb_eq. split.
  - apply JSON_stringify_inj.
  - now intros ->.
Qed.

Lemma isEntryUnsaved_found (localeCompare : str -> str -> Z)
    (st : HostsStore) (entry o : HostEntry) :
  find (fun e => str_eqb (id e) (id entry)) (originalEntries st) = Some o ->
  isEntryUnsaved localeCompare st entry = true <->
  ip entry <> ip o \/ enabled entry <> enabled o \/
  comment entry <> comment o \/ group entry <> group o \/
  sort localeCompare (hostnames entry) <> sort localeCompare (hostnames o).
Proof.
  intros Hf. unfold isEntryUnsaved. rewrite Hf.
  rewrite !orb_true_iff, sorted_JSON_differ.
  rewrite (negb_true_neq _ _ (str_eqb_eq (ip entry) (ip o))).
  rewrite (negb_true_neq _ _ (eqb_true_iff (enabled entry) (enabled o))).
  rewrite (negb_true_neq _ _ (opt_eqb_eq (comment entry) (comment o))).
  rewrite (negb_true_neq _ _ (opt_eqb_eq (group entry) (group o))).
  tauto.
Qed.

(** Without the total order the sort cannot bring a reordering back: host
    names that tie under the comparison keep their order (the sort is
    stable), and the swapped pair is reported as a change. *)
Remark isEntryUnsaved_ties_keep_order :
  isEntryUnsaved tie_compare
    (sampleStore [] [sampleEntry "1" "1.1.1.1" ["x" : str; "y" : str]])
    (sampleEntry "1" "1.1.1.1" ["y" : str; "x" : str])
  = true.
Proof. reflexivity. Qed.





(** ** Trimmed lines *)

Lemma trimStart_length (s : str) : length (trimStart s) <= length s.
Proof.
  induction s as [| c s IH]; cbn [trimStart]; [lia |].
  destruct (is_space c); cbn [length]; lia.
Qed.

Lemma trimEnd_length (s : str) : length (trimEnd s) <= length s.
Proof.
  induction s as [| c s IH]; cbn [trimEnd]; [lia |].
  destruct (trimEnd s); [destruct (is_space c) |]; cbn [length] in *; lia.
Qed.

Lemma trimEnd_fixed_last (s : str) :
  trimEnd s = s -> s <> [] -> is_space (last s " "%char) = false.
Proof.
  induction s as [| c s IH]; intros H Hne; [congruence |].
  cbn [trimEnd] in H. destruct s as [| d s].
  - cbn [trimEnd] in H. cbn [last].
    destruct (is_space c); [discriminate | reflexivity].
  - change (last (c :: d :: s) " "%char) with (last (d :: s) " "%char).
    apply IH; [| discriminate].
    destruct (trimEnd (d :: s)) as [| x t].
    + destruct (is_space c); discriminate.
    + injection H as -> ->. reflexivity.
Qed.

Lemma trimEnd_id (s : str) :
  s <> [] -> is_space (last s " "%char) = false -> trimEnd s = s.
Proof.
  induction s as [| c s IH]; intros Hne Hl; [congruence |].
  cbn [trimEnd]. destruct s as [| d s].
  - cbn [trimEnd last] in *. now rewrite Hl.
  - change (last (c :: d :: s) " "%char) with (last (d :: s) " "%char) in Hl.
    rewrite IH; [reflexivity | discriminate | assumption].
Qed.

Lemma pre_trimmed_ends (line : str) :
  pre_trimmed line -> line <> [] ->
  is_space (hd " "%char line) = false /\
  is_space (last line " "%char) = false.
Proof.
  unfold pre_trimmed, trim. intros H Hne.
  destruct line as [| c s]; [congruence |].
  cbn [hd]. destruct (is_space c) eqn:Ec.
  - exfalso. cbn [trimStart] in H. rewrite Ec in H.
    apply (f_equal (@length ascii)) in H. cbn [length] in H.
    pose proof (trimEnd_length (trimStart s)).
    pose proof (trimStart_length s). lia.
  - split; [reflexivity |].
    cbn [trimStart] in H. rewrite Ec in H.
    now apply trimEnd_fixed_last.
Qed.

Lemma trimStart_idem (s : str) : trimStart (trimStart s) = trimStart s.
Proof.
  induction s as [| c s IH]; [reflexivity |].
  cbn [trimStart]. destruct (is_space c) eqn:E; [exact IH |].
  cbn [trimStart]. now rewrite E.
Qed.

Lemma trimStart_last (s : str) :
  s <> [] -> is_space (last s " "%char) = false ->
  trimStart s <> [] /\ last (trimStart s) " "%char = last s " "%char.
Proof.
  induction s as [| c s IH]; intros Hne Hl; [congruence |].
  cbn [trimStart]. destruct (is_space c) eqn:E.
  - destruct s as [| d s].
    + cbn [last] in Hl. congruence.
    + change (last (c :: d :: s) " "%char) with (last (d :: s) " "%char) in *.
      apply IH; [discriminate | assumption].
  - split; [discriminate | reflexivity].
Qed.

(** ** The pieces of a trimmed line *)

Lemma split_ws_go_nonempty (s : str) :
  forall (in_run : bool) (cur : str),
    (s <> [] -> is_space (last s " "%char) = false) ->
    (s = [] -> cur <> []) ->
    (in_run = false -> cur = [] -> is_space (hd " "%char s) = false) ->
    Forall (fun t : str => t <> []) (split_ws_go in_run cur s).
Proof.
  induction s as [| c s IH]; intros in_run cur Hlast Hend Hstart.
  - cbn [split_ws_go]. constructor; [| constructor].
    intros Hr. apply (f_equal (@rev ascii)) in Hr.
    rewrite rev_involutive in Hr. now apply Hend.
  - cbn [split_ws_go].
    assert (Hs : s <> [] -> is_space (last s " "%char) = false).
    { intros Hne. destruct s as [| d s]; [congruence |].
      apply Hlast. discriminate. }
    destruct (is_space c) eqn:Ec.
    + assert (Hne : s <> []).
      { intros ->. cbn [last] in Hlast.
        rewrite Hlast in Ec; [discriminate | discriminate]. }
      destruct in_run.
      * apply IH; [assumption | congruence | discriminate].
      * constructor.
        -- intros Hr. apply (f_equal (@rev ascii)) in Hr.
           rewrite rev_involutive in Hr. cbn [rev] in Hr.
           specialize (Hstart eq_refl Hr). cbn [hd] in Hstart. congruence.
        -- apply IH; [assumption | congruence | discriminate].
    + apply IH; [assumption | discriminate | discriminate].
Qed.

Lemma split_ws_nonempty (line : str) :
  pre_trimmed line -> line <> [] ->
  Forall (fun t : str => t <> []) (split_ws line).
Proof.
  intros Ht Hne. destruct (pre_trimmed_ends line Ht Hne) as [Hh Hl].
  apply split_ws_go_nonempty; auto.
Qed.

Lemma filter_truthy_and (p : str -> bool) (l : list str) :
  Forall (fun t : str => t <> []) l ->
  filter (fun h => truthy h && p h) l = filter p l.
Proof.
  induction 1 as [| t l Ht _ IH]; [reflexivity |].
  cbn [filter]. rewrite IH.
  destruct t; [congruence | reflexivity].
Qed.

(** ** The inline comment of a trimmed single line *)

Lemma ws_star_then_group_spec (s : str) :
  s <> [] -> is_space (last s " "%char) = false -> single_line s ->
  ws_star_then_group s = Some (trimStart s).
Proof.
  unfold single_line.
  induction s as [| c s IH]; intros Hne Hl Hs; [congruence |].
  cbn [ws_star_then_group trimStart].
  destruct (is_space c) eqn:Ec.
  - destruct s as [| d s].
    + cbn [last] in Hl. congruence.
    + rewrite IH; [reflexivity | discriminate | exact Hl |].
      cbn [forallb] in Hs. now apply andb_true_iff in Hs as [_ Hs].
  - unfold dot_plus_end. cbn [truthy andb]. now rewrite Hs.
Qed.

Lemma trim_nonempty (s : str) :
  s <> [] -> is_space (last s " "%char) = false -> truthy (trim s) = true.
Proof.
  intros Hne Hl. unfold trim.
  destruct (trimStart_last s Hne Hl) as [Hne' Hl'].
  rewrite trimEnd_id; [| assumption | congruence].
  destruct (trimStart s); [congruence | reflexivity].
Qed.

Lemma comment_of_line (s : str) :
  single_line s ->
  (s <> [] -> is_space (last s " "%char) = false) ->
  option_map trim (commentRegex_exec s) = trailing_comment s.
Proof.
  unfold trailing_comment.
  induction s as [| c s IH]; intros Hs Hl; [reflexivity |].
  assert (Hs' : single_line s).
  { unfold single_line in *. cbn [forallb] in Hs.
    now apply andb_true_iff in Hs as [_ Hs]. }
  assert (Hl' : s <> [] -> is_space (last s " "%char) = false).
  { intros Hne. destruct s as [| d s]; [congruence |].
    apply Hl. discriminate. }
  cbn [commentRegex_exec after_hash].
  destruct (chr_is "#" c); [| now apply IH].
  destruct s as [| d s]; [reflexivity |].
  rewrite ws_star_then_group_spec; [| discriminate | | assumption].
  - cbn [option_map]. unfold trim at 1. rewrite trimStart_idem.
    fold (trim (d :: s)). rewrite trim_nonempty; [reflexivity | discriminate |].
    apply Hl'. discriminate.
  - apply Hl'. discriminate.
Qed.

(** C6.  For a trimmed single line, with [tokens] the pieces between its
    runs of white space: fewer than two tokens give null; a first token
    that the IP validator refuses gives null; otherwise the result is the
    entry whose ip is the first token, whose host names are the remaining
    tokens without those that begin with [#], which is enabled, and whose
    comment is the trimmed text after the first [#] when there is such
    text (and absent otherwise). *)
Theorem parseEntryLine_spec (line : str) (entryId : nat) :
  pre_trimmed line ->
  single_line line ->
  let tokens := split_ws line in
  (length tokens < 2 -> parseEntryLine line entryId = None)
  /\ (2 <= length tokens -> isValidIP (hd [] tokens) = false ->
      parseEntryLine line entryId = None)
  /\ (2 <= length tokens -> isValidIP (hd [] tokens) = true ->
      parseEntryLine line entryId
      = Some {| id := entry_id_of entryId;
                ip := hd [] tokens;
                hostnames :=
                  filter (fun t => negb (startsWith "#" t)) (tl tokens);
                enabled := true;
                comment := trailing_comment line;
                group := None |}).
Proof.
  intros Ht Hs tokens. subst tokens. unfold parseEntryLine.
  repeat split.
  - intros H. apply Nat.ltb_lt in H. now rewrite H.
  - intros H Hip. apply Nat.ltb_ge in H. now rewrite H, Hip.
  - intros H Hip. apply Nat.ltb_ge in H. rewrite H, Hip. cbn [negb].
    assert (Hne : line <> []).
    { intros ->. cbn in H. discriminate. }
    rewrite comment_of_line;
      [| assumption | intros _; now apply pre_trimmed_ends].
    rewrite filter_truthy_and; [reflexivity |].
    pose proof (split_ws_nonempty line Ht Hne) as Hall.
    destruct (split_ws line); [constructor | now inversion Hall].
Qed.

Lemma parseEntryLine_spec_witness :
  parseEntryLine "10.0.0.5 a.test b.test # dev" 7
  = Some {| id := "entry-7"; ip := "10.0.0.5";
            hostnames := ["a.test" : str; "b.test" : str; "dev" : str];
            enabled := true; comment := Some ("dev" : str); group := None |}.
Proof.
  refine (proj2 (proj2 (parseEntryLine_spec "10.0.0.5 a.test b.test # dev" 7
                          eq_refl eq_refl)) _ eq_refl).
  cbn. lia.
Defined.

(** ** Reading back what [stringify] wrote *)

Lemma join_snoc_empty (sep : str) (l : list str) :
  l <> [] -> join sep l ++ sep = join sep (l ++ [[]]).
Proof.
  induction l as [| x l IH]; intros Hne; [congruence |].
  destruct l as [| y l].
  - cbn. now rewrite app_nil_r.
  - change ((x :: y :: l) ++ [[]]) with (x :: y :: (l ++ [[]])).
    rewrite !join_cons, <- !app_assoc. do 2 f_equal.
    apply IH. discriminate.
Qed.

Lemma stringify_document (now : str) (l : list HostEntry) :
  stringify now l = join [LF] (document_lines now l).
Proof.
  unfold stringify, document_lines.
  rewrite join_snoc_empty by discriminate.
  now rewrite <- app_assoc.
Qed.

Lemma trimEnd_app (a b : str) :
  a <> [] -> trimEnd a = a -> trimEnd (a ++ b) = a ++ trimEnd b.
Proof.
  induction a as [| c a IH]; intros Hne Ha; [congruence |].
  cbn [trimEnd] in Ha. cbn [app trimEnd].
  destruct a as [| d a].
  - cbn [trimEnd app] in *.
    destruct (is_space c); [discriminate |].
    destruct (trimEnd b); reflexivity.
  - assert (Ha' : trimEnd (d :: a) = d :: a).
    { destruct (trimEnd (d :: a)) as [| x t].
      - destruct (is_space c); discriminate.
      - injection Ha as -> ->. reflexivity. }
    rewrite IH by (discriminate || assumption). reflexivity.
Qed.

(** The second header line is never an entry, whatever the clock says:
    behind the [#] its first word is "Generated". *)
Lemma generated_line_trim (now : str) :
  exists tail : str,
    trim ("# Generated at " ++ now) = "# Generated at" ++ tail.
Proof.
  exists (trimEnd (" " ++ now)). unfold trim.
  change (trimStart ("# Generated at " ++ now))
    with ("# Generated at" ++ (" " ++ now)).
  now apply trimEnd_app.
Qed.

Lemma parseEntryLine_generated (tail : str) (k : nat) :
  parseEntryLine (trim (substring_from 1 ("# Generated at" ++ tail))) k
  = None.
Proof.
  unfold trim.
  change (trimStart (substring_from 1 ("# Generated at" ++ tail)))
    with ("Generated at" ++ tail).
  rewrite trimEnd_app by (discriminate || reflexivity).
  unfold parseEntryLine.
  change (split_ws ("Generated at" ++ trimEnd tail))
    with (("Generated" : str) :: split_ws_go true [] ("at" ++ trimEnd tail)).
  destruct (length _ <? 2); reflexivity.
Qed.

Lemma parse_step_generated (lines : list str) (i : nat) (now : str)
    (k : nat) :
  parse_step lines i ("# Generated at " ++ now)
             {| ps_entries := []; ps_entryId := k |}
  = {| ps_entries := []; ps_entryId := S k |}.
Proof.
  unfold parse_step. destruct (generated_line_trim now) as (tail & ->).
  cbn [ps_entries ps_entryId].
  rewrite parseEntryLine_generated. reflexivity.
Qed.

Lemma parse_step_banner (lines : list str) (i k : nat) :
  parse_step lines i "# Hosts file managed by iHosts"
             {| ps_entries := []; ps_entryId := k |}
  = {| ps_entries := []; ps_entryId := S k |}.
Proof. reflexivity. Qed.

Lemma parse_step_blank (lines : list str) (i : nat) (st : parse_state) :
  parse_step lines i [] st = st.
Proof. reflexivity. Qed.

Lemma parse_document (now : str) (l : list HostEntry) :
  ~ In LF now ->
  Forall (fun line : str => ~ In LF line) (flat_map formatEntry l) ->
  parse (stringify now l)
  = ps_entries
      (parse_loop (document_lines now l) 3
                  (flat_map formatEntry l ++ [[]])
                  {| ps_entries := []; ps_entryId := 2 |}).
Proof.
  intros Hnow Hbody. unfold parse. rewrite stringify_document.
  rewrite split_join_unit.
  - unfold parse_lines. unfold document_lines at 2.
    cbn [app parse_loop].
    rewrite parse_step_banner, parse_step_generated, parse_step_blank.
    reflexivity.
  - discriminate.
  - unfold document_lines. cbn [app].
    constructor; [| constructor; [| constructor]].
    + now apply not_In_by_eqb.
    + intros H. apply in_app_or in H as [H | H]; [| contradiction].
      revert H. now apply not_In_by_eqb.
    + intros [].
    + apply Forall_app. split; [assumption |].
      constructor; [intros [] | constructor].
Qed.

(** C1: what the code does where the round trip is claimed.  Written out
    by [stringify] (at any time [now]) and read back by [parse], the
    enabled entry 10.0.0.5 a.test b.test with comment "dev" comes back as
    one entry whose host names are a.test, b.test and dev: the words of
    the inline comment are taken for host names, and the set of host names
    is not the one written.  In the same way the
    text "10.0.0.5 a.test #dev" parses to the host name a.test alone, and
    after [stringify] and [parse] to a.test and dev. *)
Theorem parse_stringify_comment_leak (now : str) :
  ~ In LF now ->
  parse (stringify now [devEntry true]) = [devEntry_reparsed]
  /\ ~ same_names (hostnames devEntry_reparsed) (hostnames (devEntry true))
  /\ map hostnames (parse "10.0.0.5 a.test #dev") = [["a.test" : str]]
  /\ map hostnames (parse (stringify now (parse "10.0.0.5 a.test #dev")))
     = [["a.test" : str; "dev" : str]].
Proof.
  intros Hnow. split; [| split; [| split]].
  - rewrite parse_document; [reflexivity | assumption |].
    constructor; [now apply not_In_by_eqb | constructor].
  - intros H. destruct (H "dev") as [H1 _].
    assert (Hin : In ("dev" : str) (hostnames (devEntry true))).
    { apply H1. cbn. tauto. }
    cbn in Hin. destruct Hin as [Hin | [Hin | []]]; discriminate.
  - reflexivity.
  - assert (E : parse "10.0.0.5 a.test #dev"
                = [ {| id := "entry-0"; ip := "10.0.0.5";
                       hostnames := ["a.test" : str]; enabled := true;
                       comment := Some ("dev" : str); group := None |} ])
      by reflexivity.
    rewrite E, parse_document; [reflexivity | assumption |].
    constructor; [now apply not_In_by_eqb | constructor].
Qed.

Lemma parse_stringify_comment_leak_witness :
  parse (stringify "2026-01-01T00:00:00.000Z" [devEntry true])
  = [devEntry_reparsed].
Proof.
  refine (proj1 (parse_stringify_comment_leak "2026-01-01T00:00:00.000Z" _)).
  now apply not_In_by_eqb.
Defined.

(** C2: what the code does where the round trip of a disabled entry is
    claimed.  [formatEntry] writes the disabled entry as the two comment
    lines "# 10.0.0.5 a.test b.test" and "# dev"; [parse] reads these two
    lines, alone or inside the document of [stringify], as one disabled
    entry without comment: the line "# dev" follows a line that begins
    with [#], and [handleCommentLine] attaches nothing then. *)
Theorem parse_disabled_comment_lost :
  formatEntry (devEntry false)
  = ["# 10.0.0.5 a.test b.test" : str; "# dev" : str]
  /\ parse (join [LF] (formatEntry (devEntry false)))
     = [devEntry_disabled_reparsed 0]
  /\ (forall now : str,
        ~ In LF now ->
        parse (stringify now [devEntry false])
        = [devEntry_disabled_reparsed 2]).
Proof.
  split; [reflexivity | split; [reflexivity |]].
  intros now Hnow.
  rewrite parse_document; [reflexivity | assumption |].
  constructor; [now apply not_In_by_eqb |].
  constructor; [now apply not_In_by_eqb | constructor].
Qed.

Lemma parse_disabled_comment_lost_witness :
  parse (stringify "2026-01-01T00:00:00.000Z" [devEntry false])
  = [devEntry_disabled_reparsed 2].
Proof.
  refine (proj2 (proj2 parse_disabled_comment_lost)
                "2026-01-01T00:00:00.000Z" _).
  now apply not_In_by_eqb.
Defined.

(** * Further properties of the code *)

(** ** Host names: [isValidHostname] *)

Lemma Matches_Star_pieces (r : regex) (s : str) :
  Matches (Star r) s <->
  exists pieces : list str, Forall (Matches r) pieces /\ s = concat pieces.
Proof.
  split.
  - intros H. remember (Star r) as r' eqn:E.
    induction H as [| | | | | r0 | r0 s1 s2 H1 _ H2 IH2]; try discriminate.
    + exists []. auto.
    + injection E as ->. destruct (IH2 eq_refl) as (pieces & Hall & ->).
      exists (s1 :: pieces). auto.
  - intros (pieces & Hall & ->).
    induction Hall as [| p pieces Hp _ IH]; cbn [concat]; now constructor.
Qed.

Lemma is_alnum_dash_of_alnum (c : ascii) :
  is_alnum c = true -> is_alnum_dash c = true.
Proof. unfold is_alnum_dash. intros ->. reflexivity. Qed.

Lemma labelRegex_spec (s : str) : Matches labelRegex s <-> valid_label s.
Proof.
  unfold labelRegex, Opt, valid_label.
  rewrite Matches_Cat_inv. split.
  - intros (s1 & s2 & -> & H1 & H2).
    apply Matches_Chr_inv in H1 as (c & -> & Hc).
    apply Matches_Alt_inv in H2 as [H2 | H2].
    + apply Matches_Cat_inv in H2 as (m & t & -> & Hm & Ht).
      apply Matches_UpTo_Chr in Hm as [Hlen Hm].
      apply Matches_Chr_inv in Ht as (d & -> & Hd).
      cbn [app hd length]. rewrite length_app. cbn [length].
      repeat split; try lia.
      * cbn [forallb]. rewrite (is_alnum_dash_of_alnum c Hc).
        rewrite forallb_app, Hm. cbn [forallb andb].
        now rewrite (is_alnum_dash_of_alnum d Hd).
      * assumption.
      * change (c :: m ++ [d]) with ((c :: m) ++ [d]).
        now rewrite last_last.
    + apply Matches_Eps_inv in H2 as ->. cbn.
      rewrite (is_alnum_dash_of_alnum c Hc), Hc. repeat split; lia.
  - intros ([Hlo Hhi] & Hall & Hhd & Hlast).
    destruct s as [| c rest]; [cbn in Hlo; lia |].
    cbn [hd] in Hhd. exists [c], rest. repeat split.
    + now constructor.
    + destruct rest as [| d0 rest0]; [apply MAltR; constructor |].
      apply MAltL.
      destruct (exists_last (l := d0 :: rest0)) as (m & d & E);
        [discriminate |].
      rewrite E in *. clear E d0 rest0.
      change (c :: m ++ [d]) with ((c :: m) ++ [d]) in Hlast.
      rewrite last_last in Hlast.
      cbn [forallb] in Hall. apply andb_true_iff in Hall as [_ Hall].
      apply forallb_app_iff in Hall as [Hm _].
      cbn [length] in Hhi. rewrite length_app in Hhi. cbn [length] in Hhi.
      constructor.
      * apply Matches_UpTo_Chr. split; [lia | assumption].
      * now constructor.
Qed.

Lemma dotted_labels_join (l : str) (ls : list str) :
  l ++ concat (map (fun x => "." ++ x) ls) = join "." (l :: ls).
Proof.
  revert l. induction ls as [| x ls IH]; intros l.
  - cbn. now rewrite app_nil_r.
  - cbn [map concat]. rewrite join_cons, <- IH, <- app_assoc. reflexivity.
Qed.

Lemma hostnameRegex_spec (s : str) :
  Matches hostnameRegex s <->
  exists labels : list str,
    labels <> [] /\ Forall valid_label labels /\ s = join "." labels.
Proof.
  unfold hostnameRegex. rewrite Matches_Cat_inv. split.
  - intros (l & t & -> & Hl & Ht).
    apply labelRegex_spec in Hl.
    apply Matches_Star_pieces in Ht as (pieces & Hall & ->).
    assert (Hp : exists ls, Forall valid_label ls /\
                            pieces = map (fun x => "." ++ x) ls).
    { induction Hall as [| p pieces Hp _ (ls & Hls & ->)].
      - exists []. auto.
      - apply Matches_Cat_inv in Hp as (d & x & -> & Hd & Hx).
        apply Matches_Chr_inv in Hd as (c & -> & Hc).
        apply Ascii.eqb_eq in Hc as <-. apply labelRegex_spec in Hx.
        exists (x :: ls). auto. }
    destruct Hp as (ls & Hls & ->).
    exists (l :: ls). rewrite dotted_labels_join.
    repeat split; [discriminate | now constructor].
  - intros (labels & Hne & Hall & ->).
    destruct labels as [| l ls]; [congruence |].
    inversion Hall as [| ? ? Hl Hls]; subst.
    exists l, (concat (map (fun x => "." ++ x) ls)). repeat split.
    + symmetry. apply dotted_labels_join.
    + now apply labelRegex_spec.
    + apply Matches_Star_pieces. exists (map (fun x => "." ++ x) ls).
      split; [| reflexivity].
      apply Forall_map. eapply Forall_impl; [| exact Hls].
      intros x Hx. change ("." ++ x) with (["."%char] ++ x).
      constructor; [constructor; apply Ascii.eqb_refl |].
      now apply labelRegex_spec.
Qed.

(** X1.  [isValidHostname] accepts exactly the strings of at most 253
    code units that are one or more labels joined by single dots, a label
    being one to 63 letters, digits or hyphens that neither begins nor ends
    with a hyphen. *)
Theorem isValidHostname_spec (hostname : str) :
  isValidHostname hostname = true <->
  length hostname <= 253 /\
  exists labels : list str,
    labels <> [] /\ Forall valid_label labels /\
    hostname = join "." labels.
Proof.
  unfold isValidHostname. rewrite <- hostnameRegex_spec.
  destruct (253 <? length hostname) eqn:E.
  - apply Nat.ltb_lt in E. split; [discriminate | lia].
  - apply Nat.ltb_ge in E. rewrite regex_test_Matches. tauto.
Qed.

(** ** Tokens and white space *)

Lemma trimEnd_token (t : str) :
  forallb (fun c => negb (is_space c)) t = true -> trimEnd t = t.
Proof.
  induction t as [| c t IH]; [reflexivity |].
  cbn [forallb trimEnd]. intros H. apply andb_true_iff in H as [Hc Ht].
  rewrite IH by assumption. apply negb_true_iff in Hc. rewrite Hc.
  destruct t; reflexivity.
Qed.

Lemma trimEnd_before_token (a t : str) :
  token t -> trimEnd (a ++ t) = a ++ t.
Proof.
  intros [Hne Ht]. induction a as [| c a IH]; cbn [app].
  - now apply trimEnd_token.
  - cbn [trimEnd]. rewrite IH.
    destruct (a ++ t) eqn:E; [| reflexivity].
    apply app_eq_nil in E as [_ E]. congruence.
Qed.

Lemma trimStart_token (t rest : str) :
  token t -> trimStart (t ++ rest) = t ++ rest.
Proof.
  intros [Hne Ht]. destruct t as [| c t]; [congruence |].
  cbn [forallb] in Ht. apply andb_true_iff in Ht as [Hc _].
  apply negb_true_iff in Hc. cbn [app trimStart]. now rewrite Hc.
Qed.

Lemma trim_token (t : str) :
  forallb (fun c => negb (is_space c)) t = true -> trim t = t.
Proof.
  intros Ht. unfold trim. destruct t as [| c t]; [reflexivity |].
  assert (Hs : trimStart (c :: t) = c :: t).
  { cbn [forallb] in Ht. apply andb_true_iff in Ht as [Hc _].
    apply negb_true_iff in Hc. cbn [trimStart]. now rewrite Hc. }
  rewrite Hs. now apply trimEnd_token.
Qed.

Lemma split_ws_go_token (t cur rest : str) :
  forallb (fun c => negb (is_space c)) t = true ->
  split_ws_go false cur (t ++ rest) = split_ws_go false (rev t ++ cur) rest.
Proof.
  revert cur. induction t as [| c t IH]; intros cur Ht; [reflexivity |].
  cbn [forallb] in Ht. apply andb_true_iff in Ht as [Hc Ht].
  apply negb_true_iff in Hc. cbn [app split_ws_go]. rewrite Hc.
  rewrite IH by assumption. cbn [rev]. now rewrite <- app_assoc.
Qed.

Lemma split_ws_go_start (b : bool) (t rest : str) :
  token t ->
  split_ws_go b [] (t ++ rest) = split_ws_go false (rev t) rest.
Proof.
  intros [Hne Ht]. destruct t as [| c t]; [congruence |].
  cbn [forallb] in Ht. apply andb_true_iff in Ht as [Hc Ht].
  apply negb_true_iff in Hc. cbn [app split_ws_go]. rewrite Hc.
  destruct b; rewrite split_ws_go_token by assumption; reflexivity.
Qed.

(** Tokens joined by single spaces split back into the tokens. *)
Lemma split_ws_join (ts : list str) :
  ts <> [] -> Forall token ts -> split_ws (join " " ts) = ts.
Proof.
  intros Hne Hall. unfold split_ws.
  enough (G : forall b, split_ws_go b [] (join " " ts) = ts) by apply G.
  induction Hall as [| t rest Ht Hrest IH]; [congruence |]. intros b.
  destruct rest as [| t2 rest].
  - cbn [join]. rewrite <- (app_nil_r t) at 1.
    rewrite split_ws_go_start by assumption.
    cbn [split_ws_go]. now rewrite rev_involutive.
  - rewrite join_cons, split_ws_go_start by assumption.
    change (list_ascii_of_string " ") with [" "%char].
    cbn [app split_ws_go]. change (is_space " ") with true. cbn iota.
    rewrite rev_involutive. f_equal. apply IH. discriminate.
Qed.

(** Whatever is split, the pieces hold no white space. *)
Lemma split_ws_go_pieces (s : str) (b : bool) (cur : str) :
  forallb (fun c => negb (is_space c)) cur = true ->
  Forall (fun t => forallb (fun c => negb (is_space c)) t = true)
         (split_ws_go b cur s).
Proof.
  revert b cur. induction s as [| c s IH]; intros b cur Hcur;
    cbn [split_ws_go].
  - constructor; [| constructor].
    rewrite forallb_forall in *. intros x Hx. apply Hcur.
    now apply in_rev.
  - destruct (is_space c) eqn:Ec.
    + destruct b; [now apply IH |].
      constructor; [| now apply IH].
      rewrite forallb_forall in *. intros x Hx. apply Hcur. now apply in_rev.
    + apply IH. cbn [forallb]. now rewrite Ec, Hcur.
Qed.

Lemma split_ws_pieces (s : str) :
  Forall (fun t => forallb (fun c => negb (is_space c)) t = true)
         (split_ws s).
Proof. now apply split_ws_go_pieces. Qed.

Lemma join_token_last (ts : list str) :
  ts <> [] -> Forall token ts ->
  exists a t, join " " ts = a ++ t /\ token t.
Proof.
  intros Hne Hall. induction Hall as [| t rest Ht Hrest IH]; [congruence |].
  destruct rest as [| t2 rest].
  - exists [], t. auto.
  - destruct IH as (a & u & E & Hu); [discriminate |].
    exists (t ++ " " ++ a), u. rewrite join_cons, E, <- !app_assoc. auto.
Qed.

Lemma trim_join_tokens (ts : list str) :
  ts <> [] -> Forall token ts -> trim (join " " ts) = join " " ts.
Proof.
  intros Hne Hall. unfold trim.
  destruct (join_token_last ts Hne Hall) as (a & u & E & Hu).
  assert (Hs : trimStart (join " " ts) = join " " ts).
  { destruct Hall as [| t rest Ht _]; [congruence |].
    destruct (join_starts " " t rest) as (x & ->).
    now apply trimStart_token. }
  rewrite Hs, E. now apply trimEnd_before_token.
Qed.

(** ** The entry editor *)

Lemma editor_pieces (text : str) :
  Forall token (filter truthy (map trim (split_ws text))).
Proof.
  pose proof (split_ws_pieces text) as H.
  induction H as [| t rest Ht _ IH]; [constructor |].
  cbn [map filter]. rewrite (trim_token t Ht).
  destruct t as [| c t]; [exact IH |].
  cbn [truthy]. constructor; [| exact IH].
  split; [discriminate | assumption].
Qed.

(** X2.  Whatever is typed into the editor, what [handleSave] hands on
    never changes the id or the enabled flag, and always carries a
    non-empty ip and at least one host name, each host name non-empty and
    without white space; a comment or group left empty is handed on as
    absent, never as the empty string. *)
Theorem handleSave_updates (s : EditorState) (u : PartialEntry) :
  handleSave s = Some u ->
  u_id u = None /\ u_enabled u = None
  /\ (exists ip0, u_ip u = Some ip0 /\ ip0 <> [])
  /\ (exists names, u_hostnames u = Some names /\ names <> [] /\
                    Forall token names)
  /\ u_comment u <> Some (Some []) /\ u_group u <> Some (Some []).
Proof.
  unfold handleSave.
  destruct (negb (truthy (ed_ip s))
            || (length (filter truthy (map trim (split_ws (ed_hostnames s))))
                =? 0)) eqn:E; [discriminate |].
  apply orb_false_iff in E as [Eip Elen].
  intros H. injection H as <-. cbn.
  repeat split.
  - exists (ed_ip s). split; [reflexivity |].
    destruct (ed_ip s); [discriminate | discriminate].
  - eexists. split; [reflexivity |]. split.
    + intros E0. rewrite E0 in Elen. discriminate.
    + apply editor_pieces.
  - unfold or_undefined. destruct (ed_comment s); cbn; discriminate.
  - unfold or_undefined. destruct (ed_group s); cbn; discriminate.
Qed.

Lemma handleSave_updates_witness :
  exists names,
    u_hostnames {| u_id := None; u_ip := Some ("10.0.0.9" : str);
                   u_hostnames := Some ["a.test" : str; "b.test" : str];
                   u_enabled := None; u_comment := Some None;
                   u_group := Some (Some ("dev" : str)) |}
    = Some names /\ names <> [] /\ Forall token names.
Proof.
  refine (proj1 (proj2 (proj2 (proj2
           (handleSave_updates
              {| ed_ip := "10.0.0.9"; ed_hostnames := "  a.test   b.test ";
                 ed_comment := []; ed_group := "dev" |} _ eq_refl))))).
Defined.

Lemma map_where_fixed {A : Type} (test : A -> bool) (f : A -> A)
    (l : list A) :
  (forall x, In x l -> test x = true -> f x = x) ->
  map (fun x => if test x then f x else x) l = l.
Proof.
  intros H. induction l as [| x l IH]; [reflexivity |].
  cbn [map]. rewrite IH by (intros y Hy; apply H; now right).
  destruct (test x) eqn:E; [| reflexivity].
  now rewrite (H x (or_introl eq_refl) E).
Qed.

Lemma spread_openEditor (e : HostEntry) (u : PartialEntry) :
  comment e <> Some [] -> group e <> Some [] ->
  hostnames e <> [] -> Forall token (hostnames e) ->
  handleSave (openEditor e) = Some u -> spread e u = e.
Proof.
  intros Hc Hg Hne Hall. unfold handleSave, openEditor. cbn [ed_ip ed_hostnames ed_comment ed_group].
  rewrite split_ws_join by assumption.
  assert (Hf : filter truthy (map trim (hostnames e)) = hostnames e).
  { clear Hne. induction Hall as [| t rest [Ht1 Ht2] _ IH]; [reflexivity |].
    cbn [map filter]. rewrite (trim_token t Ht2), IH.
    destruct t; [congruence | reflexivity]. }
  rewrite Hf.
  destruct (negb (truthy (ip e)) || (length (hostnames e) =? 0));
    [discriminate |].
  intros H. injection H as <-. unfold spread. cbn.
  destruct e as [i p h en c g]. cbn in *. f_equal.
  - destruct c as [[| x c] |]; [now elim Hc | reflexivity | reflexivity].
  - destruct g as [[| x g] |]; [now elim Hg | reflexivity | reflexivity].
Qed.

(** X3.  Opening the editor on an entry and saving without touching a
    field leaves the working list as it was, when the entry has an ip, at
    least one host name, host names that are non-empty and free of white
    space, no empty-string comment or group, and is the only entry with
    its id. *)
Theorem saveEdit_untouched (localeCompare : str -> str -> Z)
    (st : HostsStore) (e : HostEntry) :
  In e (entries st) ->
  (forall e', In e' (entries st) -> id e' = id e -> e' = e) ->
  ip e <> [] ->
  hostnames e <> [] -> Forall token (hostnames e) ->
  comment e <> Some [] -> group e <> Some [] ->
  handleSave (openEditor e) <> None
  /\ entries (saveEdit localeCompare e (openEditor e) st) = entries st.
Proof.
  intros Hin Huniq Hip Hne Hall Hc Hg. unfold saveEdit.
  destruct (handleSave (openEditor e)) as [u |] eqn:E.
  - split; [discriminate |].
    pose proof (spread_openEditor e u Hc Hg Hne Hall E) as Hs.
    unfold updateEntry. rewrite entries_applyFilters.
    cbn [entries set_entries].
    apply map_where_fixed. intros x Hx Ex.
    apply str_eqb_eq in Ex. now rewrite (Huniq x Hx Ex).
  - exfalso. unfold handleSave, openEditor in E.
    cbn [ed_ip ed_hostnames] in E.
    rewrite split_ws_join in E by assumption.
    assert (Hf : filter truthy (map trim (hostnames e)) <> []).
    { destruct Hall as [| t rest [Ht1 Ht2] _]; [congruence |].
      cbn [map filter]. rewrite (trim_token t Ht2).
      destruct t; [congruence | discriminate]. }
    destruct (filter truthy (map trim (hostnames e))); [congruence |].
    destruct (ip e); [congruence | discriminate].
Qed.

Lemma saveEdit_untouched_witness :
  entries (saveEdit codeunit_compare (devEntry true)
             (openEditor (devEntry true))
             (sampleStore [devEntry true] []))
  = [devEntry true].
Proof.
  refine (proj2 (saveEdit_untouched codeunit_compare
                   (sampleStore [devEntry true] []) (devEntry true)
                   (or_introl eq_refl) _ _ _ _ _ _)).
  - intros e' [<- | []] _. reflexivity.
  - discriminate.
  - discriminate.
  - repeat constructor; discriminate.
  - discriminate.
  - discriminate.
Defined.

(** ** Writing plain entries and reading them back *)

Lemma commentRegex_hash_free (s : str) :
  hash_free s -> commentRegex_exec s = None.
Proof.
  unfold hash_free. induction s as [| c s IH]; [reflexivity |].
  cbn [forallb commentRegex_exec]. intros H.
  apply andb_true_iff in H as [Hc Hs]. apply negb_true_iff in Hc.
  rewrite Hc. now apply IH.
Qed.

Lemma hash_free_join (ts : list str) :
  Forall hash_free ts -> hash_free (join " " ts).
Proof.
  unfold hash_free. induction 1 as [| t rest Ht _ IH]; [reflexivity |].
  destruct rest as [| t2 rest]; [exact Ht |].
  rewrite join_cons, !forallb_app, Ht, IH. reflexivity.
Qed.

Lemma plain_entry_pieces (e : HostEntry) :
  plain_entry e ->
  Forall token (ip e :: hostnames e) /\
  Forall hash_free (ip e :: hostnames e).
Proof.
  intros (_ & Hip & Hh & _ & Hall & _). split; constructor; try assumption.
  - eapply Forall_impl; [| exact Hall]. now intros h [H _].
  - eapply Forall_impl; [| exact Hall]. now intros h [_ H].
Qed.

(** The line of a plain entry, without the marker of a disabled one. *)
Lemma plain_entry_line (e : HostEntry) :
  plain_entry e ->
  ip e ++ " " ++ join " " (hostnames e) = join " " (ip e :: hostnames e).
Proof.
  intros (_ & _ & _ & Hne & _). destruct (hostnames e); [congruence |].
  now rewrite join_cons.
Qed.

Lemma parseEntryLine_plain (e : HostEntry) (k : nat) :
  plain_entry e ->
  parseEntryLine (join " " (ip e :: hostnames e)) k
  = Some (set_enabled true (reread k e)).
Proof.
  intros He. destruct (plain_entry_pieces e He) as [Htok Hhash].
  destruct He as (Hip & _ & _ & Hne & Hall & _).
  unfold parseEntryLine.
  rewrite split_ws_join by (discriminate || assumption).
  destruct (hostnames e) as [| h rest] eqn:Eh; [congruence |].
  assert (Hf : filter (fun x => truthy x && negb (startsWith "#" x))
                      (h :: rest) = h :: rest).
  { apply forallb_filter_id. apply forallb_forall. intros x Hx.
    rewrite Forall_forall in Hall. destruct (Hall x Hx) as [[Hx1 _] Hx2].
    destruct x as [| c x]; [congruence |].
    unfold hash_free in Hx2. cbn [forallb] in Hx2.
    apply andb_true_iff in Hx2 as [Hc _]. cbn [truthy andb].
    unfold chr_is in Hc. change (list_ascii_of_string "#") with ["#"%char].
    cbn [startsWith]. now rewrite andb_true_r. }
  cbn [length Nat.ltb Nat.leb hd tl]. rewrite Hip, Hf. cbn [negb].
  rewrite commentRegex_hash_free by now apply hash_free_join.
  unfold set_enabled, reread. cbn [option_map ip hostnames comment group id].
  now rewrite Eh.
Qed.

Lemma formatEntry_plain (e : HostEntry) :
  plain_entry e ->
  formatEntry e
  = [(if enabled e then [] else "# ") ++ join " " (ip e :: hostnames e)].
Proof.
  intros He. unfold formatEntry. rewrite (plain_entry_line e He).
  destruct He as (_ & _ & _ & _ & _ & Hc). rewrite Hc.
  destruct (enabled e); reflexivity.
Qed.

Lemma parse_step_plain (lines : list str) (i : nat) (e : HostEntry)
    (acc : list HostEntry) (k : nat) :
  plain_entry e ->
  parse_step lines i
    ((if enabled e then [] else "# ") ++ join " " (ip e :: hostnames e))
    {| ps_entries := acc; ps_entryId := k |}
  = {| ps_entries := acc ++ [reread k e]; ps_entryId := S k |}.
Proof.
  intros He. destruct (plain_entry_pieces e He) as [Htok Hhash].
  assert (Hline : trim (join " " (ip e :: hostnames e))
                  = join " " (ip e :: hostnames e)).
  { apply trim_join_tokens; [discriminate | assumption]. }
  assert (Hnot : startsWith "#" (join " " (ip e :: hostnames e)) = false).
  { destruct (join_starts " " (ip e) (hostnames e)) as (x & ->).
    destruct He as (_ & [Hne _] & Hh & _).
    destruct (ip e) as [| c t]; [congruence |].
    unfold hash_free in Hh. cbn [forallb] in Hh.
    apply andb_true_iff in Hh as [Hc _]. apply negb_true_iff in Hc.
    change (list_ascii_of_string "#") with ["#"%char].
    cbn [app startsWith]. unfold chr_is in Hc. now rewrite Hc. }
  assert (Htruthy : truthy (join " " (ip e :: hostnames e)) = true).
  { destruct (join_starts " " (ip e) (hostnames e)) as (x & ->).
    destruct He as (_ & [Hne _] & _).
    destruct (ip e); [congruence | reflexivity]. }
  unfold parse_step. cbn [ps_entries ps_entryId].
  destruct (enabled e) eqn:En.
  - cbn [app]. rewrite Hline, Htruthy, Hnot. cbn [negb].
    rewrite parseEntryLine_plain by assumption.
    unfold set_enabled, reread.
    cbn [ip hostnames comment group id enabled]. now rewrite En.
  - assert (Hraw : trim ("# " ++ join " " (ip e :: hostnames e))
                   = "# " ++ join " " (ip e :: hostnames e)).
    { unfold trim. change (trimStart ("# " ++ ?x)) with ("# " ++ x).
      destruct (join_token_last (ip e :: hostnames e)) as (a & t & E & Ht);
        [discriminate | assumption |].
      rewrite E, app_assoc. now apply trimEnd_before_token. }
    rewrite Hraw. change (truthy ("# " ++ ?x)) with true.
    change (startsWith "#" ("# " ++ ?x)) with true. cbn [negb].
    change (substring_from 1 ("# " ++ ?x)) with (" " ++ x).
    assert (Hin : trim (" " ++ join " " (ip e :: hostnames e))
                  = join " " (ip e :: hostnames e)).
    { unfold trim. change (trimStart (" " ++ ?x)) with (trimStart x).
      exact Hline. }
    rewrite Hin, parseEntryLine_plain by assumption.
    unfold set_enabled, reread.
    cbn [ip hostnames comment group id enabled]. now rewrite En.
Qed.

Lemma parse_loop_plain (lines : list str) (l : list HostEntry) :
  Forall plain_entry l ->
  forall (i k : nat) (acc : list HostEntry) (tail : list str),
    parse_loop lines i (flat_map formatEntry l ++ tail)
               {| ps_entries := acc; ps_entryId := k |}
    = parse_loop lines (i + length l) tail
                 {| ps_entries := acc ++ reread_from k l;
                    ps_entryId := k + length l |}.
Proof.
  induction 1 as [| e rest He _ IH]; intros i k acc tail.
  - cbn. now rewrite app_nil_r, !Nat.add_0_r.
  - cbn [flat_map]. rewrite (formatEntry_plain e He).
    cbn [app parse_loop]. rewrite parse_step_plain by assumption.
    rewrite IH. cbn [length reread_from].
    rewrite <- app_assoc. cbn [app].
    now rewrite !Nat.add_succ_r.
Qed.

Lemma plain_lines_without_LF (l : list HostEntry) :
  Forall plain_entry l ->
  Forall (fun line : str => ~ In LF line) (flat_map formatEntry l).
Proof.
  induction 1 as [| e rest He _ IH]; [constructor |].
  cbn [flat_map]. rewrite (formatEntry_plain e He). cbn [app].
  constructor; [| exact IH].
  destruct (plain_entry_pieces e He) as [Htok _].
  intros Hin. apply in_app_or in Hin as [Hin | Hin].
  - destruct (enabled e); [destruct Hin |].
    revert Hin. now apply not_In_by_eqb.
  - apply In_join in Hin as [Hin | (t & Ht & Hin)].
    + destruct Hin as [Hin | []]. discriminate.
    + rewrite Forall_forall in Htok. destruct (Htok t Ht) as [_ Hws].
      rewrite forallb_forall in Hws. apply Hws in Hin. discriminate.
Qed.

Lemma reread_from_fields (k : nat) (l : list HostEntry) :
  map ip (reread_from k l) = map ip l /\
  map hostnames (reread_from k l) = map hostnames l /\
  map enabled (reread_from k l) = map enabled l /\
  map id (reread_from k l) = map entry_id_of (seq k (length l)).
Proof.
  revert k. induction l as [| e rest IH]; intros k; [repeat split |].
  destruct (IH (S k)) as (H1 & H2 & H3 & H4). cbn.
  now rewrite H1, H2, H3, H4.
Qed.

Lemma parse_stringify_reread (now : str) (l : list HostEntry) :
  ~ In LF now -> Forall plain_entry l ->
  parse (stringify now l) = reread_from 2 l.
Proof.
  intros Hnow Hall.
  rewrite parse_document;
    [| assumption | now apply plain_lines_without_LF].
  rewrite parse_loop_plain by assumption.
  cbn [parse_loop]. rewrite parse_step_blank. reflexivity.
Qed.

(** X4.  Plain entries survive a write and a read: for a list of entries
    that each have a valid address, at least one host name, tokens
    without [#] for all of them and no comment, [parse] of what
    [stringify] wrote (at any time [now]) returns as many entries, in the
    same order, with the same addresses, host names and enabled flags.
    The ids are "entry-2", "entry-3", ... (the two header lines use up 0
    and 1), and every group is gone. *)
Theorem parse_stringify_plain (now : str) (l : list HostEntry) :
  ~ In LF now ->
  Forall plain_entry l ->
  parse (stringify now l) = reread_from 2 l
  /\ map ip (parse (stringify now l)) = map ip l
  /\ map hostnames (parse (stringify now l)) = map hostnames l
  /\ map enabled (parse (stringify now l)) = map enabled l
  /\ map id (parse (stringify now l)) = map entry_id_of (seq 2 (length l))
  /\ Forall (fun e => group e = None /\ comment e = None)
            (parse (stringify now l)).
Proof.
  intros Hnow Hall.
  rewrite (parse_stringify_reread now l Hnow Hall). split; [reflexivity |].
  destruct (reread_from_fields 2 l) as (H1 & H2 & H3 & H4).
  repeat split; try assumption.
  clear. generalize 2. induction l as [| e rest IH]; intros k;
    cbn [reread_from]; constructor; auto.
Qed.

Lemma parse_stringify_plain_witness :
  parse (stringify "2026-01-01T00:00:00.000Z"
           [sampleEntry "a" "127.0.0.1" ["localhost" : str];
            set_enabled false
              (sampleEntry "b" "10.0.0.5" ["a.test" : str; "b.test" : str])])
  = reread_from 2
      [sampleEntry "a" "127.0.0.1" ["localhost" : str];
       set_enabled false
         (sampleEntry "b" "10.0.0.5" ["a.test" : str; "b.test" : str])].
Proof.
  refine (proj1 (parse_stringify_plain "2026-01-01T00:00:00.000Z" _ _ _)).
  - now apply not_In_by_eqb.
  - repeat constructor; discriminate.
Defined.

Lemma hostname_units (c : ascii) :
  is_alnum_dash c || chr_is "." c = true ->
  is_space c = false /\ chr_is "#" c = false.
Proof.
  destruct c as [[] [] [] [] [] [] [] []]; vm_compute; intros H;
    first [discriminate H | split; reflexivity].
Qed.

Lemma valid_label_units (l : str) :
  valid_label l ->
  l <> [] /\ forallb (fun c => is_alnum_dash c || chr_is "." c) l = true.
Proof.
  intros ([Hlo _] & Hall & _). split.
  - intros ->. cbn in Hlo. lia.
  - rewrite forallb_forall in *. intros c Hc. now rewrite (Hall c Hc).
Qed.

Lemma isValidHostname_token (h : str) :
  isValidHostname h = true -> token h /\ hash_free h.
Proof.
  intros H. apply isValidHostname_spec in H as (_ & labels & Hne & Hall & ->).
  assert (Hu : forallb (fun c => is_alnum_dash c || chr_is "." c)
                       (join "." labels) = true).
  { apply forallb_forall. intros c Hc.
    apply In_join in Hc as [Hc | (l & Hl & Hc)].
    - destruct Hc as [<- | []]. reflexivity.
    - rewrite Forall_forall in Hall.
      destruct (valid_label_units l (Hall l Hl)) as [_ Hu].
      rewrite forallb_forall in Hu. now apply Hu. }
  repeat split.
  - destruct labels as [| l rest]; [congruence |].
    destruct (join_starts "." l rest) as (t & ->).
    inversion Hall as [| ? ? Hl _]; subst.
    destruct (valid_label_units l Hl) as [Hl0 _].
    destruct l; [congruence | discriminate].
  - rewrite forallb_forall in *. intros c Hc.
    now destruct (hostname_units c (Hu c Hc)) as [-> _].
  - unfold hash_free. rewrite forallb_forall in *. intros c Hc.
    now destruct (hostname_units c (Hu c Hc)) as [_ ->].
Qed.

(** X5.  What the write guard lets through can be read back: entries
    that [validateEntry] accepts, that have no comment, and whose address
    is a token without [#], come back from [parse] of the [stringify]
    text with the same addresses, host names and enabled flags, in the
    same order. *)
Theorem validated_entries_reread (now : str) (l : list HostEntry) :
  ~ In LF now ->
  Forall (fun e => valid (validateEntry e) = true /\
                   token (ip e) /\ hash_free (ip e) /\
                   truthy_opt (comment e) = false) l ->
  map (fun e => (ip e, hostnames e, enabled e)) (parse (stringify now l))
  = map (fun e => (ip e, hostnames e, enabled e)) l.
Proof.
  intros Hnow Hall.
  assert (Hplain : Forall plain_entry l).
  { eapply Forall_impl; [| exact Hall].
    intros e (Hv & Htok & Hh & Hc).
    rewrite validateEntry_valid in Hv. apply negb_true_iff in Hv.
    unfold invalid_entryb in Hv.
    apply orb_false_iff in Hv as [Hv H3].
    apply orb_false_iff in Hv as [H1 H2].
    apply negb_false_iff in H1.
    split; [assumption |]. split; [assumption |]. split; [assumption |].
    split; [| split; [| assumption]].
    - destruct (hostnames e); [discriminate H2 | discriminate].
    - apply Forall_forall. intros h Hin.
      apply isValidHostname_token.
      destruct (isValidHostname h) eqn:E; [reflexivity |].
      assert (existsb (fun h => negb (isValidHostname h)) (hostnames e)
              = true); [| congruence].
      apply existsb_exists. exists h. now rewrite E. }
  rewrite (parse_stringify_reread now l Hnow Hplain). clear. generalize 2.
  induction l as [| e rest IH]; intros k; [reflexivity |].
  cbn [reread_from map]. now rewrite IH.
Qed.

Lemma validated_entries_reread_witness :
  map (fun e => (ip e, hostnames e, enabled e))
      (parse (stringify "2026-01-01T00:00:00.000Z"
                [sampleEntry "a" "::1" ["ip6-localhost" : str]]))
  = [("::1" : str, ["ip6-localhost" : str], true)].
Proof.
  refine (validated_entries_reread "2026-01-01T00:00:00.000Z"
            [sampleEntry "a" "::1" ["ip6-localhost" : str]] _ _).
  - now apply not_In_by_eqb.
  - repeat constructor; discriminate.
Defined.

(** ** What [parse] returns *)

Lemma trimEnd_prefix (s : str) : exists z, s = trimEnd s ++ z.
Proof.
  induction s as [| c s (z & IH)]; [now exists [] |].
  cbn [trimEnd]. destruct (trimEnd s) as [| x t] eqn:E.
  - destruct (is_space c); [now exists (c :: s) |].
    exists s. reflexivity.
  - exists z. rewrite IH at 1. reflexivity.
Qed.

Lemma trimEnd_last (s : str) :
  trimEnd s <> [] -> is_space (last (trimEnd s) " "%char) = false.
Proof.
  induction s as [| c s IH]; intros H; [now elim H |].
  cbn [trimEnd] in *. destruct (trimEnd s) as [| x t] eqn:E.
  - destruct (is_space c) eqn:Ec; [now elim H | exact Ec].
  - change (last (c :: x :: t) " "%char) with (last (x :: t) " "%char).
    apply IH. discriminate.
Qed.

Lemma trimStart_head (s : str) :
  is_space (hd "a"%char (trimStart s)) = false.
Proof.
  induction s as [| c s IH]; [reflexivity |].
  cbn [trimStart]. destruct (is_space c) eqn:E; [exact IH | exact E].
Qed.

Lemma trim_ends (s : str) :
  trim s <> [] ->
  is_space (hd "a"%char (trim s)) = false /\
  is_space (last (trim s) " "%char) = false.
Proof.
  unfold trim. intros H. split; [| now apply trimEnd_last].
  pose proof (trimStart_head s) as Hh.
  destruct (trimEnd_prefix (trimStart s)) as (z & E).
  destruct (trimEnd (trimStart s)) as [| c t]; [now elim H |].
  rewrite E in Hh. exact Hh.
Qed.

Lemma trim_idem (s : str) : pre_trimmed (trim s).
Proof.
  unfold pre_trimmed. destruct (trim s) as [| c t] eqn:E; [reflexivity |].
  assert (Hne : trim s <> []) by (rewrite E; discriminate).
  destruct (trim_ends s Hne) as [Hh Hl]. rewrite E in Hh, Hl.
  unfold trim at 1. cbn [hd] in Hh. cbn [trimStart]. rewrite Hh.
  apply trimEnd_id; [discriminate | assumption].
Qed.

(** The group of the comment pattern is a non-empty end of the input. *)
Lemma ws_star_then_group_suffix (s g : str) :
  ws_star_then_group s = Some g -> g <> [] /\ exists a, s = a ++ g.
Proof.
  revert g. induction s as [| c s IH]; intros g; [discriminate |].
  cbn [ws_star_then_group].
  assert (Hd : (if dot_plus_end (c :: s) then Some (c :: s) else None)
               = Some g -> g <> [] /\ exists a, c :: s = a ++ g).
  { destruct (dot_plus_end (c :: s)); [| discriminate].
    intros H. injection H as <-. split; [discriminate | now exists []]. }
  destruct (is_space c); [| exact Hd].
  destruct (ws_star_then_group s) as [g' |]; [| exact Hd].
  intros H. injection H as ->. destruct (IH g eq_refl) as (Hne & a & ->).
  split; [assumption | now exists (c :: a)].
Qed.

Lemma commentRegex_exec_suffix (s g : str) :
  commentRegex_exec s = Some g -> g <> [] /\ exists a, s = a ++ g.
Proof.
  revert g. induction s as [| c s IH]; intros g; [discriminate |].
  cbn [commentRegex_exec].
  assert (Hr : commentRegex_exec s = Some g ->
               g <> [] /\ exists a, c :: s = a ++ g).
  { intros H. destruct (IH g H) as (Hne & a & ->).
    split; [assumption | now exists (c :: a)]. }
  destruct (chr_is "#" c); [| exact Hr].
  destruct (ws_star_then_group s) as [g' |] eqn:E; [| exact Hr].
  intros H. injection H as ->.
  destruct (ws_star_then_group_suffix s g E) as (Hne & a & ->).
  split; [assumption | now exists (c :: a)].
Qed.

Lemma last_app_nonempty {A : Type} (a g : list A) (d : A) :
  g <> [] -> last (a ++ g) d = last g d.
Proof.
  intros Hne. induction a as [| x a IH]; [reflexivity |].
  cbn [app]. destruct (a ++ g) eqn:E.
  - apply app_eq_nil in E as [_ E]. congruence.
  - rewrite <- IH. reflexivity.
Qed.

Lemma parseEntryLine_parsed (line : str) (k : nat) (e : HostEntry) :
  pre_trimmed line -> parseEntryLine line k = Some e -> parsed_entry e.
Proof.
  intros Ht. unfold parseEntryLine.
  destruct (length (split_ws line) <? 2); [discriminate |].
  destruct (isValidIP (hd [] (split_ws line))) eqn:Eip; [| discriminate].
  cbn [negb]. intros H. injection H as <-.
  unfold parsed_entry. cbn [ip hostnames group comment].
  repeat split; try assumption.
  - apply Forall_forall. intros h Hh. apply filter_In in Hh as [Hin Hf].
    apply andb_true_iff in Hf as [Hf1 Hf2]. apply negb_true_iff in Hf2.
    repeat split; try assumption.
    + destruct h; [discriminate | discriminate].
    + pose proof (split_ws_pieces line) as Hp.
      rewrite Forall_forall in Hp. apply Hp.
      destruct (split_ws line); [destruct Hin | now right].
  - destruct (commentRegex_exec line) as [g |] eqn:Eg; [| discriminate].
    cbn [option_map]. intros H. injection H as H.
    destruct (commentRegex_exec_suffix line g Eg) as (Hne & a & El).
    assert (Hline : line <> []).
    { intros ->. destruct a; [cbn in El; congruence | discriminate]. }
    destruct (pre_trimmed_ends line Ht Hline) as [_ Hl].
    rewrite El, last_app_nonempty in Hl by assumption.
    pose proof (trim_nonempty g Hne Hl) as Htr. rewrite H in Htr.
    discriminate.
Qed.

Lemma update_last_Forall (P : HostEntry -> Prop) (f : HostEntry -> HostEntry)
    (l : list HostEntry) :
  (forall e, P e -> P (f e)) -> Forall P l -> Forall P (update_last f l).
Proof.
  intros Hf. induction 1 as [| e rest He Hrest IH]; [constructor |].
  destruct rest as [| e' rest]; [repeat constructor; auto |].
  change (update_last f (e :: e' :: rest))
    with (e :: update_last f (e' :: rest)).
  constructor; assumption.
Qed.

Lemma parse_step_parsed (lines : list str) (i : nat) (raw : str)
    (st : parse_state) :
  Forall parsed_entry (ps_entries st) ->
  Forall parsed_entry (ps_entries (parse_step lines i raw st)).
Proof.
  intros Hst. unfold parse_step.
  destruct (negb (truthy (trim raw))); [assumption |].
  destruct (startsWith "#" (trim raw)).
  - destruct (parseEntryLine _ _) as [e |] eqn:E; cbn [ps_entries].
    + apply Forall_app. split; [assumption |].
      constructor; [| constructor].
      apply parseEntryLine_parsed in E; [| apply trim_idem].
      destruct E as (H1 & H2 & H3 & H4). repeat split; assumption.
    + unfold handleCommentLine.
      destruct ((length (ps_entries st) =? 0) || (i =? 0)); [assumption |].
      destruct (option_map trim (nth_error lines (i - 1))) as [p |];
        [| assumption].
      destruct (truthy p && negb (startsWith "#" p)); [| assumption].
      destruct (truthy (trim (substring_from 1 (trim raw)))) eqn:Etr;
        [| assumption].
      apply update_last_Forall; [| assumption].
      intros e (H1 & H2 & H3 & H4). repeat split; try assumption.
      cbn [comment set_comment]. intros H. injection H as H.
      change (trim (substring_from 1 (trim raw)) = []) in H.
      rewrite H in Etr. discriminate.
  - destruct (parseEntryLine _ _) as [e |] eqn:E; cbn [ps_entries];
      [| assumption].
    apply Forall_app. split; [assumption |].
    constructor; [| constructor].
    apply parseEntryLine_parsed in E; [assumption | apply trim_idem].
Qed.

Lemma parse_loop_parsed (lines todo : list str) (i : nat)
    (st : parse_state) :
  Forall parsed_entry (ps_entries st) ->
  Forall parsed_entry (ps_entries (parse_loop lines i todo st)).
Proof.
  revert i st. induction todo as [| raw todo IH]; intros i st H.
  - exact H.
  - cbn [parse_loop]. apply IH. now apply parse_step_parsed.
Qed.

(** X6.  Every entry that [parse] returns, for any text, has an address
    that [isValidIP] accepts, host names that are non-empty, free of white
    space and do not begin with [#], no group, and a comment that is
    absent or not empty. *)
Theorem parse_entries_wellformed (text : str) :
  Forall parsed_entry (parse text).
Proof.
  unfold parse, parse_lines. apply parse_loop_parsed. constructor.
Qed.

(** ** The store: what is flagged as unsaved *)

Lemma find_by_unique_id (l : list HostEntry) (e : HostEntry) :
  NoDup (map id l) -> In e l ->
  find (fun o => str_eqb (id o) (id e)) l = Some e.
Proof.
  induction l as [| x l IH]; intros Hnd Hin; [destruct Hin |].
  cbn [map] in Hnd. inversion Hnd as [| ? ? Hx Hl]; subst.
  cbn [find]. destruct Hin as [-> | Hin].
  - now rewrite str_eqb_refl.
  - destruct (str_eqb (id x) (id e)) eqn:E; [| now apply IH].
    apply str_eqb_eq in E. exfalso. apply Hx. rewrite E.
    now apply in_map.
Qed.

Lemma isEntryUnsaved_same (localeCompare : str -> str -> Z)
    (st : HostsStore) (e : HostEntry) :
  find (fun o => str_eqb (id o) (id e)) (originalEntries st) = Some e ->
  isEntryUnsaved localeCompare st e = false.
Proof.
  intros Hf. apply not_true_is_false.
  rewrite (isEntryUnsaved_found localeCompare st e e Hf). tauto.
Qed.

Lemma isEntryUnsaved_original (localeCompare : str -> str -> Z)
    (st st' : HostsStore) (e : HostEntry) :
  originalEntries st' = originalEntries st ->
  isEntryUnsaved localeCompare st' e = isEntryUnsaved localeCompare st e.
Proof. unfold isEntryUnsaved. now intros ->. Qed.

Lemma nothing_unsaved (localeCompare : str -> str -> Z) (st : HostsStore) :
  in_sync st ->
  Forall (fun e => isEntryUnsaved localeCompare st e = false) (entries st).
Proof.
  intros [Ho Hnd]. apply Forall_forall. intros e He.
  apply isEntryUnsaved_same. rewrite Ho. now apply find_by_unique_id.
Qed.

Lemma nothing_flagged_in_sync (localeCompare : str -> str -> Z)
    (st : HostsStore) :
  in_sync st -> nothing_flagged localeCompare st.
Proof.
  intros Hs. pose proof (nothing_unsaved localeCompare st Hs) as Hn.
  split; [exact Hn |].
  unfold setFilterStatus, applyFilters.
  cbn [entries originalEntries filteredEntries searchQuery filterStatus
       sortBy sortOrder set_filteredEntries].
  assert (Hnone : forall l0 : list HostEntry,
             Forall (fun e => isEntryUnsaved localeCompare st e = false) l0 ->
             forall f, (forall e, f e = isEntryUnsaved localeCompare st e) ->
                       filter f l0 = []).
  { induction 1 as [| e l0 He _ IH]; intros f Hf; [reflexivity |].
    cbn [filter]. rewrite Hf, He. now apply IH. }
  rewrite Hnone.
  - now destruct (sortBy st).
  - destruct (truthy (searchQuery st)); [| exact Hn].
    apply Forall_forall. intros e He. apply filter_In in He as [He _].
    rewrite Forall_forall in Hn. now apply Hn.
  - intros e. now apply isEntryUnsaved_original.
Qed.

(** X7.  After [setEntries] with a list of distinct ids, after
    [markAsSaved] on a working list of distinct ids, and after
    [discardChanges] onto a saved list of distinct ids, no entry of the
    working list is unsaved, and the projection for the status "unsaved"
    is empty. *)
Theorem nothing_unsaved_after_sync (localeCompare : str -> str -> Z)
    (st : HostsStore) (l : list HostEntry) :
  (NoDup (map id l) ->
   nothing_flagged localeCompare (setEntries localeCompare l st))
  /\ (NoDup (map id (entries st)) ->
      nothing_flagged localeCompare (markAsSaved localeCompare st))
  /\ (NoDup (map id (originalEntries st)) ->
      nothing_flagged localeCompare (discardChanges localeCompare st)).
Proof.
  split; [| split]; intros Hnd; apply nothing_flagged_in_sync;
    (split; [reflexivity | exact Hnd]).
Qed.

Lemma nothing_unsaved_after_sync_witness :
  nothing_flagged codeunit_compare
    (markAsSaved codeunit_compare
       (sampleStore [devEntry true; sampleEntry "2" "::1" ["six" : str]] [])).
Proof.
  refine (proj1 (proj2 (nothing_unsaved_after_sync codeunit_compare
                          (sampleStore [devEntry true;
                                        sampleEntry "2" "::1" ["six" : str]] [])
                          [])) _).
  cbn. repeat constructor; cbn; intuition discriminate.
Defined.

(** ** The store: the edit operations *)

Lemma set_enabled_twice (e : HostEntry) :
  set_enabled (negb (enabled (set_enabled (negb (enabled e)) e)))
              (set_enabled (negb (enabled e)) e) = e.
Proof.
  destruct e as [i p h en c g]. unfold set_enabled. cbn.
  now rewrite negb_involutive.
Qed.

(** X8.  Toggling the same id twice gives back the working list entry by
    entry, whatever the ids in the list, and never touches the saved
    list. *)
Theorem toggleEntry_twice (localeCompare : str -> str -> Z)
    (st : HostsStore) (id0 : str) :
  entries (toggleEntry localeCompare id0 (toggleEntry localeCompare id0 st))
  = entries st
  /\ originalEntries
       (toggleEntry localeCompare id0 (toggleEntry localeCompare id0 st))
     = originalEntries st.
Proof.
  split; [| reflexivity].
  unfold toggleEntry. rewrite !entries_applyFilters.
  cbn [entries set_entries]. rewrite map_map.
  induction (entries st) as [| e l IH]; [reflexivity |].
  cbn [map]. rewrite IH. f_equal.
  destruct (str_eqb (id e) id0) eqn:E.
  - change (id (set_enabled (negb (enabled e)) e)) with (id e).
    rewrite E. apply set_enabled_twice.
  - now rewrite E.
Qed.

(** X9.  In a store that is in sync (working list equal to the saved
    one, distinct ids), toggling an id flags exactly the entries with that
    id: after [toggleEntry], an entry of the working list is unsaved if
    and only if its id is the toggled one. *)
Theorem toggleEntry_flags (localeCompare : str -> str -> Z)
    (st : HostsStore) (id0 : str) (e : HostEntry) :
  in_sync st ->
  In e (entries (toggleEntry localeCompare id0 st)) ->
  isEntryUnsaved localeCompare (toggleEntry localeCompare id0 st) e = true
  <-> id e = id0.
Proof.
  intros [Ho Hnd] Hin.
  unfold toggleEntry in Hin. rewrite entries_applyFilters in Hin.
  cbn [entries set_entries] in Hin.
  apply in_map_iff in Hin as (x & Hx & Hin).
  assert (Hf : find (fun o => str_eqb (id o) (id e))
                    (originalEntries (toggleEntry localeCompare id0 st))
               = Some x).
  { change (originalEntries (toggleEntry localeCompare id0 st))
      with (originalEntries st).
    rewrite Ho. replace (id e) with (id x).
    - now apply find_by_unique_id.
    - rewrite <- Hx. now destruct (str_eqb (id x) id0). }
  rewrite (isEntryUnsaved_found _ _ e x Hf).
  destruct (str_eqb (id x) id0) eqn:E; subst e.
  - apply str_eqb_eq in E. split; [intros _; exact E | intros _].
    right. left. cbn. now destruct (enabled x).
  - apply str_eqb_neq in E. split; [| contradiction].
    intros [H | [H | [H | [H | H]]]]; now elim H.
Qed.

Lemma toggleEntry_flags_witness :
  isEntryUnsaved codeunit_compare
    (toggleEntry codeunit_compare "1"
       (sampleStore [devEntry true] [devEntry true]))
    (devEntry false) = true
  <-> id (devEntry false) = "1".
Proof.
  refine (toggleEntry_flags codeunit_compare
            (sampleStore [devEntry true] [devEntry true]) "1"
            (devEntry false) _ _).
  - split; [reflexivity |]. cbn. repeat constructor. intros [].
  - left. reflexivity.
Defined.

(** X10.  Deleting is not seen by the unsaved flags: in a store that is
    in sync, after [deleteEntry] of the id of one of its entries, the
    working list has lost that entry and differs from the saved list, yet
    no entry of the working list is unsaved.  Deleting the same id again
    changes nothing. *)
Theorem deleteEntry_unflagged (localeCompare : str -> str -> Z)
    (st : HostsStore) (victim : HostEntry) :
  in_sync st ->
  In victim (entries st) ->
  let st' := deleteEntry localeCompare (id victim) st in
  ~ In victim (entries st')
  /\ entries st' <> originalEntries st'
  /\ Forall (fun e => isEntryUnsaved localeCompare st' e = false)
            (entries st')
  /\ entries (deleteEntry localeCompare (id victim) st') = entries st'.
Proof.
  intros [Ho Hnd] Hin. cbv zeta.
  unfold deleteEntry. rewrite !entries_applyFilters.
  cbn [entries originalEntries set_entries].
  set (keep := fun entry => negb (str_eqb (id entry) (id victim))).
  assert (Hout : ~ In victim (filter keep (entries st))).
  { intros H. apply filter_In in H as [_ H]. unfold keep in H.
    rewrite str_eqb_refl in H. discriminate. }
  repeat split.
  - exact Hout.
  - change (originalEntries (applyFilters localeCompare
              (set_entries (filter keep (entries st)) st)))
      with (originalEntries st).
    rewrite Ho. intros E. rewrite E in Hout. contradiction.
  - apply Forall_forall. intros e He. apply filter_In in He as [He _].
    apply isEntryUnsaved_same.
    change (originalEntries (applyFilters localeCompare
              (set_entries (filter keep (entries st)) st)))
      with (originalEntries st).
    rewrite Ho. now apply find_by_unique_id.
  - clear. generalize (entries st) as l.
    induction l as [| x l IH]; [reflexivity |].
    cbn [filter]. destruct (keep x) eqn:E; [| exact IH].
    cbn [filter]. now rewrite E, IH.
Qed.

Lemma deleteEntry_unflagged_witness :
  Forall (fun e =>
            isEntryUnsaved codeunit_compare
              (deleteEntry codeunit_compare "1"
                 (sampleStore [devEntry true; sampleEntry "2" "::1" []]
                              [devEntry true; sampleEntry "2" "::1" []]))
              e = false)
         [sampleEntry "2" "::1" []].
Proof.
  refine (proj1 (proj2 (proj2
           (deleteEntry_unflagged codeunit_compare
              (sampleStore [devEntry true; sampleEntry "2" "::1" []]
                           [devEntry true; sampleEntry "2" "::1" []])
              (devEntry true) _ _)))).
  - split; [reflexivity |]. cbn. repeat constructor; cbn; intuition discriminate.
  - left. reflexivity.
Defined.

(** X11.  [addEntry] puts the new entry last and leaves the others as
    they are; what counts as unsaved among the entries there before does
    not change, and the new entry counts as unsaved as long as no saved
    entry carries its id. *)
Theorem addEntry_flagged (localeCompare : str -> str -> Z)
    (st : HostsStore) (entryData : HostEntry) (newId : str) :
  let st' := addEntry localeCompare entryData newId st in
  (exists newEntry,
      entries st' = entries st ++ [newEntry] /\ id newEntry = newId /\
      ip newEntry = ip entryData /\
      hostnames newEntry = hostnames entryData /\
      enabled newEntry = enabled entryData /\
      ((forall o, In o (originalEntries st) -> id o <> newId) ->
       isEntryUnsaved localeCompare st' newEntry = true))
  /\ (forall e, isEntryUnsaved localeCompare st' e
                = isEntryUnsaved localeCompare st e).
Proof.
  cbv zeta. split; [| intros e; now apply isEntryUnsaved_original].
  eexists. split; [reflexivity |]. repeat split.
  intros Hfresh. unfold isEntryUnsaved.
  change (originalEntries (addEntry localeCompare entryData newId st))
    with (originalEntries st).
  destruct (find _ (originalEntries st)) as [o |] eqn:E; [| reflexivity].
  apply find_some in E as [Hin Hid]. apply str_eqb_eq in Hid.
  cbn [id] in Hid. now apply Hfresh in Hin.
Qed.

Lemma addEntry_flagged_witness :
  isEntryUnsaved codeunit_compare
    (addEntry codeunit_compare (sampleEntry [] "127.0.0.1" [[] : str])
              "entry-new" (sampleStore [devEntry true] [devEntry true]))
    (sampleEntry "entry-new" "127.0.0.1" [[] : str])
  = true.
Proof.
  destruct (proj1 (addEntry_flagged codeunit_compare
                     (sampleStore [devEntry true] [devEntry true])
                     (sampleEntry [] "127.0.0.1" [[] : str]) "entry-new"))
    as (newEntry & E & _ & _ & _ & _ & H).
  apply app_inj_tail in E as [_ <-]. apply H.
  intros o [<- | []]. discriminate.
Defined.

(** ** The store: the projection of [applyFilters] *)

Lemma StronglySorted_weaken {A : Type} (R R' : A -> A -> Prop)
    (l : list A) :
  (forall a b, R a b -> R' a b) ->
  StronglySorted R l -> StronglySorted R' l.
Proof.
  intros H. induction 1 as [| x l Hs IH Hx]; constructor; [assumption |].
  eapply Forall_impl; [| exact Hx]. intros b. apply H.
Qed.

Lemma entry_compare_key (localeCompare : str -> str -> Z) (by_ : SortBy)
    (order : SortOrder) (a b : HostEntry) :
  by_ <> SortNone ->
  entry_compare localeCompare by_ order a b
  = match order with
    | Asc => localeCompare (sort_key by_ a) (sort_key by_ b)
    | Desc => (- localeCompare (sort_key by_ a) (sort_key by_ b))%Z
    end.
Proof. destruct by_; [reflexivity | reflexivity | reflexivity | congruence]. Qed.

Lemma sort_entries_in_order (localeCompare : str -> str -> Z) (by_ : SortBy)
    (order : SortOrder) (l : list HostEntry) :
  consistent_collation localeCompare -> by_ <> SortNone ->
  StronglySorted (in_order localeCompare by_ order)
                 (sort (entry_compare localeCompare by_ order) l).
Proof.
  intros [Hopp Htrans] Hby.
  apply StronglySorted_weaken
    with (R := before (entry_compare localeCompare by_ order)).
  - intros a b. unfold before, in_order.
    rewrite entry_compare_key by assumption. destruct order; lia.
  - apply sort_sorted.
    + intros a b. unfold before. rewrite !entry_compare_key by assumption.
      pose proof (Hopp (sort_key by_ a) (sort_key by_ b)).
      pose proof (Hopp (sort_key by_ b) (sort_key by_ a)).
      destruct order; lia.
    + intros a b c. unfold before. rewrite !entry_compare_key by assumption.
      pose proof (Hopp (sort_key by_ a) (sort_key by_ b)).
      pose proof (Hopp (sort_key by_ b) (sort_key by_ c)).
      pose proof (Hopp (sort_key by_ a) (sort_key by_ c)).
      pose proof (Htrans (sort_key by_ a) (sort_key by_ b) (sort_key by_ c)).
      pose proof (Htrans (sort_key by_ c) (sort_key by_ b) (sort_key by_ a)).
      pose proof (Hopp (sort_key by_ b) (sort_key by_ a)).
      pose proof (Hopp (sort_key by_ c) (sort_key by_ b)).
      pose proof (Hopp (sort_key by_ c) (sort_key by_ a)).
      destruct order; lia.
Qed.

(** X12.  The projection that [applyFilters] computes holds only entries
    of the working list, each of them fitting the status filter; with an
    empty search and the status "all" it is a rearrangement of the whole
    working list, and the working list itself when no sort is asked for;
    and with a sort field and a consistent comparison it is ordered by
    that field, ascending or descending as [sortOrder] says. *)
Theorem applyFilters_projection (localeCompare : str -> str -> Z)
    (st : HostsStore) :
  let shown := filteredEntries (applyFilters localeCompare st) in
  (forall e, In e shown ->
     In e (entries st) /\
     match filterStatus st with
     | StatusAll => True
     | StatusEnabled => enabled e = true
     | StatusDisabled => enabled e = false
     | StatusUnsaved => isEntryUnsaved localeCompare st e = true
     end)
  /\ (searchQuery st = [] -> filterStatus st = StatusAll ->
      Permutation shown (entries st) /\
      (sortBy st = SortNone -> shown = entries st))
  /\ (consistent_collation localeCompare -> sortBy st <> SortNone ->
      StronglySorted (in_order localeCompare (sortBy st) (sortOrder st))
                     shown).
Proof.
  cbv zeta. unfold applyFilters. cbn [filteredEntries set_filteredEntries].
  set (searched :=
         if truthy (searchQuery st)
         then filter _ (entries st) else entries st).
  set (kept :=
         match filterStatus st with
         | StatusAll => searched
         | StatusEnabled => filter (fun entry => enabled entry) searched
         | StatusDisabled =>
             filter (fun entry => negb (enabled entry)) searched
         | StatusUnsaved =>
             filter (fun entry => isEntryUnsaved localeCompare st entry)
                    searched
         end).
  assert (Hperm : Permutation
                    match sortBy st with
                    | SortNone => kept
                    | by_ => sort (entry_compare localeCompare by_
                                     (sortOrder st)) kept
                    end kept).
  { destruct (sortBy st); try apply sort_Permutation. reflexivity. }
  assert (Hsearched : forall e, In e searched -> In e (entries st)).
  { intros e He. unfold searched in He.
    destruct (truthy (searchQuery st)); [| exact He].
    now apply filter_In in He as [He _]. }
  split; [| split].
  - intros e He. apply (Permutation_in _ Hperm) in He.
    unfold kept in He. destruct (filterStatus st).
    + auto.
    + apply filter_In in He as [He Hp]. auto.
    + apply filter_In in He as [He Hp]. apply negb_true_iff in Hp. auto.
    + apply filter_In in He as [He Hp]. auto.
  - intros Hq Hs.
    assert (Ek : kept = entries st).
    { unfold kept, searched. now rewrite Hs, Hq. }
    clearbody kept. subst kept. split; [exact Hperm |].
    intros Hn. now rewrite Hn.
  - intros Hc Hby.
    destruct (sortBy st) eqn:Eb; try congruence;
      now apply sort_entries_in_order.
Qed.

Lemma codeunit_compare_opp (a b : str) :
  codeunit_compare a b = (- codeunit_compare b a)%Z.
Proof.
  revert b. induction a as [| x a IH]; intros [| y b];
    cbn [codeunit_compare]; try reflexivity.
  rewrite (N.compare_antisym (code x) (code y)).
  destruct (code x ?= code y)%N; cbn [CompOpp]; try reflexivity.
  apply IH.
Qed.

Lemma codeunit_compare_consistent : consistent_collation codeunit_compare.
Proof.
  split.
  - intros a b. rewrite (codeunit_compare_opp a b). lia.
  - exact (proj1 (proj2 codeunit_compare_total)).
Qed.

Lemma applyFilters_projection_witness :
  StronglySorted (in_order codeunit_compare SortIp Desc)
    (filteredEntries
       (applyFilters codeunit_compare
          (setSortOrder codeunit_compare Desc
             (setSortBy codeunit_compare SortIp
                (sampleStore [sampleEntry "a" "3.3.3.3" ["c" : str];
                              sampleEntry "b" "1.1.1.1" ["a" : str];
                              sampleEntry "c" "2.2.2.2" ["b" : str]] []))))).
Proof.
  refine (proj2 (proj2 (applyFilters_projection codeunit_compare
            (setSortOrder codeunit_compare Desc
               (setSortBy codeunit_compare SortIp
                  (sampleStore [sampleEntry "a" "3.3.3.3" ["c" : str];
                                sampleEntry "b" "1.1.1.1" ["a" : str];
                                sampleEntry "c" "2.2.2.2" ["b" : str]] [])))))
                codeunit_compare_consistent _).
  discriminate.
Defined.

(** ** The file manager *)

(** *** What actions add to the log *)

Lemma footprint_ret (A : Type) (allowed : call -> Prop) (a : A) :
  footprint allowed (ret (list call) a).
Proof. intros log. exists []. now rewrite app_nil_r. Qed.

Lemma footprint_throw (A : Type) (allowed : call -> Prop) (message : str) :
  footprint allowed (@throw (list call) A message).
Proof. intros log. exists []. now rewrite app_nil_r. Qed.

Lemma footprint_tmpdir (number : Type) (env : Environment number)
    (allowed : call -> Prop) :
  footprint allowed (tmpdir env).
Proof. intros log. exists []. now rewrite app_nil_r. Qed.

Lemma footprint_perform (A : Type) (allowed : call -> Prop) (c : call)
    (answer : list call -> outcome A) :
  allowed c -> footprint allowed (perform c answer).
Proof. intros H log. exists [c]. split; [reflexivity | now constructor]. Qed.

Lemma footprint_bind (A B : Type) (allowed : call -> Prop)
    (m : IO (list call) A) (k : A -> IO (list call) B) :
  footprint allowed m -> (forall a, footprint allowed (k a)) ->
  footprint allowed (bind (list call) m k).
Proof.
  intros Hm Hk log. destruct (Hm log) as (new & E & Hnew).
  unfold bind. destruct (m log) as [[a | message] log']; cbn [snd] in *.
  - destruct (Hk a log') as (new' & E' & Hnew'). exists (new ++ new').
    rewrite E', E, app_assoc. split; [reflexivity | now apply Forall_app].
  - now exists new.
Qed.

Lemma footprint_try_catch (A : Type) (allowed : call -> Prop)
    (m : IO (list call) A) (handler : str -> IO (list call) A) :
  footprint allowed m -> (forall message, footprint allowed (handler message)) ->
  footprint allowed (try_catch m handler).
Proof.
  intros Hm Hk log. destruct (Hm log) as (new & E & Hnew).
  unfold try_catch. destruct (m log) as [[a | message] log']; cbn [snd] in *.
  - now exists new.
  - destruct (Hk message log') as (new' & E' & Hnew'). exists (new ++ new').
    rewrite E', E, app_assoc. split; [reflexivity | now apply Forall_app].
Qed.

Lemma footprint_try_finally (A : Type) (allowed : call -> Prop)
    (m : IO (list call) A) (cleanup : IO (list call) unit) :
  footprint allowed m -> footprint allowed cleanup ->
  footprint allowed (try_finally m cleanup).
Proof.
  intros Hm Hc log. destruct (Hm log) as (new & E & Hnew).
  unfold try_finally. destruct (m log) as [r log']; cbn [snd] in *.
  destruct (Hc log') as (new' & E' & Hnew'). exists (new ++ new').
  rewrite app_assoc, <- E.
  destruct (cleanup log') as [[u | message] log'']; cbn [snd] in *;
    (split; [assumption | now apply Forall_app]).
Qed.

Lemma footprint_weaken (A : Type) (P Q : call -> Prop)
    (m : IO (list call) A) :
  (forall c, P c -> Q c) -> footprint P m -> footprint Q m.
Proof.
  intros HPQ Hm log. destruct (Hm log) as (new & E & Hnew).
  exists new. split; [assumption |]. revert Hnew. apply Forall_impl, HPQ.
Qed.

(** *** Reading *)

Lemma split_go_cons (sep : str) (s : str) (skip : nat) (cur : str) :
  exists p ps, split_go sep skip cur s = p :: ps.
Proof.
  revert skip cur. induction s as [| c s IH]; intros skip cur.
  - now exists (rev cur), [].
  - cbn [split_go]. destruct skip as [| k]; [| apply IH].
    destruct (startsWith sep (c :: s)); [| apply IH].
    now exists (rev cur), (split_go sep (pred (length sep)) [] s).
Qed.

Lemma join_split_go_unit (c : ascii) (s cur : str) :
  join [c] (split_go [c] 0 cur s) = rev cur ++ s.
Proof.
  revert cur. induction s as [| x s IH]; intros cur.
  - cbn [split_go join]. now rewrite app_nil_r.
  - cbn [split_go startsWith length pred].
    destruct (Ascii.eqb c x) eqn:E; cbn [andb].
    + apply Ascii.eqb_eq in E. subst x.
      destruct (split_go_cons [c] s 0 []) as (p & ps & Ep).
      rewrite Ep, join_cons, <- Ep, IH. reflexivity.
    + rewrite IH. cbn [rev]. now rewrite <- app_assoc.
Qed.

Lemma join_split_unit (c : ascii) (s : str) : join [c] (split [c] s) = s.
Proof. apply (join_split_go_unit c s []). Qed.

Lemma readHosts_cases (number : Type) (env : Environment number)
    (log : list call) :
  exists new, Forall reads_hosts new /\
    ((exists content mtimeMs,
        readHosts env log
        = (Returned {| data_entries := parse content;
                       rawLines := split [LF] content;
                       lastModified := mtimeMs |}, log ++ new))
     \/ exists message,
          readHosts env log
          = (Thrown ("Failed to read hosts file: " ++ message), log ++ new)).
Proof.
  assert (R1 : reads_hosts (ReadFile "/etc/hosts")) by (left; reflexivity).
  assert (R2 : reads_hosts (Exec "cat /etc/hosts"))
    by (right; left; reflexivity).
  assert (R3 : reads_hosts (Stat "/etc/hosts"))
    by (right; right; reflexivity).
  unfold readHosts, try_catch, bind, perform, ret, throw.
  destruct (fs_readFile env log HOSTS_FILE_PATH) as [content | m1].
  - destruct (fs_stat env (log ++ [ReadFile HOSTS_FILE_PATH]) HOSTS_FILE_PATH)
      as [mtimeMs | m2];
      exists [ReadFile HOSTS_FILE_PATH; Stat HOSTS_FILE_PATH];
      (split; [now repeat constructor |]); rewrite <- app_assoc.
    + left. now exists content, mtimeMs.
    + right. now exists m2.
  - destruct (execAsync env (log ++ [ReadFile HOSTS_FILE_PATH])
                ("cat " ++ HOSTS_FILE_PATH)) as [[stdout stderr] | m2].
    + cbn [fst].
      destruct (fs_stat env
                  ((log ++ [ReadFile HOSTS_FILE_PATH])
                     ++ [Exec ("cat " ++ HOSTS_FILE_PATH)]) HOSTS_FILE_PATH)
        as [mtimeMs | m3];
        exists [ReadFile HOSTS_FILE_PATH; Exec ("cat " ++ HOSTS_FILE_PATH);
                Stat HOSTS_FILE_PATH];
        (split; [now repeat constructor |]); rewrite <- !app_assoc.
      * left. now exists stdout, mtimeMs.
      * right. now exists m3.
    + exists [ReadFile HOSTS_FILE_PATH; Exec ("cat " ++ HOSTS_FILE_PATH)].
      split; [now repeat constructor |]. rewrite <- app_assoc.
      right. now exists m2.
Qed.

(** X13.  [readHosts] only reads: whatever the file system answers, the
    calls it makes are reads of /etc/hosts ([fs.readFile], [cat],
    [fs.stat]).  What it returns is consistent: the raw lines joined by
    line feeds are a text whose parse is the returned entries, so the
    entries are well formed; and when it throws, the message begins with
    "Failed to read hosts file: ". *)
Theorem readHosts_reads (number : Type) (env : Environment number)
    (log : list call) :
  footprint reads_hosts (readHosts env)
  /\ match fst (readHosts env log) with
     | Returned d =>
         data_entries d = parse (join [LF] (rawLines d))
         /\ Forall parsed_entry (data_entries d)
     | Thrown message =>
         startsWith "Failed to read hosts file: " message = true
     end.
Proof.
  split.
  - intros log0.
    destruct (readHosts_cases number env log0)
      as (new & Hnew & [(content & mtimeMs & E) | (message & E)]);
      exists new; rewrite E; now split.
  - destruct (readHosts_cases number env log)
      as (new & Hnew & [(content & mtimeMs & E) | (message & E)]);
      rewrite E; cbn [fst data_entries rawLines].
    + rewrite join_split_unit. split; [reflexivity |].
      unfold parse, parse_lines. apply parse_loop_parsed. constructor.
    + reflexivity.
Qed.

(** *** The backup step *)

Lemma createBackupIfNeeded_run (number : Type) (env : Environment number)
    (log : list call) :
  exists new,
    createBackupIfNeeded env log = (Returned tt, log ++ new)
    /\ Forall backs_up new.
Proof.
  unfold createBackupIfNeeded, try_catch, bind.
  destruct (readHosts_cases number env log)
    as (new & Hnew & [(content & mtimeMs & E) | (message & E)]); rewrite E.
  - cbn [data_entries].
    destruct (0 <? length (parse content)) eqn:Elen.
    + exists (new ++ [CreateBackup (parse content)]). split.
      * unfold perform, ret. rewrite <- app_assoc.
        now destruct (BackupManager_createBackup env (log ++ new)
                        (parse content)) as [[] | m].
      * apply Forall_app. split.
        -- revert Hnew. apply Forall_impl. intros c Hc. now left.
        -- constructor; [| constructor]. right. exists (parse content).
           split; [reflexivity |]. split.
           ++ intros E0. rewrite E0 in Elen. discriminate Elen.
           ++ unfold parse, parse_lines. apply parse_loop_parsed.
              constructor.
    + exists new. split; [reflexivity |].
      revert Hnew. apply Forall_impl. intros c Hc. now left.
  - exists new. split; [reflexivity |].
    revert Hnew. apply Forall_impl. intros c Hc. now left.
Qed.

(** X14.  The backup step never fails and never writes: whatever the
    file system and the backup manager answer, [createBackupIfNeeded]
    returns, and its calls are reads of /etc/hosts followed by at most
    one call of the backup manager, with a non-empty list of entries as
    the parser returns them. *)
Theorem createBackupIfNeeded_safe (number : Type) (env : Environment number)
    (log : list call) :
  fst (createBackupIfNeeded env log) = Returned tt
  /\ exists reads last,
       snd (createBackupIfNeeded env log) = log ++ reads ++ last
       /\ Forall reads_hosts reads
       /\ (last = []
           \/ exists es, last = [CreateBackup es] /\ es <> []
                         /\ Forall parsed_entry es).
Proof.
  unfold createBackupIfNeeded, try_catch, bind.
  destruct (readHosts_cases number env log)
    as (new & Hnew & [(content & mtimeMs & E) | (message & E)]); rewrite E.
  - cbn [data_entries].
    destruct (0 <? length (parse content)) eqn:Elen.
    + assert (Hes : parse content <> []).
      { intros E0. rewrite E0 in Elen. discriminate Elen. }
      assert (Hwf : Forall parsed_entry (parse content)).
      { unfold parse, parse_lines. apply parse_loop_parsed. constructor. }
      unfold perform, ret.
      destruct (BackupManager_createBackup env (log ++ new) (parse content))
        as [[] | m]; cbn [fst snd];
        (split; [reflexivity |]);
        exists new, [CreateBackup (parse content)];
        rewrite <- app_assoc;
        (split; [reflexivity |]); (split; [assumption |]);
        right; exists (parse content); now split.
    + split; [reflexivity |]. exists new, []. rewrite app_nil_r.
      split; [reflexivity |]. split; [assumption | now left].
  - split; [reflexivity |]. exists new, []. rewrite app_nil_r.
    split; [reflexivity |]. split; [assumption | now left].
Qed.

(** *** The privileged command *)

Lemma classify_cases (e : str) :
  classify e = canceled_message
  \/ classify e = authentication_message
  \/ (classify e = "Command failed: " ++ e
      /\ includes "canceled" e = false /\ includes "128" e = false
      /\ includes "password" e = false
      /\ includes "authentication" e = false).
Proof.
  unfold classify.
  destruct (includes "User canceled" e), (includes "canceled" e),
    (includes "User cancelled" e), (includes "128" e);
    cbn [orb]; try (now left).
  destruct (includes "password" e), (includes "authentication" e),
    (includes "Authentication failed" e);
    cbn [orb]; try (right; now left).
  right. right. now repeat split.
Qed.

Lemma unlink_quietly_run (number : Type) (env : Environment number)
    (path : str) (log : list call) :
  unlink_quietly env path log = (Returned tt, log ++ [Unlink path]).
Proof.
  unfold unlink_quietly, try_catch, perform, ret.
  now destruct (fs_unlink env log path) as [[] | m].
Qed.

Lemma execWithAdmin_run (number : Type) (path_join : str -> str -> str)
    (env : Environment number) (command : str) (log : list call) :
  let sp := path_join (os_tmpdir env log)
              ("hosts-admin-" ++ String_of_number (Date_now env log) ++ ".sh")
  in
  exists mid,
    snd (execWithAdmin path_join env command log)
    = log ++ DateNow :: WriteFile sp (script_text command)
              :: mid ++ [Unlink sp]
    /\ match fst (execWithAdmin path_join env command log) with
       | Returned stdout =>
           mid = [Chmod sp; Exec (osascript_command sp)]
           /\ exists stderr,
                execAsync env
                  (log ++ [DateNow; WriteFile sp (script_text command);
                           Chmod sp])
                  (osascript_command sp)
                = Returned (stdout, stderr)
       | Thrown message =>
           (mid = [] \/ mid = [Chmod sp]
            \/ mid = [Chmod sp; Exec (osascript_command sp)])
           /\ exists e, message = classify e
       end.
Proof.
  intros sp. subst sp.
  unfold execWithAdmin, try_finally, try_catch, bind, tmpdir, perform,
    throw, ret.
  set (sp := path_join (os_tmpdir env log)
               ("hosts-admin-" ++ String_of_number (Date_now env log)
                  ++ ".sh")).
  destruct (fs_writeFile env (log ++ [DateNow]) sp (script_text command))
    as [[] | m1].
  - destruct (fs_chmod env
                ((log ++ [DateNow]) ++ [WriteFile sp (script_text command)])
                sp) as [[] | m2].
    + destruct (execAsync env
                  (((log ++ [DateNow])
                      ++ [WriteFile sp (script_text command)])
                     ++ [Chmod sp]) (osascript_command sp))
        as [[stdout stderr] | m3] eqn:E;
        rewrite unlink_quietly_run;
        exists [Chmod sp; Exec (osascript_command sp)];
        cbn [fst snd]; rewrite <- !app_assoc; cbn [app];
        (split; [reflexivity |]).
      * split; [reflexivity |]. exists stderr.
        rewrite <- E. now rewrite <- !app_assoc.
      * split; [now right; right |]. now exists m3.
    + rewrite unlink_quietly_run.
      exists [Chmod sp]. cbn [fst snd]. rewrite <- !app_assoc. cbn [app].
      split; [reflexivity |]. split; [now right; left |]. now exists m2.
  - rewrite unlink_quietly_run.
    exists []. cbn [fst snd]. rewrite <- !app_assoc. cbn [app].
    split; [reflexivity |]. split; [now left |]. now exists m1.
Qed.

(** X15.  [execWithAdmin] always cleans up and reports one of three
    failures.  Whatever the file system and the command answer, its calls
    are: the clock, the write of the script (the command between the
    interpreter line and a line feed) under a name [hosts-admin-<n>.sh],
    then possibly [chmod] and the [osascript] command for that script,
    and last the removal of the script.  When it returns, the [osascript]
    command was run and returned.  When it throws, the message is the
    cancellation message, the authentication message, or
    "Command failed: " followed by an error message that mentions none of
    "canceled", "128", "password" and "authentication". *)
Theorem execWithAdmin_cleans_up (number : Type)
    (path_join : str -> str -> str) (env : Environment number)
    (command : str) (log : list call) :
  exists sp mid,
    script_path path_join sp
    /\ snd (execWithAdmin path_join env command log)
       = log ++ DateNow :: WriteFile sp (script_text command)
                 :: mid ++ [Unlink sp]
    /\ Forall (fun c => c = Chmod sp \/ c = Exec (osascript_command sp)) mid
    /\ match fst (execWithAdmin path_join env command log) with
       | Returned stdout =>
           exists before stderr,
             mid = before ++ [Exec (osascript_command sp)]
             /\ execAsync env
                  (log ++ DateNow :: WriteFile sp (script_text command)
                          :: before)
                  (osascript_command sp)
                = Returned (stdout, stderr)
       | Thrown message =>
           message = canceled_message
           \/ message = authentication_message
           \/ exists e,
                message = "Command failed: " ++ e
                /\ includes "canceled" e = false
                /\ includes "128" e = false
                /\ includes "password" e = false
                /\ includes "authentication" e = false
       end.
Proof.
  destruct (execWithAdmin_run number path_join env command log)
    as (mid & Esnd & Hfst).
  exists (path_join (os_tmpdir env log)
            ("hosts-admin-" ++ String_of_number (Date_now env log) ++ ".sh")),
    mid.
  split; [now exists (os_tmpdir env log), (Date_now env log) |].
  split; [exact Esnd |].
  destruct (fst (execWithAdmin path_join env command log))
    as [stdout | message].
  - destruct Hfst as (-> & stderr & E). split.
    + constructor; [now left |]. constructor; [now right | constructor].
    + eexists [_], stderr. split; [reflexivity | exact E].
  - destruct Hfst as (Hmid & e & ->). split.
    + destruct Hmid as [-> | [-> | ->]];
        repeat (apply Forall_cons; [auto |]); apply Forall_nil.
    + destruct (classify_cases e) as [H | [H | (H & H1 & H2 & H3 & H4)]];
        rewrite H; auto.
      right. right. now exists e.
Qed.

(** *** Replacing the hosts file *)

Lemma writeContentToHostsFile_run (number : Type)
    (path_join : str -> str -> str) (env : Environment number)
    (content : str) (log : list call) (t : str) (log1 : list call)
    (sp : str) :
  t = path_join (os_tmpdir env log)
        ("hosts-" ++ String_of_number (Date_now env log) ++ ".tmp") ->
  log1 = log ++ [DateNow; WriteFile t content] ->
  sp = path_join (os_tmpdir env log1)
         ("hosts-admin-" ++ String_of_number (Date_now env log1) ++ ".sh") ->
  exists mid,
    snd (writeContentToHostsFile path_join env content log)
    = log1 ++ mid ++ [Unlink t]
    /\ (mid = []
        \/ exists mid',
             mid = DateNow :: WriteFile sp (script_text (copy_command t))
                     :: mid' ++ [Unlink sp]
             /\ Forall (fun c => c = Chmod sp
                                 \/ c = Exec (osascript_command sp)) mid')
    /\ match fst (writeContentToHostsFile path_join env content log) with
       | Returned _ =>
           mid = [DateNow; WriteFile sp (script_text (copy_command t));
                  Chmod sp; Exec (osascript_command sp); Unlink sp]
           /\ exists out,
                execAsync env
                  (log1 ++ [DateNow;
                            WriteFile sp (script_text (copy_command t));
                            Chmod sp])
                  (osascript_command sp)
                = Returned out
       | Thrown _ => True
       end.
Proof.
  intros Et El Es.
  unfold writeContentToHostsFile, try_catch, bind, tmpdir, perform, throw.
  rewrite <- Et.
  destruct (fs_writeFile env (log ++ [DateNow]) t content) as [[] | m1].
  - replace ((log ++ [DateNow]) ++ [WriteFile t content]) with log1
      by (rewrite El, <- app_assoc; reflexivity).
    pose proof (execWithAdmin_run number path_join env (copy_command t) log1)
      as H.
    cbv zeta in H. rewrite <- Es in H. destruct H as (mid' & Esnd & Hfst).
    destruct (execWithAdmin path_join env (copy_command t) log1)
      as [[stdout | message] log2]; cbn [fst snd] in Esnd, Hfst; subst log2;
      rewrite unlink_quietly_run;
      exists (DateNow :: WriteFile sp (script_text (copy_command t))
                :: mid' ++ [Unlink sp]);
      cbn [fst snd]; rewrite <- !app_assoc; cbn [app];
      (split; [reflexivity |]).
    + destruct Hfst as (-> & stderr & E). split.
      * right. exists [Chmod sp; Exec (osascript_command sp)].
        split; [reflexivity |].
        constructor; [now left |]. constructor; [now right | constructor].
      * split; [reflexivity |]. now exists (stdout, stderr).
    + destruct Hfst as (Hmid & _). split; [| exact I].
      right. exists mid'. split; [reflexivity |].
      destruct Hmid as [-> | [-> | ->]];
        repeat (apply Forall_cons; [auto |]); apply Forall_nil.
  - rewrite unlink_quietly_run. exists []. cbn [fst snd].
    rewrite El, <- !app_assoc. cbn [app].
    split; [reflexivity |]. split; [now left | exact I].
Qed.

(** X16.  [writeContentToHostsFile] removes its temporary file on every
    path.  Whatever the file system and the command answer, its calls
    are: the clock, the write of the content to a file [hosts-<n>.tmp],
    then the calls of the privileged command, if any, and last the
    removal of that file.  The only script run copies that temporary
    file onto /etc/hosts, and when the function returns, it was run and
    returned. *)
Theorem writeContentToHostsFile_cleans_up (number : Type)
    (path_join : str -> str -> str) (env : Environment number)
    (content : str) (log : list call) :
  exists t mid,
    temp_path path_join t
    /\ snd (writeContentToHostsFile path_join env content log)
       = log ++ DateNow :: WriteFile t content :: mid ++ [Unlink t]
    /\ Forall (fun c =>
                 c = DateNow
                 \/ exists sp,
                      script_path path_join sp
                      /\ (c = WriteFile sp (script_text (copy_command t))
                          \/ c = Chmod sp
                          \/ c = Exec (osascript_command sp)
                          \/ c = Unlink sp)) mid
    /\ (fst (writeContentToHostsFile path_join env content log)
        = Returned tt ->
        exists sp before after out,
          mid = before ++ Exec (osascript_command sp) :: after
          /\ In (WriteFile sp (script_text (copy_command t))) before
          /\ execAsync env
               (log ++ DateNow :: WriteFile t content :: before)
               (osascript_command sp)
             = Returned out).
Proof.
  set (t := path_join (os_tmpdir env log)
              ("hosts-" ++ String_of_number (Date_now env log) ++ ".tmp")).
  set (log1 := log ++ [DateNow; WriteFile t content]).
  set (sp := path_join (os_tmpdir env log1)
               ("hosts-admin-" ++ String_of_number (Date_now env log1)
                  ++ ".sh")).
  destruct (writeContentToHostsFile_run number path_join env content log
              t log1 sp eq_refl eq_refl eq_refl) as (mid & Esnd & Hmid & Hfst).
  assert (Hsp : script_path path_join sp)
    by now exists (os_tmpdir env log1), (Date_now env log1).
  exists t, mid.
  split; [now exists (os_tmpdir env log), (Date_now env log) |].
  split; [rewrite Esnd; unfold log1; now rewrite <- app_assoc |].
  split.
  - destruct Hmid as [-> | (mid' & -> & Hmid')]; [constructor |].
    constructor; [now left |].
    constructor; [right; exists sp; auto |].
    apply Forall_app. split.
    + revert Hmid'. apply Forall_impl. intros c [-> | ->];
        right; exists sp; auto.
    + constructor; [| constructor]. right. exists sp. auto 6.
  - intros Eret. rewrite Eret in Hfst. destruct Hfst as (-> & out & E).
    exists sp, [DateNow; WriteFile sp (script_text (copy_command t)); Chmod sp],
      [Unlink sp], out.
    split; [reflexivity |]. split; [right; now left |].
    rewrite <- E. unfold log1. now rewrite <- app_assoc.
Qed.

(** *** Writing *)

Lemma validationErrors_none (i : nat) (l : list HostEntry) :
  validationErrors_from i l = [] ->
  Forall (fun e => valid (validateEntry e) = true) l.
Proof.
  revert i. induction l as [| e rest IH]; intros i H; [constructor |].
  cbn [validationErrors_from] in H.
  destruct (valid (validateEntry e)) eqn:E; cbn [negb] in H.
  - constructor; [exact E | apply (IH (S i)), H].
  - discriminate H.
Qed.

Lemma validateEntriesForWrite_cases (World : Type)
    (entries : list HostEntry) (w : World) :
  (validateEntriesForWrite World entries w = (Returned tt, w)
   /\ entries <> []
   /\ Forall (fun e => valid (validateEntry e) = true) entries)
  \/ exists message,
       validateEntriesForWrite World entries w = (Thrown message, w).
Proof.
  unfold validateEntriesForWrite.
  destruct entries as [| e rest]; [right; now eexists |].
  cbn [length Nat.eqb].
  destruct (validationErrors_from 0 (e :: rest)) as [| x xs] eqn:E.
  - left. split; [reflexivity |]. split; [discriminate |].
    apply (validationErrors_none 0), E.
  - right. now eexists.
Qed.

Lemma requestPermission_cases (number : Type) (env : Environment number)
    (window : bool) (log : list call) :
  (window = false /\ requestPermission env window log = (Returned tt, log))
  \/ (window = true
      /\ snd (requestPermission env window log) = log ++ [ShowMessageBox]
      /\ ((exists n, dialog_showMessageBox env log = Returned (S n)
                     /\ fst (requestPermission env window log) = Returned tt)
          \/ ((forall n, dialog_showMessageBox env log <> Returned (S n))
              /\ exists message,
                   fst (requestPermission env window log) = Thrown message))).
Proof.
  unfold requestPermission, bind, perform, throw, ret.
  destruct window; cbn [negb]; [right | left; now split].
  split; [reflexivity |].
  destruct (dialog_showMessageBox env log) as [[| n] | m]; cbn [Nat.eqb].
  - split; [reflexivity |]. right. split; [discriminate | now eexists].
  - split; [reflexivity |]. left. now exists n.
  - split; [reflexivity |]. right. split; [discriminate | now eexists].
Qed.

Lemma backs_up_writes_hosts (path_join : str -> str -> str)
    (entries : list HostEntry) (c : call) :
  backs_up c -> writes_hosts path_join entries c.
Proof.
  intros [[-> | [-> | ->]] | (es & -> & Hes & _)]; cbn; auto.
Qed.

Lemma writeContentToHostsFile_footprint (number : Type)
    (path_join : str -> str -> str) (env : Environment number)
    (entries : list HostEntry) (now : str) :
  footprint (writes_hosts path_join entries)
    (writeContentToHostsFile path_join env (stringify now entries)).
Proof.
  intros log.
  set (t := path_join (os_tmpdir env log)
              ("hosts-" ++ String_of_number (Date_now env log) ++ ".tmp")).
  set (log1 := log ++ [DateNow; WriteFile t (stringify now entries)]).
  set (sp := path_join (os_tmpdir env log1)
               ("hosts-admin-" ++ String_of_number (Date_now env log1)
                  ++ ".sh")).
  destruct (writeContentToHostsFile_run number path_join env
              (stringify now entries) log t log1 sp eq_refl eq_refl eq_refl)
    as (mid & Esnd & Hmid & _).
  assert (Ht : temp_path path_join t)
    by now exists (os_tmpdir env log), (Date_now env log).
  assert (Hsp : script_path path_join sp)
    by now exists (os_tmpdir env log1), (Date_now env log1).
  exists ([DateNow; WriteFile t (stringify now entries)] ++ mid ++ [Unlink t]).
  split; [rewrite Esnd; unfold log1; now rewrite <- app_assoc |].
  apply Forall_app. split.
  - constructor; [exact I |]. constructor; [| constructor].
    left. split; [assumption | now exists now].
  - apply Forall_app. split.
    + destruct Hmid as [-> | (mid' & -> & Hmid')]; [constructor |].
      constructor; [exact I |]. constructor.
      * right. split; [assumption | now exists t].
      * apply Forall_app. split.
        -- revert Hmid'. apply Forall_impl. intros c [-> | ->].
           ++ exact Hsp.
           ++ right. now exists sp.
        -- constructor; [now right | constructor].
    + constructor; [now left | constructor].
Qed.

Lemma writeHostsFile_calls (number : Type)
    (path_join : str -> str -> str) (env : Environment number)
    (entries : list HostEntry) (window : bool) :
  footprint (writes_hosts path_join entries)
    (writeHostsFile path_join env entries window).
Proof.
  unfold writeHostsFile, writeHosts. apply footprint_bind.
  - intros log. exists []. rewrite app_nil_r. split; [| constructor].
    now destruct (validateEntriesForWrite_cases (list call) entries log)
      as [(E & _) | (message & E)]; rewrite E.
  - intros _. apply footprint_bind.
    + unfold requestPermission. destruct window; cbn [negb].
      * apply footprint_bind; [now apply footprint_perform |].
        intros response. destruct (response =? 0).
        -- apply footprint_throw.
        -- apply footprint_ret.
      * apply footprint_ret.
    + intros _. apply footprint_bind.
      * intros log0.
        destruct (createBackupIfNeeded_run number env log0)
          as (new & E0 & Hnew).
        exists new. rewrite E0. split; [reflexivity |].
        revert Hnew. apply Forall_impl, backs_up_writes_hosts.
      * intros _. apply footprint_bind; [now apply footprint_perform |].
        intros now. apply writeContentToHostsFile_footprint.
Qed.

(** X17.  What writing may touch.  Whatever the environment answers,
    every call that [writeHosts] makes for [entries] is one of: the
    dialog, a read of /etc/hosts, the backup manager with a non-empty
    list, the clock, the write of a file [hosts-<n>.tmp] whose content is
    [stringify] of exactly these entries, the write, [chmod] and removal
    of a script [hosts-admin-<n>.sh] that copies such a temporary file
    onto /etc/hosts, the [osascript] command that runs such a script, and
    the removal of the temporary file.  And no call is made at all unless
    the list is non-empty and [validateEntry] accepts every entry. *)
Theorem writeHostsFile_footprint (number : Type)
    (path_join : str -> str -> str) (env : Environment number)
    (entries : list HostEntry) (window : bool) (log : list call) :
  exists new,
    snd (writeHostsFile path_join env entries window log) = log ++ new
    /\ Forall (writes_hosts path_join entries) new
    /\ (new <> [] ->
        entries <> []
        /\ Forall (fun e => valid (validateEntry e) = true) entries).
Proof.
  destruct (writeHostsFile_calls number path_join env entries window log)
    as (new & Esnd & Hnew).
  exists new. split; [exact Esnd |]. split; [exact Hnew |].
  intros Hne.
  destruct (validateEntriesForWrite_cases (list call) entries log)
    as [(E & Hentries & Hvalid) | (message & E)]; [now split |].
  unfold writeHostsFile, writeHosts, bind in Esnd. rewrite E in Esnd.
  cbn [snd] in Esnd. rewrite <- (app_nil_r log) in Esnd at 1.
  apply app_inv_head in Esnd. now elim Hne.
Qed.

Lemma bind_Returned (World A B : Type) (m : IO World A)
    (k : A -> IO World B) (w : World) (b : B) :
  fst (bind World m k w) = Returned b ->
  exists a w', m w = (Returned a, w') /\ bind World m k w = k a w'.
Proof.
  unfold bind. destruct (m w) as [[a | message] w']; intros H.
  - now exists a, w'.
  - discriminate H.
Qed.

Lemma writeHostsFile_returned (number : Type)
    (path_join : str -> str -> str) (env : Environment number)
    (entries : list HostEntry) (window : bool) (log : list call) :
  fst (writeHostsFile path_join env entries window log) = Returned tt ->
  entries <> []
  /\ Forall (fun e => valid (validateEntry e) = true) entries
  /\ exists pre now t sp out,
       snd (writeHostsFile path_join env entries window log)
       = log ++ pre
           ++ [NewDate; DateNow; WriteFile t (stringify now entries);
               DateNow; WriteFile sp (script_text (copy_command t));
               Chmod sp; Exec (osascript_command sp);
               Unlink sp; Unlink t]
       /\ (if window
           then exists n rest,
                  dialog_showMessageBox env log = Returned (S n)
                  /\ pre = ShowMessageBox :: rest /\ Forall backs_up rest
           else Forall backs_up pre)
       /\ temp_path path_join t /\ script_path path_join sp
       /\ execAsync env
            (log ++ pre
               ++ [NewDate; DateNow; WriteFile t (stringify now entries);
                   DateNow; WriteFile sp (script_text (copy_command t));
                   Chmod sp])
            (osascript_command sp)
          = Returned out.
Proof.
  intros Hret. unfold writeHostsFile, writeHosts in *.
  destruct (bind_Returned _ _ _ _ _ _ _ Hret) as (u1 & w1 & E1 & Erun1).
  rewrite Erun1 in *. clear Erun1.
  destruct (validateEntriesForWrite_cases (list call) entries log)
    as [(E & Hne & Hvalid) | (message & E)]; rewrite E in E1;
    [| discriminate E1].
  injection E1 as _ <-.
  split; [exact Hne |]. split; [exact Hvalid |].
  destruct (bind_Returned _ _ _ _ _ _ _ Hret) as (u2 & w2 & E2 & Erun2).
  rewrite Erun2 in *. clear Erun2.
  destruct (bind_Returned _ _ _ _ _ _ _ Hret) as (u3 & w3 & E3 & Erun3).
  rewrite Erun3 in *. clear Erun3.
  destruct (createBackupIfNeeded_run number env w2) as (new & E3' & Hnew).
  rewrite E3' in E3. injection E3 as _ <-.
  destruct (bind_Returned _ _ _ _ _ _ _ Hret) as (now & w4 & E4 & Erun4).
  rewrite Erun4 in *. clear Erun4.
  unfold perform in E4. injection E4 as <- <-.
  set (now := Date_toISOString env (w2 ++ new)) in *.
  set (log0 := (w2 ++ new) ++ [NewDate]) in *.
  set (t := path_join (os_tmpdir env log0)
              ("hosts-" ++ String_of_number (Date_now env log0) ++ ".tmp")).
  set (log1 := log0 ++ [DateNow; WriteFile t (stringify now entries)]).
  set (sp := path_join (os_tmpdir env log1)
               ("hosts-admin-" ++ String_of_number (Date_now env log1)
                  ++ ".sh")).
  destruct (writeContentToHostsFile_run number path_join env
              (stringify now entries) log0 t log1 sp eq_refl eq_refl eq_refl)
    as (mid & Esnd & _ & Hfst).
  rewrite Hret in Hfst. destruct Hfst as (-> & out & E5).
  assert (Ht : temp_path path_join t)
    by now exists (os_tmpdir env log0), (Date_now env log0).
  assert (Hsp : script_path path_join sp)
    by now exists (os_tmpdir env log1), (Date_now env log1).
  destruct (requestPermission_cases number env window log)
    as [(-> & E2') | (-> & Esnd2 & Hfst2)].
  - rewrite E2' in E2. injection E2 as _ <-.
    exists new, now, t, sp, out.
    split; [rewrite Esnd; unfold log1, log0;
            rewrite <- !app_assoc; reflexivity |].
    split; [exact Hnew |]. split; [exact Ht |]. split; [exact Hsp |].
    rewrite <- E5. unfold log1, log0. now rewrite <- !app_assoc.
  - rewrite E2 in Esnd2, Hfst2. cbn [fst snd] in Esnd2, Hfst2.
    destruct Hfst2 as [(n & Hn & _) | (_ & message & Hm)];
      [| discriminate Hm].
    exists (ShowMessageBox :: new), now, t, sp, out.
    split; [rewrite Esnd; unfold log1, log0; rewrite Esnd2;
            rewrite <- !app_assoc; reflexivity |].
    split; [now exists n, new |]. split; [exact Ht |]. split; [exact Hsp |].
    rewrite <- E5. unfold log1, log0. rewrite Esnd2.
    now rewrite <- !app_assoc.
Qed.

(** X18.  What a successful write has done.  When [writeHosts] returns,
    the list was not empty and [validateEntry] accepted every entry; with
    a window, the dialog came first and was answered with a button other
    than Cancel; after the backup step, the calls were exactly: the date
    for the banner, the clock, the write of [stringify] of the entries to
    a file [hosts-<n>.tmp], the clock, the write of the script that
    copies this file onto /etc/hosts, its [chmod], the [osascript]
    command for it, which returned, and the removal of the script and of
    the temporary file. *)
Theorem writeHostsFile_success (number : Type)
    (path_join : str -> str -> str) (env : Environment number)
    (entries : list HostEntry) (window : bool) (log : list call) :
  fst (writeHostsFile path_join env entries window log) = Returned tt ->
  entries <> []
  /\ Forall (fun e => valid (validateEntry e) = true) entries
  /\ exists pre now t sp out,
       snd (writeHostsFile path_join env entries window log)
       = log ++ pre
           ++ [NewDate; DateNow; WriteFile t (stringify now entries);
               DateNow; WriteFile sp (script_text (copy_command t));
               Chmod sp; Exec (osascript_command sp);
               Unlink sp; Unlink t]
       /\ (if window
           then exists n rest,
                  dialog_showMessageBox env log = Returned (S n)
                  /\ pre = ShowMessageBox :: rest /\ Forall backs_up rest
           else Forall backs_up pre)
       /\ temp_path path_join t /\ script_path path_join sp
       /\ execAsync env
            (log ++ pre
               ++ [NewDate; DateNow; WriteFile t (stringify now entries);
                   DateNow; WriteFile sp (script_text (copy_command t));
                   Chmod sp])
            (osascript_command sp)
          = Returned out.
Proof.
  apply writeHostsFile_returned.
Qed.

Lemma writeHostsFile_success_witness :
  fst (writeHostsFile posix_join (calm 1)
         [sampleEntry "entry-0" "127.0.0.1" ["localhost" : str]] true [])
  = Returned tt
  /\ Forall (fun e => valid (validateEntry e) = true)
            [sampleEntry "entry-0" "127.0.0.1" ["localhost" : str]].
Proof.
  split; [reflexivity |].
  apply (writeHostsFile_success nat posix_join (calm 1)
           [sampleEntry "entry-0" "127.0.0.1" ["localhost" : str]] true []).
  reflexivity.
Defined.

(** X19.  Nothing happens behind a dialog that was not confirmed.  When
    [writeHosts] is given a window and the dialog does not come back with
    a button other than Cancel (it is answered with Cancel, or fails),
    [writeHosts] throws and has called nothing but, at most, the dialog:
    no backup, no temporary file, no command.  With Cancel the message is
    "Permission denied: User canceled", unless validation had failed
    before the dialog was shown. *)
Theorem writeHostsFile_cancelled (number : Type)
    (path_join : str -> str -> str) (env : Environment number)
    (entries : list HostEntry) (log : list call) :
  (forall n, dialog_showMessageBox env log <> Returned (S n)) ->
  exists message,
    fst (writeHostsFile path_join env entries true log) = Thrown message
    /\ (snd (writeHostsFile path_join env entries true log) = log
        \/ (snd (writeHostsFile path_join env entries true log)
            = log ++ [ShowMessageBox]
            /\ entries <> []
            /\ Forall (fun e => valid (validateEntry e) = true) entries
            /\ (dialog_showMessageBox env log = Returned 0 ->
                message = "Permission denied: User canceled"))).
Proof.
  intros Hno.
  destruct (validateEntriesForWrite_cases (list call) entries log)
    as [(E & Hne & Hvalid) | (message & E)].
  - assert (R : exists message,
               writeHostsFile path_join env entries true log
               = (Thrown message, log ++ [ShowMessageBox])
               /\ (dialog_showMessageBox env log = Returned 0 ->
                   message = "Permission denied: User canceled")).
    { unfold writeHostsFile, writeHosts, bind. rewrite E. cbv beta iota.
      unfold requestPermission, bind, perform, throw. cbn [negb].
      destruct (dialog_showMessageBox env log) as [[| n] | m].
      - cbn [Nat.eqb]. now eexists.
      - now elim (Hno n).
      - eexists. split; [reflexivity | discriminate]. }
    destruct R as (message & R & Hm). rewrite R. exists message.
    split; [reflexivity |]. right. now repeat split.
  - exists message. unfold writeHostsFile, writeHosts, bind. rewrite E.
    split; [reflexivity | now left].
Qed.

Lemma writeHostsFile_cancelled_witness :
  exists message,
    fst (writeHostsFile posix_join (calm 0)
           [sampleEntry "entry-0" "127.0.0.1" ["localhost" : str]] true [])
    = Thrown message
    /\ (snd (writeHostsFile posix_join (calm 0)
               [sampleEntry "entry-0" "127.0.0.1" ["localhost" : str]]
               true []) = []
        \/ (snd (writeHostsFile posix_join (calm 0)
                   [sampleEntry "entry-0" "127.0.0.1" ["localhost" : str]]
                   true [])
            = [] ++ [ShowMessageBox]
            /\ [sampleEntry "entry-0" "127.0.0.1" ["localhost" : str]] <> []
            /\ Forall (fun e => valid (validateEntry e) = true)
                 [sampleEntry "entry-0" "127.0.0.1" ["localhost" : str]]
            /\ (dialog_showMessageBox (calm 0) [] = Returned 0 ->
                message = "Permission denied: User canceled"))).
Proof.
  apply (writeHostsFile_cancelled nat posix_join (calm 0)
           [sampleEntry "entry-0" "127.0.0.1" ["localhost" : str]] []).
  intros n. discriminate.
Defined.

(** *** The handlers *)

(** X20.  The handlers of "hosts:read" and "hosts:write" always answer
    with a response object and never throw.  A response carries an error
    message exactly when it is not a success.  "hosts:read" succeeds with
    the data exactly when [readHosts] returns them, and calls nothing but
    reads.  "hosts:write" answers an empty array with "Cannot save empty
    hosts file" without any call; otherwise it asks for the windows and
    succeeds exactly when [writeHosts], given a window if there is one,
    returns. *)
Theorem handlers_respond (number : Type) (path_join : str -> str -> str)
    (env : Environment number) (entries : list HostEntry)
    (log : list call) :
  (exists r,
     fst (hosts_read env log) = Returned r
     /\ snd (hosts_read env log) = snd (readHosts env log)
     /\ (success r = true <-> error r = None)
     /\ match fst (readHosts env log) with
        | Returned d => r = {| success := true; data := Some d;
                               error := None |}
        | Thrown message => r = {| success := false; data := None;
                                   error := Some message |}
        end)
  /\ (exists r,
        fst (hosts_write path_join env entries log) = Returned r
        /\ data r = None
        /\ (success r = true <-> error r = None)
        /\ match entries with
           | [] => snd (hosts_write path_join env entries log) = log
                   /\ error r = Some ("Cannot save empty hosts file" : str)
           | _ :: _ =>
               let window := 0 <? getAllWindows_length env log in
               let run := writeHostsFile path_join env entries window
                            (log ++ [GetAllWindows]) in
               snd (hosts_write path_join env entries log) = snd run
               /\ match fst run with
                  | Returned _ => success r = true
                  | Thrown message => error r = Some message
                  end
           end).
Proof.
  split.
  - unfold hosts_read, try_catch, bind, ret.
    destruct (readHosts env log) as [[d | message] log']; cbn [fst snd];
      eexists; (split; [reflexivity |]); cbn [success error];
      (split; [reflexivity |]); (split; [| reflexivity]);
      split; congruence.
  - unfold hosts_write, try_catch.
    destruct entries as [| e rest].
    + cbn [length Nat.eqb]. unfold ret. eexists. cbn [fst snd].
      split; [reflexivity |]. cbn [success error data].
      split; [reflexivity |]. split; [split; congruence | now split].
    + cbn [length Nat.eqb]. unfold getMainWindow, bind, perform, ret.
      cbv zeta.
      destruct (writeHostsFile path_join env (e :: rest)
                  (0 <? getAllWindows_length env log)
                  (log ++ [GetAllWindows])) as [[u | message] log'];
        cbn [fst snd]; eexists; (split; [reflexivity |]);
        cbn [success error data]; (split; [reflexivity |]);
        (split; [split; congruence | now split]).
Qed.

(** ** The renderer's side *)

Lemma bind_ext (World A B : Type) (m : IO World A)
    (k k' : A -> IO World B) (w : World) :
  (forall a w', k a w' = k' a w') -> bind World m k w = bind World m k' w.
Proof.
  intros H. unfold bind. destruct (m w) as [[a | message] w'];
    [apply H | reflexivity].
Qed.

Lemma formatEntry_serializeEntry (e : HostEntry) :
  formatEntry (serializeEntry e) = formatEntry e.
Proof.
  destruct e as [i p h en c g]. unfold formatEntry, serializeEntry.
  cbn [ip hostnames enabled comment].
  now destruct c as [[| x s] |].
Qed.

Lemma stringify_serialized (now : str) (l : list HostEntry) :
  stringify now (map serializeEntry l) = stringify now l.
Proof.
  unfold stringify. do 3 f_equal.
  induction l as [| e l IH]; [reflexivity |].
  cbn [map flat_map]. now rewrite formatEntry_serializeEntry, IH.
Qed.

Lemma validationErrors_serialized (i : nat) (l : list HostEntry) :
  validationErrors_from i (map serializeEntry l) = validationErrors_from i l.
Proof.
  revert i. induction l as [| e l IH]; intros i; [reflexivity |].
  cbn [map validationErrors_from]. now rewrite IH.
Qed.

Lemma writeHostsFile_serialized (number : Type)
    (path_join : str -> str -> str) (env : Environment number)
    (l : list HostEntry) (window : bool) (log : list call) :
  writeHostsFile path_join env (map serializeEntry l) window log
  = writeHostsFile path_join env l window log.
Proof.
  unfold writeHostsFile, writeHosts, validateEntriesForWrite.
  rewrite length_map, validationErrors_serialized.
  apply bind_ext. intros _ w1. apply bind_ext. intros _ w2.
  apply bind_ext. intros _ w3. apply bind_ext. intros now w4.
  now rewrite stringify_serialized.
Qed.

Lemma hosts_write_serialized (number : Type)
    (path_join : str -> str -> str) (env : Environment number)
    (l : list HostEntry) (log : list call) :
  hosts_write path_join env (map serializeEntry l) log
  = hosts_write path_join env l log.
Proof.
  unfold hosts_write, try_catch. rewrite length_map.
  destruct (length l =? 0); [reflexivity |].
  unfold bind at 1 3.
  destruct (getMainWindow env log) as [[window | message] log'];
    [| reflexivity].
  unfold bind. now rewrite writeHostsFile_serialized.
Qed.

(** X21.  The copy that [electronAPI.writeHosts] makes of the entries
    does not change what is done with them: the handler answers, calls
    and writes the same as for the entries themselves, since validation
    and [stringify] do not tell an empty comment from a missing one.  The
    copy never carries an empty comment or group, and copying a copy
    changes nothing. *)
Theorem electronAPI_writeHosts_transparent (number : Type)
    (path_join : str -> str -> str) (env : Environment number)
    (l : list HostEntry) (log : list call) :
  electronAPI_writeHosts path_join env l log = hosts_write path_join env l log
  /\ (forall now, stringify now (map serializeEntry l) = stringify now l)
  /\ map validateEntry (map serializeEntry l) = map validateEntry l
  /\ Forall (fun e => comment e <> Some [] /\ group e <> Some [])
       (map serializeEntry l)
  /\ map serializeEntry (map serializeEntry l) = map serializeEntry l.
Proof.
  split; [apply hosts_write_serialized |].
  split; [intros now; apply stringify_serialized |].
  split; [now rewrite map_map |].
  split.
  - apply Forall_forall. intros e He.
    apply in_map_iff in He as (e0 & <- & _).
    destruct e0 as [i p h en c g]. unfold serializeEntry.
    cbn [comment group].
    destruct c as [[| x s] |], g as [[| y t] |]; cbn; split; discriminate.
  - rewrite map_map. apply map_ext. intros e.
    destruct e as [i p h en c g]. unfold serializeEntry.
    cbn [id ip hostnames enabled comment group].
    now destruct c as [[| x s] |], g as [[| y t] |].
Qed.

Lemma hosts_write_cases (number : Type) (path_join : str -> str -> str)
    (env : Environment number) (l : list HostEntry) (log : list call) :
  exists new,
    (exists message,
       hosts_write path_join env l log
       = (Returned {| success := false; data := None;
                      error := Some message |}, log ++ new))
    \/ (hosts_write path_join env l log
        = (Returned {| success := true; data := None; error := None |},
           log ++ new)
        /\ l <> []
        /\ Forall (fun e => valid (validateEntry e) = true) l
        /\ exists now t,
             temp_path path_join t
             /\ In (WriteFile t (stringify now l)) new).
Proof.
  unfold hosts_write, try_catch.
  destruct l as [| e rest].
  - exists []. left. eexists. rewrite app_nil_r. reflexivity.
  - cbn [length Nat.eqb]. unfold getMainWindow, bind, perform, ret.
    pose proof (writeHostsFile_calls number path_join env (e :: rest)
                  (0 <? getAllWindows_length env log)
                  (log ++ [GetAllWindows])) as (new & Esnd & _).
    pose proof (writeHostsFile_returned number path_join env (e :: rest)
                  (0 <? getAllWindows_length env log)
                  (log ++ [GetAllWindows])) as Hret.
    destruct (writeHostsFile path_join env (e :: rest)
                (0 <? getAllWindows_length env log)
                (log ++ [GetAllWindows])) as [[[] | message] log'];
      cbn [fst snd] in Esnd, Hret; subst log'.
    + destruct (Hret eq_refl)
        as (Hne & Hvalid & pre & now & t & sp & out & E & _ & Ht & _).
      apply app_inv_head in E. exists (GetAllWindows :: new).
      right. rewrite <- app_assoc. split; [reflexivity |].
      split; [exact Hne |]. split; [exact Hvalid |].
      exists now, t. split; [exact Ht |]. right. rewrite E.
      apply in_or_app. right. cbn. auto.
    + exists (GetAllWindows :: new). left. exists message.
      now rewrite <- app_assoc.
Qed.

(** X22.  What saving from the header does.  [writeHosts] of the header
    never throws, and the toast it shows last tells what happened.  With
    an empty working list it shows "No entries to save" and does nothing
    else.  When it ends with the success toast, the entries with a
    non-empty address, and only they, passed validation and were written
    ([stringify] of exactly these went to the temporary file), and the
    store has been marked as saved: its saved list is the whole working
    list, the skipped entries included.  Otherwise it ends with
    "Failed to save: " and the reason, and the store is as before. *)
Theorem Header_writeHosts_outcome (number : Type)
    (path_join : str -> str -> str) (env : Environment number)
    (localeCompare : str -> str -> Z) (st : HostsStore) (log : list call) :
  let kept := filter (fun e => truthy (ip e)) (entries st) in
  exists st' new last,
    Header_writeHosts path_join env localeCompare st log
    = (Returned st', log ++ new ++ [last])
    /\ ((last = ShowToast "No entries to save" ToastWarning None
         /\ entries st = [] /\ new = [] /\ st' = st)
        \/ (last = ShowToast "Successfully saved to /etc/hosts"
                     ToastSuccess None
            /\ st' = markAsSaved localeCompare st
            /\ originalEntries st' = entries st
            /\ entries st' = entries st
            /\ kept <> []
            /\ Forall (fun e => valid (validateEntry e) = true) kept
            /\ exists now t,
                 temp_path path_join t
                 /\ In (WriteFile t (stringify now kept)) new)
        \/ (exists message,
              last = ShowToast ("Failed to save: " ++ message)
                       ToastError (Some 5000%N)
              /\ st' = st /\ entries st <> [])).
Proof.
  intros kept. unfold Header_writeHosts. cbv zeta. fold kept.
  destruct (length (entries st) =? 0) eqn:Elen.
  - exists st, [], (ShowToast "No entries to save" ToastWarning None).
    split; [reflexivity |]. left. split; [reflexivity |].
    split; [| now split]. apply Nat.eqb_eq in Elen.
    now apply length_zero_iff_nil.
  - assert (Hentries : entries st <> []).
    { intros E0. rewrite E0 in Elen. discriminate Elen. }
    assert (Hskip : exists skip,
               (if negb (length kept =? length (entries st))
                then showToast
                       (String_of_number (length (entries st) - length kept)
                          ++ " invalid entries will be skipped")
                       ToastWarning (Some 4000%N)
                else ret (list call) tt) log
               = (Returned tt, log ++ skip)).
    { destruct (negb (length kept =? length (entries st))).
      - now eexists [_].
      - exists []. unfold ret. now rewrite app_nil_r. }
    destruct Hskip as (skip & Hskip).
    unfold bind at 1. rewrite Hskip. unfold try_catch, bind, showToast.
    unfold perform at 1. unfold electronAPI_writeHosts. cbv zeta.
    rewrite hosts_write_serialized.
    destruct (hosts_write_cases number path_join env kept
                ((log ++ skip)
                   ++ [ShowToast "Saving to /etc/hosts..." ToastInfo
                         (Some 2000%N)]))
      as (new & [(message & E) | (E & Hne & Hvalid & now & t & Ht & Hin)]);
      rewrite E; cbn [success error error_text]; unfold perform, ret.
    + exists st,
        (skip ++ ShowToast "Saving to /etc/hosts..." ToastInfo (Some 2000%N)
                :: new),
        (ShowToast ("Failed to save: " ++ message) ToastError (Some 5000%N)).
      split.
      * rewrite <- !app_assoc. reflexivity.
      * right. right. exists message. split; [reflexivity |].
        split; [reflexivity | exact Hentries].
    + exists (markAsSaved localeCompare st),
        (skip ++ ShowToast "Saving to /etc/hosts..." ToastInfo (Some 2000%N)
                :: new),
        (ShowToast "Successfully saved to /etc/hosts" ToastSuccess None).
      split.
      * rewrite <- !app_assoc. reflexivity.
      * right. left. split; [reflexivity |]. split; [reflexivity |].
        split; [reflexivity |]. split; [reflexivity |].
        split; [exact Hne |]. split; [exact Hvalid |].
        exists now, t. split; [exact Ht |].
        apply in_or_app. right. now right.
Qed.

Lemma parse_ids_NoDup (content : str) : NoDup (map id (parse content)).
Proof.
  unfold parse.
  destruct (parse_lines_numbered (split [LF] content)) as (ks & Hids & Hs & _).
  rewrite Hids. apply NoDup_map_injective.
  - apply entry_id_of_inj.
  - now apply StronglySorted_lt_NoDup.
Qed.

(** X23.  What loading does.  [loadHosts] of [App] never throws and
    calls nothing but reads of /etc/hosts.  Either it leaves an error
    text, which then begins with "Failed to read hosts file: ", and the
    store as it was; or it leaves no error and a store whose working list
    and saved list are both the parse of the text read: no entry counts
    as unsaved, the filter "unsaved" shows nothing, and every entry is as
    the parser makes them. *)
Theorem App_loadHosts_outcome (number : Type) (env : Environment number)
    (localeCompare : str -> str -> Z) (st : HostsStore) (log : list call) :
  exists st' err new,
    App_loadHosts env localeCompare st log = (Returned (st', err), log ++ new)
    /\ Forall reads_hosts new
    /\ match err with
       | Some message =>
           st' = st
           /\ startsWith "Failed to read hosts file: " message = true
       | None =>
           exists content,
             st' = setEntries localeCompare (parse content) st
             /\ entries st' = parse content
             /\ originalEntries st' = parse content
             /\ nothing_flagged localeCompare st'
             /\ Forall parsed_entry (entries st')
       end.
Proof.
  unfold App_loadHosts, electronAPI_readHosts, hosts_read, try_catch, bind,
    ret.
  destruct (readHosts_cases number env log)
    as (new & Hnew & [(content & mtimeMs & E) | (message & E)]); rewrite E;
    cbn [success data error data_entries].
  - exists (setEntries localeCompare (parse content) st), None, new.
    split; [reflexivity |]. split; [exact Hnew |].
    exists content. split; [reflexivity |]. split; [reflexivity |].
    split; [reflexivity |]. split.
    + apply nothing_flagged_in_sync. split; [reflexivity |].
      apply parse_ids_NoDup.
    + unfold parse, parse_lines. apply parse_loop_parsed. constructor.
  - exists st, (Some ("Failed to read hosts file: " ++ message)), new.
    split; [reflexivity |]. split; [exact Hnew |]. now split.
Qed.
